(** * Auction and escrow settlement of the card-collection bot

    A shallow embedding of [handlers/auction.py]: the [auctions] and
    [auction_bids] tables, the users' crystal balances and card inventories,
    and the handlers that create an auction, place a bid, settle expired
    auctions and run the two manual recovery callbacks.

    Conventions of the embedding.
    - The five SQL tables the module touches are the fields of [db].  A table
      whose rows the code addresses by a key ([users] by [user_id],
      [user_waifus] by [(user_id, waifu_id)], [waifu_cards] by [id]) is a
      finite map on that key; [auctions] and [auction_bids], which the code
      scans and orders, are lists in insertion (rowid) order.
    - A reading of [datetime.now()] is an integer number of microseconds; an
      ISO timestamp written by the code is that integer (the ISO strings the
      code compares are ordered like the instants they denote).  Every call of
      [datetime.now()] in a handler is a separate argument of its model.
    - Parsing of the message text, the replies' wording, the media preview,
      [db.log_event] and the best-effort notifications leave the tables
      untouched and are not modelled; a handler's reply is a constructor of
      [reply].
    - A statement that SQLite accepts runs to its end: a failing store is not
      modelled, so the [except] branch of [bid_handler] is never taken.  Two
      statements raise: the rollback of line 208, which SQLite refuses, and
      the [INSERT] of line 218 when the minimum price does not fit the 64
      bits of an [INTEGER].
    - The ids that a command names are bound in a [SELECT] before anything
      is written (lines 189, 272): for an id outside the 64 bits the code
      raises there, the model answers that nothing is found, and the tables
      are the same in both.  The balances are taken small enough for a bid
      that passes the funds check to fit the 64 bits.
    - [iso_to_dt] reads back the timestamps that the code itself has
      written, which always parse. *)

From Stdlib Require Import Ascii String.
From stdpp Require Import base gmap list strings sorting.

Local Open Scope Z_scope.

(** ** Data model *)

(** [BID_TIMEOUT_SECONDS = 10]. *)
Definition BID_TIMEOUT_SECONDS : Z := 10.

(** [timedelta(seconds=s)] in microseconds. *)
Definition timedelta (s : Z) : Z := s * 1000000.

(** The [status] column of [auctions]: ['active'] (the default) or
    ['finished']. *)
Inductive auction_status := active | finished.

#[global] Instance auction_status_eq_dec : EqDecision auction_status.
Proof. solve_decision. Defined.

(** The columns of [waifu_cards] that an auction snapshots. *)
Record card := mk_card {
  name : string;
  anime : option string;
  rarity : option string;
  media_type : option string;
  media_file : option string;
  media_file_id : option string
}.

(** A row of [auctions].  [transferred INTEGER DEFAULT 0] is only ever tested
    for truth and set to 1. *)
Record auction := mk_auction {
  a_id : Z;
  waifu_id : Z;
  seller_id : Z;
  start_iso : Z;
  end_iso : Z;
  min_price : Z;
  status : auction_status;
  winner_id : option Z;
  final_price : option Z;
  transferred : bool;
  waifu : card
}.

(** A row of [auction_bids]; its autoincrement [id] is never read and is the
    row's position in the list. *)
Record bid := mk_bid {
  auction_id : Z;
  bidder_id : Z;
  amount : Z;
  bid_iso : Z
}.

(** A row of [user_waifus] under its key [(user_id, waifu_id)]: the columns
    [amount] and [last_collected INTEGER DEFAULT NULL] ([handlers/claim.py],
    lines 32-38).  The auction module reads and writes [amount] only; a row
    it inserts takes the column default for [last_collected], and a row it
    deletes loses what it had there. *)
Record user_waifu := mk_user_waifu {
  uw_amount : Z;
  last_collected : option Z
}.

(** The database.  [crystals] is the users' balance as the auction module
    sees it: the [total] that [db.get_crystals] returns. *)
Record db := mk_db {
  crystals : gmap Z Z;
  user_waifus : gmap (Z * Z) user_waifu;
  waifu_cards : gmap Z card;
  auctions : list auction;
  auction_bids : list bid
}.

Definition set_crystals (w : gmap Z Z) (st : db) : db :=
  mk_db w (user_waifus st) (waifu_cards st) (auctions st) (auction_bids st).

Definition set_user_waifus (inv : gmap (Z * Z) user_waifu) (st : db) : db :=
  mk_db (crystals st) inv (waifu_cards st) (auctions st) (auction_bids st).

Definition set_auctions (l : list auction) (st : db) : db :=
  mk_db (crystals st) (user_waifus st) (waifu_cards st) l (auction_bids st).

Definition set_auction_bids (l : list bid) (st : db) : db :=
  mk_db (crystals st) (user_waifus st) (waifu_cards st) (auctions st) l.

(** ** The wallet *)

(** Modelled from the spec: the [Database] class ([database.py]) is not part
    of the sources.  [db.get_crystals(user)] returns a tuple whose fourth
    component [total] is the wallet's [Balance(user)]; a user without a
    balance has none to spend. *)
Definition get_crystals (user_id : Z) (st : db) : Z :=
  default 0 (crystals st !! user_id).

(** Modelled from the spec: [db.add_crystals(user, given=x)] is the wallet's
    [Credit(user, x)]; the handlers debit by crediting a negative amount. *)
Definition add_crystals (user_id given : Z) (st : db) : db :=
  set_crystals (<[user_id := get_crystals user_id st + given]> (crystals st)) st.

(** ** Inventory rows *)

(** [UPDATE user_waifus SET amount = amount + d]: the row's other column
    stays. *)
Definition add_amount (d : Z) (r : user_waifu) : user_waifu :=
  mk_user_waifu (uw_amount r + d) (last_collected r).

(** [INSERT INTO user_waifus (user_id, waifu_id, amount) VALUES (?, ?, 1)]:
    [last_collected] is NULL. *)
Definition first_copy : user_waifu := mk_user_waifu 1 None.

(** [SELECT amount FROM user_waifus WHERE user_id = ? AND waifu_id = ?]
    followed by [UPDATE ... amount = amount + 1] when the row exists and
    [INSERT ... VALUES (?, ?, 1)] when it does not (lines 109-116, 507-514). *)
Definition add_to_inventory (user_id wid : Z) (st : db) : db :=
  match user_waifus st !! (user_id, wid) with
  | Some r =>
      set_user_waifus (<[(user_id, wid) := add_amount 1 r]> (user_waifus st)) st
  | None => set_user_waifus (<[(user_id, wid) := first_copy]> (user_waifus st)) st
  end.

(** ** Queries on the auction tables *)

(** [SELECT ... FROM auctions WHERE id = ?] then [fetchone()]. *)
Fixpoint find_auction (aid : Z) (l : list auction) : option auction :=
  match l with
  | [] => None
  | a :: l' => if decide (a_id a = aid) then Some a else find_auction aid l'
  end.

(** [UPDATE auctions SET ... WHERE id = ?]: every row with that id. *)
Definition update_auction (aid : Z) (f : auction → auction)
    (l : list auction) : list auction :=
  (λ a, if decide (a_id a = aid) then f a else a) <$> l.

(** [ORDER BY amount DESC, bid_iso ASC]: [b] comes before [c]. *)
Definition outranks (b c : bid) : bool :=
  (amount c <? amount b) || ((amount b =? amount c) && (bid_iso b <? bid_iso c)).

(** The first row of that order; among rows that tie on both columns, the
    one inserted first. *)
Definition first_ranked (l : list bid) : option bid :=
  foldl (λ acc b, match acc with
                  | None => Some b
                  | Some c => if outranks b c then Some b else Some c
                  end) None l.

(** [SELECT bidder_id, amount FROM auction_bids WHERE auction_id = ?
    ORDER BY amount DESC, bid_iso ASC LIMIT 1]. *)
Definition highest_bid (aid : Z) (bids : list bid) : option bid :=
  first_ranked (filter (λ b, auction_id b = aid) bids).

(** ** Settlement: [finalize_expired_auctions] *)

(** [SELECT transferred FROM auctions WHERE id = ?] then [fetchone()[0]]. *)
Definition transferred_flag (aid : Z) (st : db) : bool :=
  match find_auction aid (auctions st) with
  | Some a => transferred a
  | None => false
  end.

(** Lines 128-139, effect (a): the winner gets the card.  The [transferred]
    flag is consulted only when the winner already has a row for the card. *)
Definition settle_grant (aid wid winner : Z) (st : db) : db :=
  match user_waifus st !! (winner, wid) with
  | Some r =>
      if transferred_flag aid st then st
      else set_user_waifus (<[(winner, wid) := add_amount 1 r]> (user_waifus st)) st
  | None => set_user_waifus (<[(winner, wid) := first_copy]> (user_waifus st)) st
  end.

(** Lines 141-147, effect (b): the seller is credited unless [transferred]. *)
Definition settle_credit (aid seller price : Z) (st : db) : db :=
  if transferred_flag aid st then st else add_crystals seller price st.

(** Lines 149-152, step (c): one [UPDATE] sets [status], [winner_id],
    [final_price] and [transferred] together. *)
Definition mark_sold (winner price : Z) (a : auction) : auction :=
  mk_auction (a_id a) (waifu_id a) (seller_id a) (start_iso a) (end_iso a)
    (min_price a) finished (Some winner) (Some price) true (waifu a).

Definition settle_mark (aid winner price : Z) (st : db) : db :=
  set_auctions (update_auction aid (mark_sold winner price) (auctions st)) st.

(** Line 117: [UPDATE auctions SET status = 'finished', transferred = 1]. *)
Definition mark_unsold (a : auction) : auction :=
  mk_auction (a_id a) (waifu_id a) (seller_id a) (start_iso a) (end_iso a)
    (min_price a) finished (winner_id a) (final_price a) true (waifu a).

(** Line 101: [UPDATE auctions SET status = 'finished']. *)
Definition mark_finished (a : auction) : auction :=
  mk_auction (a_id a) (waifu_id a) (seller_id a) (start_iso a) (end_iso a)
    (min_price a) finished (winner_id a) (final_price a) (transferred a)
    (waifu a).

(** The body of the loop of [finalize_expired_auctions] (lines 90-159) for
    one selected id. *)
Definition finalize_one (st : db) (aid : Z) : db :=
  let top := highest_bid aid (auction_bids st) in
  match find_auction aid (auctions st) with
  | None => set_auctions (update_auction aid mark_finished (auctions st)) st
  | Some arow =>
      match top with
      | None =>
          set_auctions (update_auction aid mark_unsold (auctions st))
            (add_to_inventory (seller_id arow) (waifu_id arow) st)
      | Some b =>
          settle_mark aid (bidder_id b) (amount b)
            (settle_credit aid (seller_id arow) (amount b)
               (settle_grant aid (waifu_id arow) (bidder_id b) st))
      end
  end.

(** [SELECT id FROM auctions WHERE status = 'active' AND end_iso <= ?]. *)
Definition expired_ids (now : Z) (l : list auction) : list Z :=
  a_id <$> filter (λ a, status a = active ∧ end_iso a ≤ now) l.

(** [finalize_expired_auctions]: the ids are selected once, then settled one
    after the other.  [finalize_expired_auctions_sync] only swallows
    exceptions, of which the model's settlement raises none. *)
Definition finalize_expired_auctions (now : Z) (st : db) : db :=
  foldl finalize_one st (expired_ids now (auctions st)).

(** ** Replies *)

Inductive reply :=
  | NotOwned               (* You don't own that waifu or have 0 amount. *)
  | CardNotFound           (* Waifu card not found in database. *)
  | AuctionStarted (aid : Z)
  | AuctionNotFound        (* Auction not found. *)
  | NotActive              (* This auction is not active anymore. *)
  | AuctionEnded           (* Auction has just ended; no more bids accepted. *)
  | NotEnoughCrystals      (* You don't have enough crystals ... *)
  | BidNotHigher (current : Z)   (* must be higher than the current highest bid *)
  | BidBelowMin (floor : Z)      (* must be at least the minimum price *)
  | BidPlaced
  | NotFinished            (* Auction not finished yet. *)
  | NoWinner               (* No winner for this auction. *)
  | CardAdded              (* Card added to winner's inventory. *)
  | AlreadyTransferred     (* Already transferred. *)
  | AlreadyCredited        (* Seller already credited (or transfer done). *)
  | NoFinalPrice           (* No final price recorded. *)
  | SellerCredited         (* Seller credited. *)
  | OperationalError       (* sqlite3.OperationalError leaves the handler *)
  | OverflowError.         (* Python int too large to convert to SQLite INTEGER *)

#[global] Instance reply_eq_dec : EqDecision reply.
Proof. solve_decision. Defined.

(** The handler ends with an exception instead of a reply. *)
Definition raised (r : reply) : Prop :=
  r = OperationalError ∨ r = OverflowError.

(** ** Creating an auction: [auction_handler] *)

(** Lines 195-199: reserve one copy of the row [r] that line 189 has read.
    The [UPDATE] keeps the row with one copy less; the [DELETE] of a last
    copy drops the row, and with it its [last_collected]. *)
Definition reserve_one (user_id wid : Z) (r : user_waifu) (st : db) : db :=
  if decide (1 < uw_amount r)
  then set_user_waifus (<[(user_id, wid) := add_amount (-1) r]> (user_waifus st)) st
  else set_user_waifus (delete (user_id, wid) (user_waifus st)) st.

(** The statement of line 208, as the source has it. *)
Definition rollback_statement : string :=
  "INSERT OR REPLACE INTO user_waifus (user_id, waifu_id, amount) VALUES (?, ?, COALESCE((SELECT amount FROM user_waifus WHERE user_id=? AND waifu_id=?), 0)+1))".

(** Nesting depth of the parentheses of a statement, read left to right;
    [None] as soon as a closing parenthesis has no opening one. *)
Fixpoint paren_depth (s : string) (depth : nat) : option nat :=
  match s with
  | EmptyString => Some depth
  | String c s' =>
      if Ascii.eqb c "("%char then paren_depth s' (S depth)
      else if Ascii.eqb c ")"%char then
        match depth with
        | O => None
        | S d => paren_depth s' d
        end
      else paren_depth s' depth
  end.

(** SQLite prepares a statement before running it, and refuses one whose
    parentheses do not match: [cursor.execute] raises. *)
Definition statement_parses (s : string) : bool :=
  bool_decide (paren_depth s 0 = Some 0%nat).

(** Copies that [user_id] holds of card [wid]; no row counts as none. *)
Definition copies (user_id wid : Z) (st : db) : Z :=
  default 0 (uw_amount <$> user_waifus st !! (user_id, wid)).

(** What the upsert of line 208 writes when it runs:
    [COALESCE((SELECT amount ...), 0) + 1], in a row that replaces the old
    one ([last_collected] is not among the columns it names). *)
Definition restore_one (user_id wid : Z) (st : db) : db :=
  set_user_waifus
    (<[(user_id, wid) := mk_user_waifu (copies user_id wid st + 1) None]>
       (user_waifus st)) st.

(** Lines 215-224: the new row; [status] and [transferred] take their column
    defaults, [winner_id] and [final_price] are NULL. *)
Definition new_auction (aid wid user_id start min_price : Z) (w : card) : auction :=
  mk_auction aid wid user_id start (start + timedelta BID_TIMEOUT_SECONDS)
    min_price active None None false w.

(** [db.cursor.lastrowid] after the insert: the table's largest id plus one
    (rows are never deleted, so [AUTOINCREMENT] adds nothing to this). *)
Definition max_id (l : list auction) : Z :=
  foldr (λ a m, Z.max (a_id a) m) 0 l.

Definition next_id (l : list auction) : Z := max_id l + 1.

(** An [INTEGER] column holds 64 bits, and [int] parses a number of any
    size: [cursor.execute] raises [OverflowError] when it binds an [int]
    outside this range. *)
Definition sqlite_integer (x : Z) : Prop := - 2 ^ 63 ≤ x < 2 ^ 63.

(** Lines 188-224 of [auction_handler], after the message is parsed; [start]
    is the reading of [datetime.now()] at line 216.  The reservation is
    committed at line 200, before the card is looked up and before the
    [INSERT] of line 218 binds [min_price]. *)
Definition create_auction (start user_id wid price : Z) (st : db) : reply * db :=
  match user_waifus st !! (user_id, wid) with
  | None => (NotOwned, st)
  | Some r =>
      if decide (uw_amount r ≤ 0) then (NotOwned, st)
      else
        let st1 := reserve_one user_id wid r st in
        match waifu_cards st1 !! wid with
        | None =>
            if statement_parses rollback_statement
            then (CardNotFound, restore_one user_id wid st1)
            else (OperationalError, st1)
        | Some w =>
            if decide (sqlite_integer price) then
              let aid := next_id (auctions st1) in
              (AuctionStarted aid,
               set_auctions
                 (auctions st1 ++ [new_auction aid wid user_id start price w])
                 st1)
            else (OverflowError, st1)
        end
  end.

(** [auction_handler]: the opening sweep (line 175, reading the clock at
    [sweep]) and then the creation. *)
Definition auction_handler (sweep start user_id wid price : Z) (st : db)
    : reply * db :=
  create_auction start user_id wid price (finalize_expired_auctions sweep st).

(** ** Placing a bid: [bid_handler] *)

(** The readings of [datetime.now()] during one run of [bid_handler]: in the
    opening sweep (line 258), at the expiry test (line 282), in the sweep of
    the expired branch (line 283), for [bid_iso] (line 317) and for the new
    end time (line 341). *)
Record bid_clock := mk_bid_clock {
  at_sweep : Z;
  at_check : Z;
  at_resweep : Z;
  at_bid : Z;
  at_extend : Z
}.

(** Line 342: [UPDATE auctions SET end_iso = ? WHERE id = ?]. *)
Definition set_end_iso (e : Z) (a : auction) : auction :=
  mk_auction (a_id a) (waifu_id a) (seller_id a) (start_iso a) e
    (min_price a) (status a) (winner_id a) (final_price a) (transferred a)
    (waifu a).

(** Lines 293-301: the bidder's funds, counting the amount they already have
    reserved when they hold the highest bid. *)
Definition available_funds (user_id : Z) (current : option bid) (st : db) : Z :=
  let total := get_crystals user_id st in
  match current with
  | Some c => if decide (bidder_id c = user_id) then total + amount c else total
  | None => total
  end.

(** Lines 319-333: the movement of crystals for an accepted bid.  Python's
    [if current and curr_bidder] holds for a row whose bidder id is not 0. *)
Definition move_funds (user_id amt : Z) (current : option bid) (st : db) : db :=
  match current with
  | Some c =>
      if decide (bidder_id c = user_id) then
        let delta := amt - amount c in
        if decide (0 < delta) then add_crystals user_id (- delta) st else st
      else
        let st1 := add_crystals user_id (- amt) st in
        if decide (bidder_id c ≠ 0)
        then add_crystals (bidder_id c) (amount c) st1
        else st1
  | None => add_crystals user_id (- amt) st
  end.

(** Lines 314-343: funds, the new bid row, the new end time. *)
Definition accept_bid (c : bid_clock) (user_id aid amt : Z)
    (current : option bid) (st : db) : db :=
  let st1 := move_funds user_id amt current st in
  let st2 := set_auction_bids
               (auction_bids st1 ++ [mk_bid aid user_id amt (at_bid c)]) st1 in
  set_auctions
    (update_auction aid
       (set_end_iso (at_extend c + timedelta BID_TIMEOUT_SECONDS))
       (auctions st2)) st2.

(** Lines 272-360 of [bid_handler], after the message is parsed, without the
    sweep of line 283, which [bid_handler] below runs when this answers
    [AuctionEnded]. *)
Definition place_bid (c : bid_clock) (user_id aid amt : Z) (st : db)
    : reply * db :=
  match find_auction aid (auctions st) with
  | None => (AuctionNotFound, st)
  | Some a =>
      if decide (status a ≠ active) then (NotActive, st)
      else if decide (end_iso a ≤ at_check c) then (AuctionEnded, st)
      else
        let current := highest_bid aid (auction_bids st) in
        if decide (available_funds user_id current st < amt)
        then (NotEnoughCrystals, st)
        else
          match current with
          | Some top =>
              if decide (amt ≤ amount top) then (BidNotHigher (amount top), st)
              else (BidPlaced, accept_bid c user_id aid amt current st)
          | None =>
              if decide (amt < min_price a) then (BidBelowMin (min_price a), st)
              else (BidPlaced, accept_bid c user_id aid amt current st)
          end
  end.

(** [bid_handler]: the opening sweep, the bid, and the sweep of the expired
    branch. *)
Definition bid_handler (c : bid_clock) (user_id aid amt : Z) (st : db)
    : reply * db :=
  let r := place_bid c user_id aid amt
             (finalize_expired_auctions (at_sweep c) st) in
  match r.1 with
  | AuctionEnded => (AuctionEnded, finalize_expired_auctions (at_resweep c) r.2)
  | _ => r
  end.

(** ** Manual recovery: [auction_claim_cb] and [auction_credit_cb] *)

(** Python's truth of a nullable integer column: neither NULL nor 0. *)
Definition truthy (x : option Z) : option Z :=
  match x with
  | Some v => if decide (v = 0) then None else Some v
  | None => None
  end.

(** Line 515 and line 540: [UPDATE auctions SET transferred = 1]. *)
Definition mark_transferred (a : auction) : auction :=
  mk_auction (a_id a) (waifu_id a) (seller_id a) (start_iso a) (end_iso a)
    (min_price a) (status a) (winner_id a) (final_price a) true (waifu a).

(** [auction_claim_cb] (lines 494-520). *)
Definition auction_claim_cb (aid : Z) (st : db) : reply * db :=
  match find_auction aid (auctions st) with
  | None => (AuctionNotFound, st)
  | Some row =>
      if decide (status row ≠ finished) then (NotFinished, st)
      else
        match truthy (winner_id row) with
        | None => (NoWinner, st)
        | Some winner =>
            if transferred row then (AlreadyTransferred, st)
            else
              (CardAdded,
               set_auctions (update_auction aid mark_transferred (auctions st))
                 (add_to_inventory winner (waifu_id row) st))
        end
  end.

(** [auction_credit_cb] (lines 524-543). *)
Definition auction_credit_cb (aid : Z) (st : db) : reply * db :=
  match find_auction aid (auctions st) with
  | None => (AuctionNotFound, st)
  | Some row =>
      if decide (status row ≠ finished) then (NotFinished, st)
      else if transferred row then (AlreadyCredited, st)
      else
        match truthy (final_price row) with
        | None => (NoFinalPrice, st)
        | Some price =>
            (SellerCredited,
             set_auctions (update_auction aid mark_transferred (auctions st))
               (add_crystals (seller_id row) price st))
        end
  end.

(** ** Runs of the engine *)

(** One call of the engine: a handler with its arguments and the clock
    readings it takes. *)
Inductive op :=
  | Auction (sweep start user_id wid price : Z)
  | Bid (c : bid_clock) (user_id aid amt : Z)
  | Finalize (now : Z)
  | Claim (aid : Z)
  | Credit (aid : Z).

Definition step (st : db) (o : op) : db :=
  match o with
  | Auction sweep start u w p => (auction_handler sweep start u w p st).2
  | Bid c u a x => (bid_handler c u a x st).2
  | Finalize now => finalize_expired_auctions now st
  | Claim a => (auction_claim_cb a st).2
  | Credit a => (auction_credit_cb a st).2
  end.

Definition run (ops : list op) (st : db) : db := foldl step st ops.

(** ** Quantities the engine is meant to conserve *)

(** Sum of the values of a finite map, weighted by [f]. *)
Definition map_sum {K A} `{Countable K} (f : K → A → Z) (m : gmap K A) : Z :=
  map_fold (λ k v acc, f k v + acc) 0 m.



Definition sum_list_with_Z {A} (f : A → Z) (l : list A) : Z :=
  foldr (λ a s, f a + s) 0 l.



(** Copies of card [w] in the users' inventories. *)
Definition held (w : Z) (st : db) : Z :=
  map_sum (λ k r, if decide (k.2 = w) then uw_amount r else 0) (user_waifus st).

(** Copies of card [w] that auctions hold: one for each active auction of
    that card. *)
Definition reserved (w : Z) (a : auction) : Z :=
  if decide (status a = active ∧ waifu_id a = w) then 1 else 0.

Definition in_flight (w : Z) (st : db) : Z :=
  sum_list_with_Z (reserved w) (auctions st).

Definition items_total (w : Z) (st : db) : Z := held w st + in_flight w st.

(** ** The invariant of the tables *)

(** What the engine maintains of its tables: [id] is a key of [auctions]; an
    auction is flagged [transferred] exactly when it is finished; a bid
    refers to an auction and carries its bidder's (non-zero) Telegram id. *)
Record wf (st : db) : Prop := mk_wf {
  wf_ids : NoDup (a_id <$> auctions st);
  wf_flag : ∀ a, a ∈ auctions st →
            transferred a = bool_decide (status a = finished);
  wf_bid_auction : ∀ b, b ∈ auction_bids st →
                   auction_id b ∈ a_id <$> auctions st;
  wf_bidder : ∀ b, b ∈ auction_bids st → bidder_id b ≠ 0
}.

(** The sender of a bid has a Telegram user id, which is never 0. *)
Definition valid_op (o : op) : Prop :=
  match o with
  | Bid _ user_id _ _ => user_id ≠ 0
  | _ => True
  end.

(** ** Outcomes of the handlers *)

(** The four ways [create_auction] ends. *)
Inductive creation (start u wid p : Z) (st : db) : reply * db → Prop :=
  | creation_not_owned :
      (∀ r, user_waifus st !! (u, wid) = Some r → uw_amount r ≤ 0) →
      creation start u wid p st (NotOwned, st)
  | creation_raises r :
      user_waifus st !! (u, wid) = Some r → 0 < uw_amount r →
      waifu_cards st !! wid = None →
      creation start u wid p st (OperationalError, reserve_one u wid r st)
  | creation_overflows r w :
      user_waifus st !! (u, wid) = Some r → 0 < uw_amount r →
      waifu_cards st !! wid = Some w → ¬ sqlite_integer p →
      creation start u wid p st (OverflowError, reserve_one u wid r st)
  | creation_started r w :
      user_waifus st !! (u, wid) = Some r → 0 < uw_amount r →
      waifu_cards st !! wid = Some w → sqlite_integer p →
      creation start u wid p st
        (AuctionStarted (next_id (auctions st)),
         set_auctions
           (auctions st ++
              [new_auction (next_id (auctions st)) wid u start p w])
           (reserve_one u wid r st)).

(** The price a bid has to beat: above the highest bid, or at least the
    minimum price when there is none. *)
Definition beats (amt : Z) (current : option bid) (a : auction) : Prop :=
  match current with
  | Some top => amount top < amt
  | None => min_price a ≤ amt
  end.


(** [place_bid] either rejects the bid and leaves the tables as they are, or
    passes every check and applies [accept_bid]. *)
Inductive bidding (c : bid_clock) (u aid amt : Z) (st : db)
    : reply * db → Prop :=
  | bidding_rejected r : r ≠ BidPlaced → bidding c u aid amt st (r, st)
  | bidding_placed a :
      find_auction aid (auctions st) = Some a →
      status a = active →
      at_check c < end_iso a →
      amt ≤ available_funds u (highest_bid aid (auction_bids st)) st →
      beats amt (highest_bid aid (auction_bids st)) a →
      bidding c u aid amt st
        (BidPlaced,
         accept_bid c u aid amt (highest_bid aid (auction_bids st)) st).

(** ** Rows through settlement *)

(** A row update that closes an auction: it sets [status] and [transferred]
    and leaves the columns that identify and time the auction alone. *)
Definition closes (f : auction → auction) : Prop :=
  ∀ a, a_id (f a) = a_id a ∧ waifu_id (f a) = waifu_id a ∧
       seller_id (f a) = seller_id a ∧ end_iso (f a) = end_iso a ∧
       min_price (f a) = min_price a ∧
       status (f a) = finished ∧ transferred (f a) = true.

(** The ids a sweep still has to settle: distinct, each naming an active
    row. *)
Definition pending (st : db) (ids : list Z) : Prop :=
  NoDup ids ∧
  ∀ x, x ∈ ids → ∃ a, find_auction x (auctions st) = Some a ∧ status a = active.

Definition closed (a : auction) : Prop :=
  status a = finished ∧ transferred a = true.

(** [a'] is the row [a] after settlements: the same row, or that row
    closed. *)
Definition settled_from (a a' : auction) : Prop :=
  a_id a' = a_id a ∧ end_iso a' = end_iso a ∧ (a' = a ∨ closed a').

(** ** Quantities along a run *)

(** The card of every auction that the run starts is in [waifu_cards]. *)
Definition card_listed (cards : gmap Z card) (o : op) : Prop :=
  match o with
  | Auction _ _ _ wid _ => is_Some (cards !! wid)
  | _ => True
  end.

(** The minimum price of every auction that the run starts fits an
    [INTEGER] column. *)
Definition storable_op (o : op) : Prop :=
  match o with
  | Auction _ _ _ _ price => sqlite_integer price
  | _ => True
  end.

(** The amounts bid on an auction, in insertion order. *)
Definition bid_amounts (aid : Z) (st : db) : list Z :=
  amount <$> filter (λ b, auction_id b = aid) (auction_bids st).

(** The clock readings from which an operation computes an end time: the
    start of a new auction and the extension of an accepted bid. *)
Definition stamps (o : op) : list Z :=
  match o with
  | Auction _ start _ _ _ => [start]
  | Bid c _ _ _ => [at_extend c]
  | _ => []
  end.

(** Every auction ends one bidding window after one of the readings [ts]. *)
Definition stamped (ts : list Z) (st : db) : Prop :=
  ∀ a, a ∈ auctions st →
       ∃ t, t ∈ ts ∧ end_iso a = t + timedelta BID_TIMEOUT_SECONDS.

(** ** Example databases *)

(** A small database for the examples: user 1 owns one copy of card 12,
    collected at 1700000000, and one of card 99; card 12 is in
    [waifu_cards], card 99 is not; users 2 and 3 have crystals. *)
Definition demo_card : card := mk_card "Rem" None None None None None.

Definition demo_db : db :=
  mk_db {[ 1 := 0; 2 := 100000; 3 := 100000 ]}
        {[ (1, 12) := mk_user_waifu 1 (Some 1700000000);
           (1, 99) := mk_user_waifu 1 None ]}
        {[ 12 := demo_card ]} [] [].

Definition at_time (t : Z) : bid_clock := mk_bid_clock t t t t t.

(** An auction of card 12 from 50000 crystals, bids of 50000 by user 2,
    60000 by user 3 and 70000 by user 2, settlement, and the two manual
    callbacks. *)
Definition demo_ops : list op :=
  [ Auction 0 0 1 12 50000;
    Bid (at_time 1000000) 2 1 50000;
    Bid (at_time 2000000) 3 1 60000;
    Bid (at_time 3000000) 2 1 70000;
    Finalize 20000000;
    Claim 1;
    Credit 1 ].

(** The tables after the auction of card 12 has started, before any bid. *)
Definition started_db : db := run [Auction 0 0 1 12 50000] demo_db.

Definition started_row : auction :=
  mk_auction 1 12 1 0 10000000 50000 active None None false demo_card.

(** The tables after the auction of card 12 has received one bid of 50000
    crystals from user 2. *)
Definition bidding_db : db :=
  run [Auction 0 0 1 12 50000; Bid (at_time 1000000) 2 1 50000] demo_db.

Definition bidding_row : auction :=
  mk_auction 1 12 1 0 11000000 50000 active None None false demo_card.

(** ** Further invariants and examples *)

(** The tables after the auction of card 12 has received its three bids. *)
Definition contested_db : db :=
  run [Auction 0 0 1 12 50000;
       Bid (at_time 1000000) 2 1 50000;
       Bid (at_time 2000000) 3 1 60000;
       Bid (at_time 3000000) 2 1 70000] demo_db.

Definition contested_row : auction :=
  mk_auction 1 12 1 0 13000000 50000 active None None false demo_card.

(** No wallet is overdrawn, no price and no bid is negative. *)
Record solvent (st : db) : Prop := mk_solvent {
  solvent_wallets : ∀ u, 0 ≤ get_crystals u st;
  solvent_prices : ∀ a, a ∈ auctions st →
                   0 ≤ min_price a ∧ ∀ p, final_price a = Some p → 0 ≤ p;
  solvent_bids : ∀ b, b ∈ auction_bids st → 0 ≤ amount b
}.

(** The minimum price of a new auction is not negative. *)
Definition priced_op (o : op) : Prop :=
  match o with
  | Auction _ _ _ _ price => 0 ≤ price
  | _ => True
  end.

(** Every inventory row counts at least one copy. *)
Definition stocked (st : db) : Prop :=
  ∀ k r, user_waifus st !! k = Some r → 0 < uw_amount r.

(** The columns of an auction that say what is sold, by whom, from when and
    from which price. *)
Definition auction_key (a : auction) : Z * Z * Z * Z * Z * card :=
  (a_id a, waifu_id a, seller_id a, start_iso a, min_price a, waifu a).

(** The row that the settlement of an auction writes. *)
Definition settled_row (bids : list bid) (a : auction) : auction :=
  match highest_bid (a_id a) bids with
  | Some b => mark_sold (bidder_id b) (amount b) a
  | None => mark_unsold a
  end.

(** The tables after user 1 has put card 12 up from a negative minimum
    price. *)
Definition underpriced_db : db := run [Auction 0 0 1 12 (-50000)] demo_db.

Definition underpriced_row : auction :=
  mk_auction 1 12 1 0 10000000 (-50000) active None None false demo_card.

(** The tables after the contested auction of card 12 has been settled. *)
Definition sold_db : db := run demo_ops demo_db.

Definition sold_row : auction :=
  mk_auction 1 12 1 0 13000000 50000 finished (Some 2) (Some 70000) true
    demo_card.

(** Adding [x] to the entry of [k], an absent entry counting as 0: what
    [add_crystals] does to the balances. *)
Definition bump {K} `{Countable K} (k : K) (x : Z) (m : gmap K Z) : gmap K Z :=
  <[k := default 0 (m !! k) + x]> m.

(** One more copy under the key [k]: what [add_to_inventory] does to the
    inventories. *)
Definition one_more (k : Z * Z) (m : gmap (Z * Z) user_waifu)
    : gmap (Z * Z) user_waifu :=
  <[k := from_option (add_amount 1) first_copy (m !! k)]> m.

(** Who gets the card of a settled auction: the highest bidder, or the
    seller when nobody has bid. *)
Definition recipient (bids : list bid) (a : auction) : Z :=
  match highest_bid (a_id a) bids with
  | Some b => bidder_id b
  | None => seller_id a
  end.

(** The balances after the settlement of an auction. *)
Definition paid (bids : list bid) (a : auction) (m : gmap Z Z) : gmap Z Z :=
  match highest_bid (a_id a) bids with
  | Some b => bump (seller_id a) (amount b) m
  | None => m
  end.

(** The rows of the ids a sweep still has to settle are not flagged. *)
Definition unflagged (st : db) (ids : list Z) : Prop :=
  NoDup ids ∧
  ∀ x, x ∈ ids →
       ∃ a, find_auction x (auctions st) = Some a ∧ transferred a = false.

(** Tables with three auctions of card 12 that end one second after the
    other, the first with a bid. *)
Definition busy_db : db :=
  run [Auction 0 0 1 12 50000;
       Bid (at_time 1000000) 2 1 50000;
       Auction 2000000 2000000 5 12 100;
       Auction 3000000 3000000 5 12 200]
      (mk_db {[ 2 := 100000 ]}
             {[ (1, 12) := mk_user_waifu 1 None; (5, 12) := mk_user_waifu 2 None ]}
             {[ 12 := demo_card ]} [] []).

(** ** Read-only views: [auctions_list_handler], [auction_status_handler],
    [auction_info_cb] *)

(** The integer nearest to [n / d], for [0 ≤ n] and [0 < d]; a quotient half
    way between two integers goes to the even one. *)
Definition round_half_even (n d : Z) : Z :=
  let q := n / d in
  let r := n mod d in
  if decide (2 * r < d) then q
  else if decide (d < 2 * r) then q + 1
  else if Z.even q then q else q + 1.

(** A positive Python [float]: [mantissa * 2 ^ exponent], with a mantissa of
    53 bits. *)
Record float := mk_float {
  mantissa : Z;
  exponent : Z
}.

(** [a / b * 2 ^ (- e)] as a fraction of integers. *)
Definition scaled (a b e : Z) : Z * Z :=
  if decide (e < 0) then (a * 2 ^ (- e), b) else (a, b * 2 ^ e).

(** [a / b] for positive [int]s: the float nearest to the quotient.  The
    exponent is the one that leaves 53 bits before the binary point; the
    quotients of a [timedelta] are far from the range where a float
    overflows or loses bits to its smallest exponent. *)
Definition true_divide (a b : Z) : float :=
  let e0 := Z.log2 a - Z.log2 b - 52 in
  let '(n0, d0) := scaled a b e0 in
  let e := if decide (n0 < 2 ^ 52 * d0) then e0 - 1 else e0 in
  let '(n, d) := scaled a b e in
  mk_float (round_half_even n d) e.

(** [int(x)] for a positive float: the fraction is dropped. *)
Definition int_of_float (x : float) : Z :=
  if decide (exponent x < 0) then mantissa x / 2 ^ (- exponent x)
  else mantissa x * 2 ^ exponent x.

(** [int(rem.total_seconds())] for a difference of [d] microseconds:
    [total_seconds] divides the microseconds by [10 ** 6] into a float,
    which [int] rounds towards zero; the sign goes through both. *)
Definition whole_seconds (d : Z) : Z :=
  if decide (d = 0) then 0
  else Z.sgn d * int_of_float (true_divide (Z.abs d) 1000000).

(** The [remaining] text of a line: ["{secs}s remaining"] or
    ["ending soon"]. *)
Inductive time_left :=
  | SecondsRemaining (secs : Z)
  | EndingSoon.

(** Lines 377-382, with [now] the reading of the clock for this row. *)
Definition time_left_at (end_time now : Z) : time_left :=
  let secs := whole_seconds (end_time - now) in
  if decide (0 < secs) then SecondsRemaining secs else EndingSoon.

(** What a line of the list interpolates: id, name, minimum price and the
    remaining time. *)
Record auction_line := mk_auction_line {
  line_id : Z;
  line_name : string;
  line_min_price : Z;
  line_left : time_left
}.

(** [ORDER BY start_iso DESC]: [a] may come before [b]. *)
Definition newest_first (a b : auction) : Prop := start_iso b ≤ start_iso a.

#[global] Instance newest_first_dec a b : Decision (newest_first a b).
Proof. unfold newest_first. apply _. Defined.

(** What [ORDER BY] promises of its result: the rows it is given, each
    once, in an order that agrees with the sort key.  Among rows that tie on
    the key SQLite leaves the order open, so the two views that sort take
    the ordering as an argument [order_by], of which this is all that is
    known. *)
Definition orders {A} (R : relation A) (order_by : list A → list A) : Prop :=
  ∀ l, order_by l ≡ₚ l ∧ StronglySorted R (order_by l).

(** [SELECT ... FROM auctions WHERE status = 'active' ORDER BY start_iso DESC
    LIMIT 20]. *)
Definition active_rows (order_by : list auction → list auction)
    (l : list auction) : list auction :=
  take 20%nat (order_by (filter (λ a, status a = active) l)).

(** [auctions_list_handler] (lines 364-385).  The clock is read once for
    every row: [now i] is its reading for the row at position [i].  An empty
    list stands for the reply that there are no active auctions. *)
Definition auctions_list_handler (order_by : list auction → list auction)
    (sweep : Z) (now : nat → Z) (st : db) : list auction_line * db :=
  let st1 := finalize_expired_auctions sweep st in
  (imap (λ i a, mk_auction_line (a_id a) (name (waifu a)) (min_price a)
                  (time_left_at (end_iso a) (now i)))
     (active_rows order_by (auctions st1)),
   st1).

(** [ORDER BY amount DESC]: [b] may come before [c]. *)
Definition highest_first (b c : bid) : Prop := amount c ≤ amount b.

#[global] Instance highest_first_dec b c : Decision (highest_first b c).
Proof. unfold highest_first. apply _. Defined.

(** [SELECT bidder_id, amount FROM auction_bids WHERE auction_id = ?
    ORDER BY amount DESC LIMIT 5]. *)
Definition top_bids (order_by : list bid → list bid) (aid : Z)
    (bids : list bid) : list bid :=
  take 5%nat (order_by (filter (λ b, auction_id b = aid) bids)).

(** [auction_status_handler] (lines 389-437), after the id is parsed: the
    sweep, then the row and the bidders and amounts of its top bids (the
    labels of the bidders come from the [users] table, which the model does
    not hold).  [None] stands for the reply that the auction is not found,
    an empty list of bids for the line that there are no bids yet. *)
Definition auction_status_handler (order_by : list bid → list bid)
    (sweep aid : Z) (st : db) : option (auction * list (Z * Z)) * db :=
  let st1 := finalize_expired_auctions sweep st in
  (match find_auction aid (auctions st1) with
   | None => None
   | Some a =>
       Some (a, (λ b, (bidder_id b, amount b))
                  <$> top_bids order_by aid (auction_bids st1))
   end,
   st1).

(** What [auction_info_cb] shows: the row, the winner and the final price
    when there is a winner, and whether the two recovery buttons are
    offered.  Formatting a NULL final price with [{final_price:,}] raises a
    TypeError. *)
Inductive info_reply :=
  | InfoNotFound
  | InfoTypeError
  | InfoShown (row : auction) (winner : option (Z * Z)) (recovery : bool).

(** [auction_info_cb] (lines 442-489). *)
Definition auction_info_cb (sweep aid : Z) (st : db) : info_reply * db :=
  let st1 := finalize_expired_auctions sweep st in
  (match find_auction aid (auctions st1) with
   | None => InfoNotFound
   | Some a =>
       match status a with
       | finished =>
           match truthy (winner_id a) with
           | Some w =>
               match final_price a with
               | Some p => InfoShown a (Some (w, p)) true
               | None => InfoTypeError
               end
           | None => InfoShown a None true
           end
       | active => InfoShown a None false
       end
   end,
   st1).

(** Every winner has bid: an auction with a winner has a bid by that
    bidder whose amount is the final price. *)
Definition winners_bid (st : db) : Prop :=
  ∀ a w, a ∈ auctions st → winner_id a = Some w →
         ∃ b, b ∈ auction_bids st ∧ auction_id b = a_id a ∧
              bidder_id b = w ∧ final_price a = Some (amount b).

(** * Properties *)

(** ** Sums over finite maps and lists *)

Lemma map_sum_empty {K A} `{Countable K} (f : K → A → Z) :
  map_sum f (∅ : gmap K A) = 0.
Proof. unfold map_sum. by rewrite map_fold_empty. Qed.

Lemma map_sum_insert_fresh {K A} `{Countable K} (f : K → A → Z)
    (m : gmap K A) k v :
  m !! k = None → map_sum f (<[k := v]> m) = f k v + map_sum f m.
Proof.
  intros Hk. unfold map_sum.
  rewrite map_fold_insert_L; [done | intros; lia | done].
Qed.

Lemma map_sum_delete {K A} `{Countable K} (f : K → A → Z) (m : gmap K A) k v :
  m !! k = Some v → map_sum f (delete k m) = map_sum f m - f k v.
Proof.
  intros Hk. unfold map_sum.
  rewrite (map_fold_delete_L _ _ k v m); [lia | intros; lia | done].
Qed.

Lemma map_sum_insert_over {K A} `{Countable K} (f : K → A → Z)
    (m : gmap K A) k v0 v :
  m !! k = Some v0 → map_sum f (<[k := v]> m) = map_sum f m - f k v0 + f k v.
Proof.
  intros Hk. rewrite <- insert_delete_eq.
  rewrite map_sum_insert_fresh by apply lookup_delete_eq.
  rewrite (map_sum_delete _ _ _ _ Hk). lia.
Qed.

Lemma sum_list_with_Z_app {A} (f : A → Z) (l1 l2 : list A) :
  sum_list_with_Z f (l1 ++ l2) = sum_list_with_Z f l1 + sum_list_with_Z f l2.
Proof. induction l1 as [|a l1 IH]; simpl; [done | rewrite IH; lia]. Qed.

Lemma sum_list_with_Z_ext {A} (f g : A → Z) (l : list A) :
  (∀ a, a ∈ l → f a = g a) → sum_list_with_Z f l = sum_list_with_Z g l.
Proof.
  induction l as [|a l IH]; simpl; intros Hfg; [done |].
  rewrite (Hfg a) by apply list_elem_of_here.
  rewrite IH; [done |]. intros b Hb. apply Hfg. by apply list_elem_of_further.
Qed.

(** ** Rows of [auctions] *)

Lemma find_auction_Some aid l a :
  find_auction aid l = Some a → a ∈ l ∧ a_id a = aid.
Proof.
  induction l as [|x l IH]; simpl; [done |].
  case_decide as Hx.
  - intros [= ->]. split; [apply list_elem_of_here | done].
  - intros Hf. destruct (IH Hf). split; [by apply list_elem_of_further | done].
Qed.

Lemma find_auction_None aid l :
  find_auction aid l = None ↔ aid ∉ a_id <$> l.
Proof.
  induction l as [|x l IH]; simpl.
  - split; [intros _; apply not_elem_of_nil | done].
  - rewrite not_elem_of_cons. case_decide as Hx.
    + split; [done | intros [Hne _]; congruence].
    + rewrite IH. split; [intros ?; split; [congruence | done] | by intros [_ ?]].
Qed.

Lemma find_auction_elem l a :
  NoDup (a_id <$> l) → a ∈ l → find_auction (a_id a) l = Some a.
Proof.
  induction l as [|x l IH]; simpl; intros Hnd Ha.
  - by apply elem_of_nil in Ha.
  - apply NoDup_cons in Hnd as [Hx Hnd].
    apply elem_of_cons in Ha as [-> | Ha]; [by rewrite decide_True |].
    rewrite decide_False; [by apply IH |].
    intros Heq. apply Hx. rewrite Heq. by apply list_elem_of_fmap_2.
Qed.

Lemma update_auction_ids aid f l :
  (∀ a, a_id (f a) = a_id a) →
  a_id <$> update_auction aid f l = a_id <$> l.
Proof.
  intros Hf. unfold update_auction. rewrite <- list_fmap_compose.
  apply list_fmap_ext. intros _ a _. simpl. by case_decide.
Qed.

Lemma update_auction_absent aid f l :
  find_auction aid l = None → update_auction aid f l = l.
Proof.
  induction l as [|x l IH]; simpl; [done |].
  case_decide; [done |]. intros Hf. fold (update_auction aid f l).
  by rewrite IH.
Qed.

Lemma find_update_auction aid aid' f l :
  (∀ a, a_id (f a) = a_id a) →
  find_auction aid' (update_auction aid f l) =
    (if decide (aid' = aid) then f else λ a, a) <$> find_auction aid' l.
Proof.
  intros Hf. induction l as [|x l IH]; simpl; [done |].
  destruct (decide (a_id x = aid)) as [Hx | Hx].
  - rewrite Hf. destruct (decide (a_id x = aid')) as [Hx' | Hx'].
    + simpl. rewrite decide_True by congruence. done.
    + apply IH.
  - destruct (decide (a_id x = aid')) as [Hx' | Hx'].
    + simpl. rewrite decide_False by congruence. done.
    + apply IH.
Qed.

(** Changing the one row with a given id changes a sum over the table by
    that row's share. *)
Lemma sum_update_auction (g g' : auction → Z) aid f l a :
  NoDup (a_id <$> l) →
  find_auction aid l = Some a →
  (∀ x, x ∈ l → a_id x ≠ aid → g' x = g x) →
  sum_list_with_Z g' (update_auction aid f l) =
    sum_list_with_Z g l - g a + g' (f a).
Proof.
  induction l as [|x l IH]; simpl; intros Hnd Hf Hg; [done |].
  apply NoDup_cons in Hnd as [Hx Hnd].
  destruct (decide (a_id x = aid)) as [Hxa | Hxa].
  - injection Hf as ->.
    assert (find_auction aid l = None) as Hnone
      by (apply find_auction_None; by rewrite <- Hxa).
    fold (update_auction aid f l). rewrite update_auction_absent by done.
    rewrite (sum_list_with_Z_ext g' g l); [lia |].
    intros b Hb. apply Hg; [by apply list_elem_of_further |].
    intros Hba. apply Hx. rewrite Hxa, <- Hba. by apply list_elem_of_fmap_2.
  - fold (update_auction aid f l). rewrite IH; [| done | done |].
    + rewrite (Hg x); [lia | apply list_elem_of_here | done].
    + intros b Hb. apply Hg. by apply list_elem_of_further.
Qed.

(** ** The highest bid *)

Lemma first_ranked_snoc l b :
  first_ranked (l ++ [b]) =
    match first_ranked l with
    | None => Some b
    | Some c => if outranks b c then Some b else Some c
    end.
Proof. unfold first_ranked. by rewrite foldl_app. Qed.

Lemma first_ranked_max l c :
  first_ranked l = Some c → c ∈ l ∧ ∀ x, x ∈ l → amount x ≤ amount c.
Proof.
  revert c. induction l as [|b l IH] using rev_ind; [done |].
  intros c. rewrite first_ranked_snoc.
  destruct (first_ranked l) as [c0|] eqn:Hl.
  - destruct (IH c0 eq_refl) as [Hin Hmax].
    destruct (outranks b c0) eqn:Hout; intros [= <-].
    + split; [apply elem_of_app; right; apply list_elem_of_here |].
      unfold outranks in Hout.
      intros x [Hx | Hx%list_elem_of_singleton]%elem_of_app; [| subst; lia].
      specialize (Hmax x Hx). lia.
    + split; [apply elem_of_app; by left |].
      unfold outranks in Hout.
      intros x [Hx | Hx%list_elem_of_singleton]%elem_of_app; [by apply Hmax |].
      subst. lia.
  - intros [= <-]. split; [apply elem_of_app; right; apply list_elem_of_here |].
    destruct l as [|y l] using rev_ind.
    + intros x Hx%list_elem_of_singleton. by subst.
    + rewrite first_ranked_snoc in Hl. by repeat case_match.
Qed.

Lemma first_ranked_None l : first_ranked l = None → l = [].
Proof.
  destruct l as [|y l] using rev_ind; [done |].
  rewrite first_ranked_snoc. by repeat case_match.
Qed.


(** A bid above the highest one becomes the highest. *)
Lemma highest_bid_raise aid b bids :
  auction_id b = aid →
  (∀ c, highest_bid aid bids = Some c → amount c < amount b) →
  highest_bid aid (bids ++ [b]) = Some b.
Proof.
  intros Hb Hgt. unfold highest_bid in *.
  rewrite filter_app, filter_cons_True by done. rewrite filter_nil.
  rewrite first_ranked_snoc.
  destruct (first_ranked _) as [c|]; [| done].
  specialize (Hgt c eq_refl). unfold outranks.
  replace (amount c <? amount b) with true by (symmetry; apply Z.ltb_lt; lia).
  done.
Qed.

(** ** Wallets and inventories *)


Lemma get_crystals_add_crystals u v x st :
  get_crystals v (add_crystals u x st) =
    get_crystals v st + (if decide (v = u) then x else 0).
Proof.
  unfold get_crystals at 1. unfold add_crystals. simpl.
  case_decide as Hv.
  - subst. by rewrite lookup_insert_eq.
  - rewrite lookup_insert_ne by done. unfold get_crystals. lia.
Qed.

Lemma held_insert w st k r :
  held w (set_user_waifus (<[k := r]> (user_waifus st)) st) =
    held w st
    + (if decide (k.2 = w)
       then uw_amount r - default 0 (uw_amount <$> user_waifus st !! k)
       else 0).
Proof.
  unfold held. simpl.
  destruct (user_waifus st !! k) as [v|] eqn:Hk; simpl.
  - rewrite (map_sum_insert_over _ _ _ v) by done. case_decide; lia.
  - rewrite map_sum_insert_fresh by done. case_decide; lia.
Qed.

Lemma held_delete w st k r :
  user_waifus st !! k = Some r →
  held w (set_user_waifus (delete k (user_waifus st)) st) =
    held w st - (if decide (k.2 = w) then uw_amount r else 0).
Proof.
  intros Hk. unfold held. simpl. by rewrite (map_sum_delete _ _ _ r).
Qed.

Lemma held_add_to_inventory w u wid st :
  held w (add_to_inventory u wid st) =
    held w st + (if decide (wid = w) then 1 else 0).
Proof.
  unfold add_to_inventory.
  destruct (user_waifus st !! (u, wid)) as [r|] eqn:Hr;
    rewrite held_insert, Hr; simpl; case_decide; lia.
Qed.

Lemma held_reserve_one w u wid r st :
  user_waifus st !! (u, wid) = Some r → 0 < uw_amount r →
  held w (reserve_one u wid r st) =
    held w st - (if decide (wid = w) then 1 else 0).
Proof.
  intros Hr Hpos. unfold reserve_one. case_decide as Hgt.
  - rewrite held_insert, Hr. simpl. case_decide; lia.
  - rewrite (held_delete _ _ _ r) by done. simpl. case_decide; lia.
Qed.

(** ** The invariant of the tables *)

(** ** What each setter leaves alone *)




Lemma held_set_auctions w l st : held w (set_auctions l st) = held w st.
Proof. done. Qed.

Lemma held_set_auction_bids w l st :
  held w (set_auction_bids l st) = held w st.
Proof. done. Qed.

Lemma held_add_crystals w u x st : held w (add_crystals u x st) = held w st.
Proof. done. Qed.

Lemma auction_bids_add_to_inventory u w st :
  auction_bids (add_to_inventory u w st) = auction_bids st.
Proof. unfold add_to_inventory. by case_match. Qed.

(** ** One settlement *)

Lemma mark_sold_closes winner price : closes (mark_sold winner price).
Proof. by intros a. Qed.

Lemma mark_unsold_closes : closes mark_unsold.
Proof. by intros a. Qed.

Lemma auctions_add_to_inventory u w st :
  auctions (add_to_inventory u w st) = auctions st.
Proof. unfold add_to_inventory. by case_match. Qed.

Lemma auctions_settle_grant aid w u st :
  auctions (settle_grant aid w u st) = auctions st.
Proof. unfold settle_grant. by repeat case_match. Qed.

Lemma auctions_settle_credit aid u x st :
  auctions (settle_credit aid u x st) = auctions st.
Proof. unfold settle_credit. by case_match. Qed.

(** Settling touches the rows of one id, closes them, and inserts no bid and
    no card. *)
Lemma finalize_one_tables st aid :
  auction_bids (finalize_one st aid) = auction_bids st ∧
  waifu_cards (finalize_one st aid) = waifu_cards st ∧
  ∃ f, closes f ∧
       auctions (finalize_one st aid) = update_auction aid f (auctions st).
Proof.
  unfold finalize_one.
  destruct (find_auction aid (auctions st)) as [a|] eqn:Hf.
  - destruct (highest_bid aid (auction_bids st)) as [b|].
    + split_and!.
      * unfold settle_mark, settle_credit, settle_grant. simpl.
        by repeat case_match.
      * unfold settle_mark, settle_credit, settle_grant. simpl.
        by repeat case_match.
      * exists (mark_sold (bidder_id b) (amount b)).
        split; [apply mark_sold_closes |].
        unfold settle_mark. simpl.
        by rewrite auctions_settle_credit, auctions_settle_grant.
    + split_and!.
      * unfold add_to_inventory. simpl. by case_match.
      * unfold add_to_inventory. simpl. by case_match.
      * exists mark_unsold. split; [apply mark_unsold_closes | done].
  - split_and!; [done | done |].
    exists mark_unsold. split; [apply mark_unsold_closes |].
    simpl. by rewrite !update_auction_absent.
Qed.

(** On a row that is not yet flagged, settlement returns the card to the
    seller when there is no bid, and otherwise grants it to the highest
    bidder, credits the seller and closes the auction. *)
Lemma finalize_one_unflagged st aid a :
  find_auction aid (auctions st) = Some a → transferred a = false →
  finalize_one st aid =
    match highest_bid aid (auction_bids st) with
    | None =>
        set_auctions (update_auction aid mark_unsold (auctions st))
          (add_to_inventory (seller_id a) (waifu_id a) st)
    | Some b =>
        set_auctions
          (update_auction aid (mark_sold (bidder_id b) (amount b)) (auctions st))
          (add_crystals (seller_id a) (amount b)
             (add_to_inventory (bidder_id b) (waifu_id a) st))
    end.
Proof.
  intros Hf Hflag. unfold finalize_one. rewrite Hf.
  destruct (highest_bid aid (auction_bids st)) as [b|]; [| done].
  assert (settle_grant aid (waifu_id a) (bidder_id b) st =
          add_to_inventory (bidder_id b) (waifu_id a) st) as ->.
  { unfold settle_grant, add_to_inventory, transferred_flag.
    rewrite Hf, Hflag. by case_match. }
  unfold settle_credit, transferred_flag.
  rewrite auctions_add_to_inventory, Hf, Hflag.
  unfold settle_mark. simpl. by rewrite auctions_add_to_inventory.
Qed.


Lemma in_flight_update w st st' aid f a :
  NoDup (a_id <$> auctions st) →
  find_auction aid (auctions st) = Some a →
  in_flight w (set_auctions (update_auction aid f (auctions st)) st') =
    in_flight w st - reserved w a + reserved w (f a).
Proof.
  intros Hnd Hf. unfold in_flight. simpl. by apply sum_update_auction.
Qed.

Lemma wf_flag_active st a :
  wf st → a ∈ auctions st → status a = active → transferred a = false.
Proof.
  intros Hwf Ha Hs. rewrite (wf_flag _ Hwf a Ha), Hs. done.
Qed.


Lemma finalize_one_items w st aid a :
  wf st → find_auction aid (auctions st) = Some a → status a = active →
  items_total w (finalize_one st aid) = items_total w st.
Proof.
  intros Hwf Hf Hs. destruct (find_auction_Some _ _ _ Hf) as [Ha Hid].
  rewrite (finalize_one_unflagged _ _ a) by eauto using wf_flag_active.
  unfold items_total.
  destruct (highest_bid aid (auction_bids st)) as [b|] eqn:Htop.
  - rewrite (in_flight_update w st _ aid _ a); [| apply Hwf | done].
    rewrite held_set_auctions, held_add_crystals, held_add_to_inventory.
    unfold reserved. rewrite Hs. simpl.
    repeat case_decide; try lia; naive_solver.
  - rewrite (in_flight_update w st _ aid _ a); [| apply Hwf | done].
    rewrite held_set_auctions, held_add_to_inventory.
    unfold reserved. rewrite Hs. simpl.
    repeat case_decide; try lia; naive_solver.
Qed.

Lemma wf_update_closes st st' aid f :
  wf st → closes f →
  auction_bids st' = auction_bids st →
  auctions st' = update_auction aid f (auctions st) →
  wf st'.
Proof.
  intros [Hids Hflag Hba Hbidder] Hf Hb Ha.
  assert (a_id <$> auctions st' = a_id <$> auctions st) as Hsame.
  { rewrite Ha. apply update_auction_ids. intros a. apply Hf. }
  split.
  - by rewrite Hsame.
  - intros a'. rewrite Ha. unfold update_auction.
    intros (a & -> & Hin)%list_elem_of_fmap. case_decide; [| by apply Hflag].
    destruct (Hf a) as (_ & _ & _ & _ & _ & -> & ->). done.
  - intros b. rewrite Hb, Hsame. apply Hba.
  - intros b. rewrite Hb. apply Hbidder.
Qed.

Lemma finalize_one_wf st aid : wf st → wf (finalize_one st aid).
Proof.
  intros Hwf. destruct (finalize_one_tables st aid) as (Hb & _ & f & Hf & Ha).
  by eapply wf_update_closes.
Qed.

(** ** The sweep *)

Lemma pending_expired_ids now st :
  wf st → pending st (expired_ids now (auctions st)).
Proof.
  intros Hwf. unfold expired_ids. split.
  - apply (sublist_NoDup _ (a_id <$> auctions st)); [apply Hwf |].
    apply fmap_sublist, sublist_filter.
  - intros x (a & -> & [[Hs _] Ha]%list_elem_of_filter)%list_elem_of_fmap.
    exists a. split; [| done]. apply find_auction_elem; [apply Hwf | done].
Qed.

Lemma pending_step st aid ids :
  pending st (aid :: ids) → pending (finalize_one st aid) ids.
Proof.
  intros [[Hnew Hnd]%NoDup_cons Hrows]. split; [done |].
  intros x Hx. destruct (Hrows x) as (a & Ha & Hs); [by apply list_elem_of_further |].
  destruct (finalize_one_tables st aid) as (_ & _ & f & Hf & ->).
  rewrite find_update_auction by (intros ?; apply Hf).
  rewrite decide_False by (intros ->; done). rewrite Ha. by exists a.
Qed.

(** A property that every settlement of an active row of well-formed tables
    keeps is kept by a sweep. *)
Lemma sweep_ind (P : db → Prop) :
  (∀ st aid a, wf st → find_auction aid (auctions st) = Some a →
               status a = active → P st → P (finalize_one st aid)) →
  ∀ ids st, wf st → pending st ids → P st → P (foldl finalize_one st ids).
Proof.
  intros Hstep ids. induction ids as [|aid ids IH]; intros st Hwf Hp HP; [done |].
  simpl. apply IH.
  - by apply finalize_one_wf.
  - by apply pending_step.
  - destruct Hp as [_ Hrows].
    destruct (Hrows aid) as (a & Ha & Hs); [apply list_elem_of_here |].
    by eapply Hstep.
Qed.

Lemma finalize_wf now st : wf st → wf (finalize_expired_auctions now st).
Proof.
  intros Hwf. unfold finalize_expired_auctions.
  generalize (expired_ids now (auctions st)). intros ids. revert st Hwf.
  induction ids as [|aid ids IH]; intros st Hwf; [done |].
  simpl. by apply IH, finalize_one_wf.
Qed.


Lemma finalize_items w now st :
  wf st → items_total w (finalize_expired_auctions now st) = items_total w st.
Proof.
  intros Hwf. unfold finalize_expired_auctions.
  apply (sweep_ind (λ s, items_total w s = items_total w st));
    [| done | by apply pending_expired_ids | done].
  intros s aid a Hs Hf Hact <-. by eapply finalize_one_items.
Qed.

(** A sweep closes rows and leaves the other tables alone. *)
Lemma foldl_finalize_one_tables ids st :
  auction_bids (foldl finalize_one st ids) = auction_bids st ∧
  waifu_cards (foldl finalize_one st ids) = waifu_cards st.
Proof.
  revert st. induction ids as [|aid ids IH]; intros st; [done |].
  simpl. destruct (IH (finalize_one st aid)) as [-> ->].
  destruct (finalize_one_tables st aid) as (-> & -> & _). done.
Qed.

Lemma finalize_auction_bids now st :
  auction_bids (finalize_expired_auctions now st) = auction_bids st.
Proof. apply foldl_finalize_one_tables. Qed.

Lemma finalize_waifu_cards now st :
  waifu_cards (finalize_expired_auctions now st) = waifu_cards st.
Proof. apply foldl_finalize_one_tables. Qed.

(** ** Creating an auction *)

Lemma rollback_statement_rejected : statement_parses rollback_statement = false.
Proof. reflexivity. Qed.

Lemma max_id_ge l a : a ∈ l → a_id a ≤ max_id l.
Proof.
  induction l as [|x l IH]; simpl; [by intros ?%elem_of_nil |].
  intros [-> | Ha]%elem_of_cons; [lia |]. specialize (IH Ha). lia.
Qed.

Lemma next_id_fresh l : next_id l ∉ a_id <$> l.
Proof.
  intros (a & Ha & Hin)%list_elem_of_fmap.
  apply max_id_ge in Hin. unfold next_id in Ha. lia.
Qed.

Lemma find_auction_snoc_fresh aid l a :
  aid ∉ a_id <$> l → a_id a = aid → find_auction aid (l ++ [a]) = Some a.
Proof.
  intros Hfresh Ha. induction l as [|x l IH]; simpl.
  - by rewrite decide_True.
  - apply not_elem_of_cons in Hfresh as [Hx Hfresh].
    rewrite decide_False by done. by apply IH.
Qed.

Lemma create_auction_creation start u wid p st :
  creation start u wid p st (create_auction start u wid p st).
Proof.
  unfold create_auction.
  destruct (user_waifus st !! (u, wid)) as [n|] eqn:Hn.
  - case_decide as Hpos.
    + apply creation_not_owned. intros m Hm. rewrite Hn in Hm.
      by injection Hm as <-.
    + assert (waifu_cards (reserve_one u wid n st) = waifu_cards st) as Hc
        by (unfold reserve_one; by case_decide).
      assert (auctions (reserve_one u wid n st) = auctions st) as Ha
        by (unfold reserve_one; by case_decide).
      rewrite Hc, Ha. destruct (waifu_cards st !! wid) as [w|] eqn:Hw.
      * case_decide as Hp.
        -- apply (creation_started _ _ _ _ _ n w); [done | lia | done | done].
        -- apply (creation_overflows _ _ _ _ _ n w); [done | lia | done | done].
      * rewrite rollback_statement_rejected.
        apply (creation_raises _ _ _ _ _ n); [done | lia | done].
  - apply creation_not_owned. intros m Hm. by rewrite Hn in Hm.
Qed.

Lemma reserve_one_tables u wid n st :
  crystals (reserve_one u wid n st) = crystals st ∧
  waifu_cards (reserve_one u wid n st) = waifu_cards st ∧
  auctions (reserve_one u wid n st) = auctions st ∧
  auction_bids (reserve_one u wid n st) = auction_bids st.
Proof. unfold reserve_one. by case_decide. Qed.

Lemma wf_same_tables st st' :
  auctions st' = auctions st → auction_bids st' = auction_bids st →
  wf st → wf st'.
Proof. intros Ha Hb [? ? ? ?]. split; rewrite ?Ha, ?Hb; done. Qed.

Lemma highest_bid_no_bids aid bids :
  (∀ b, b ∈ bids → auction_id b ≠ aid) → highest_bid aid bids = None.
Proof.
  intros Hnone. unfold highest_bid.
  replace (filter (λ b, auction_id b = aid) bids) with (@nil bid); [done |].
  symmetry. apply elem_of_nil_inv.
  intros b [Hb Hin]%list_elem_of_filter. by apply (Hnone b).
Qed.



Lemma create_auction_wf start u wid p st :
  wf st → wf (create_auction start u wid p st).2.
Proof.
  intros Hwf. destruct (create_auction_creation start u wid p st)
    as [Hno | n Hn Hpos Hw | n w Hn Hpos Hw Hp | n w Hn Hpos Hw Hp]; simpl;
    [done | | |].
  - destruct (reserve_one_tables u wid n st) as (_ & _ & Ha & Hb).
    by apply (wf_same_tables st).
  - destruct (reserve_one_tables u wid n st) as (_ & _ & Ha & Hb).
    by apply (wf_same_tables st).
  - destruct (reserve_one_tables u wid n st) as (_ & _ & Ha & Hb).
    destruct Hwf as [Hids Hflag Hba Hbidder]. split; simpl; rewrite ?Hb.
    + rewrite fmap_app. apply NoDup_app. split_and!; [done | | apply NoDup_singleton].
      simpl. intros x Hx ->%list_elem_of_singleton. by apply (next_id_fresh (auctions st)).
    + intros a [Ha' | ->%list_elem_of_singleton]%elem_of_app; [by apply Hflag | done].
    + intros b Hin. rewrite fmap_app. apply elem_of_app. left. by apply Hba.
    + done.
Qed.


(** Creation conserves the copies of every card when it answers; when it
    raises, after the reservation, the seller's copy is lost. *)
Lemma create_auction_items w start u wid p st :
  items_total w (create_auction start u wid p st).2 =
    items_total w st
    - (if decide (raised (create_auction start u wid p st).1 ∧ wid = w)
       then 1 else 0).
Proof.
  unfold raised.
  destruct (create_auction_creation start u wid p st)
    as [Hno | n Hn Hpos Hw | n w' Hn Hpos Hw Hp | n w' Hn Hpos Hw Hp]; simpl.
  - repeat case_decide; try lia; naive_solver.
  - unfold items_total. rewrite held_reserve_one by done.
    unfold in_flight.
    destruct (reserve_one_tables u wid n st) as (_ & _ & -> & _).
    repeat case_decide; try lia; naive_solver.
  - unfold items_total. rewrite held_reserve_one by done.
    unfold in_flight.
    destruct (reserve_one_tables u wid n st) as (_ & _ & -> & _).
    repeat case_decide; try lia; naive_solver.
  - unfold items_total. rewrite held_set_auctions, held_reserve_one by done.
    unfold in_flight. simpl. rewrite sum_list_with_Z_app. simpl.
    unfold reserved at 2. simpl.
    repeat case_decide; try lia; naive_solver.
Qed.

(** ** Placing a bid *)

Lemma place_bid_bidding c u aid amt st :
  bidding c u aid amt st (place_bid c u aid amt st).
Proof.
  unfold place_bid.
  destruct (find_auction aid (auctions st)) as [a|] eqn:Hf;
    [| by apply bidding_rejected].
  case_decide as Hs; [by apply bidding_rejected |].
  case_decide as He; [by apply bidding_rejected |].
  case_decide as Hfunds; [by apply bidding_rejected |].
  assert (status a = active) by (by destruct (status a)).
  destruct (highest_bid aid (auction_bids st)) as [top|] eqn:Htop.
  - case_decide as Hlow; [by apply bidding_rejected |].
    rewrite <- Htop.
    apply (bidding_placed _ _ _ _ _ a); rewrite ?Htop; try done; try lia;
      simpl; lia.
  - case_decide as Hlow; [by apply bidding_rejected |].
    rewrite <- Htop.
    apply (bidding_placed _ _ _ _ _ a); rewrite ?Htop; try done; try lia;
      simpl; lia.
Qed.

Lemma set_end_iso_keeps e a :
  a_id (set_end_iso e a) = a_id a ∧ status (set_end_iso e a) = status a ∧
  transferred (set_end_iso e a) = transferred a ∧
  waifu_id (set_end_iso e a) = waifu_id a.
Proof. done. Qed.

Lemma move_funds_tables u amt current st :
  user_waifus (move_funds u amt current st) = user_waifus st ∧
  waifu_cards (move_funds u amt current st) = waifu_cards st ∧
  auctions (move_funds u amt current st) = auctions st ∧
  auction_bids (move_funds u amt current st) = auction_bids st.
Proof. unfold move_funds. by repeat case_match. Qed.


Lemma accept_bid_wf c u aid amt st a :
  wf st → u ≠ 0 → find_auction aid (auctions st) = Some a →
  wf (accept_bid c u aid amt (highest_bid aid (auction_bids st)) st).
Proof.
  intros [Hids Hflag Hba Hbidder] Hu Hf. unfold accept_bid.
  destruct (move_funds_tables u amt (highest_bid aid (auction_bids st)) st)
    as (_ & _ & Ha & Hb).
  assert (∀ l, a_id <$> update_auction aid
            (set_end_iso (at_extend c + timedelta BID_TIMEOUT_SECONDS)) l
          = a_id <$> l) as Hsame by (intros l; by apply update_auction_ids).
  split; simpl; rewrite ?Ha, ?Hb, ?Hsame.
  - done.
  - intros x (x0 & -> & Hin)%list_elem_of_fmap.
    case_decide; [| by apply Hflag]. simpl. by apply Hflag.
  - intros b [Hin | ->%list_elem_of_singleton]%elem_of_app; [by apply Hba |].
    simpl. destruct (find_auction_Some _ _ _ Hf) as [Hin <-].
    by apply list_elem_of_fmap_2.
  - intros b [Hin | ->%list_elem_of_singleton]%elem_of_app; [by apply Hbidder | done].
Qed.


Lemma accept_bid_items w c u aid amt current st a :
  wf st → find_auction aid (auctions st) = Some a →
  items_total w (accept_bid c u aid amt current st) = items_total w st.
Proof.
  intros Hwf Hf. unfold accept_bid, items_total.
  destruct (move_funds_tables u amt current st) as (Hinv & _ & Ha & _).
  f_equal.
  - unfold held. simpl. by rewrite Hinv.
  - unfold in_flight. simpl. rewrite Ha.
    rewrite (sum_update_auction (reserved w) _ aid _ _ a); [| apply Hwf | done | done].
    unfold reserved. simpl. lia.
Qed.

Lemma place_bid_wf c u aid amt st :
  wf st → u ≠ 0 → wf (place_bid c u aid amt st).2.
Proof.
  intros Hwf Hu. destruct (place_bid_bidding c u aid amt st); simpl; [done |].
  by eapply accept_bid_wf.
Qed.


Lemma place_bid_items w c u aid amt st :
  wf st → items_total w (place_bid c u aid amt st).2 = items_total w st.
Proof.
  intros Hwf. destruct (place_bid_bidding c u aid amt st); simpl; [done |].
  by eapply accept_bid_items.
Qed.

(** [bid_handler] is [place_bid] between sweeps. *)
Lemma bid_handler_state c u aid amt st :
  let st1 := finalize_expired_auctions (at_sweep c) st in
  (bid_handler c u aid amt st).2 = (place_bid c u aid amt st1).2 ∨
  (bid_handler c u aid amt st).2 =
    finalize_expired_auctions (at_resweep c) (place_bid c u aid amt st1).2.
Proof. intros st1. unfold bid_handler. fold st1. case_match; auto. Qed.

(** ** The manual callbacks on well-formed tables *)

(** A finished auction is already flagged, so neither callback finds
    anything left to do. *)
Lemma auction_claim_cb_wf_noop aid st :
  wf st → (auction_claim_cb aid st).2 = st.
Proof.
  intros Hwf. unfold auction_claim_cb.
  destruct (find_auction aid (auctions st)) as [row|] eqn:Hf; [| done].
  case_decide as Hs; [done |]. case_match; [| done].
  destruct (find_auction_Some _ _ _ Hf) as [Hin _].
  rewrite (wf_flag _ Hwf row Hin).
  rewrite bool_decide_true; [done | by destruct (status row)].
Qed.

Lemma auction_credit_cb_wf_noop aid st :
  wf st → (auction_credit_cb aid st).2 = st.
Proof.
  intros Hwf. unfold auction_credit_cb.
  destruct (find_auction aid (auctions st)) as [row|] eqn:Hf; [| done].
  case_decide as Hs; [done |].
  destruct (find_auction_Some _ _ _ Hf) as [Hin _].
  rewrite (wf_flag _ Hwf row Hin).
  rewrite bool_decide_true; [done | by destruct (status row)].
Qed.

(** ** Runs *)

Lemma step_wf st o : wf st → valid_op o → wf (step st o).
Proof.
  intros Hwf Ho. destruct o as [sweep start u w p | c u a x | now | a | a]; simpl.
  - by apply create_auction_wf, finalize_wf.
  - destruct (bid_handler_state c u a x st) as [-> | ->].
    + apply place_bid_wf; [by apply finalize_wf | done].
    + apply finalize_wf, place_bid_wf; [by apply finalize_wf | done].
  - by apply finalize_wf.
  - by rewrite auction_claim_cb_wf_noop.
  - by rewrite auction_credit_cb_wf_noop.
Qed.


Lemma run_wf ops st : wf st → Forall valid_op ops → wf (run ops st).
Proof.
  revert st. induction ops as [|o ops IH]; intros st Hwf Hops; [done |].
  apply Forall_cons in Hops as [Ho Hops]. simpl. apply IH; [| done].
  by apply step_wf.
Qed.

(** ** Conservation of funds *)

(** Tables without auctions and bids, as the module creates them, are
    well-formed. *)
Lemma wf_fresh st : auctions st = [] → auction_bids st = [] → wf st.
Proof.
  intros Ha Hb. split; rewrite ?Ha, ?Hb.
  - apply NoDup_nil_2.
  - intros a Hin. by apply elem_of_nil in Hin.
  - intros b Hin. by apply elem_of_nil in Hin.
  - intros b Hin. by apply elem_of_nil in Hin.
Qed.

Lemma demo_db_wf : wf demo_db.
Proof.
  split; simpl.
  - apply NoDup_nil_2.
  - intros a Ha. by apply elem_of_nil in Ha.
  - intros b Hb. by apply elem_of_nil in Hb.
  - intros b Hb. by apply elem_of_nil in Hb.
Defined.




(** ** Conservation of items *)

Lemma create_auction_raises start u wid p st :
  raised (create_auction start u wid p st).1 →
  waifu_cards st !! wid = None ∨ ¬ sqlite_integer p.
Proof.
  unfold raised.
  destruct (create_auction_creation start u wid p st); simpl;
    intros [? | ?]; try done; (by left) || (by right).
Qed.

Lemma create_auction_waifu_cards start u wid p st :
  waifu_cards (create_auction start u wid p st).2 = waifu_cards st.
Proof.
  destruct (create_auction_creation start u wid p st); simpl; [done | | |];
    by destruct (reserve_one_tables u wid r st) as (_ & -> & _).
Qed.

Lemma place_bid_waifu_cards c u aid amt st :
  waifu_cards (place_bid c u aid amt st).2 = waifu_cards st.
Proof.
  destruct (place_bid_bidding c u aid amt st); simpl; [done |].
  by destruct (move_funds_tables u amt (highest_bid aid (auction_bids st)) st)
    as (_ & -> & _).
Qed.

Lemma step_waifu_cards st o : waifu_cards (step st o) = waifu_cards st.
Proof.
  destruct o as [sweep start u w p | c u a x | now | a | a]; simpl.
  - unfold auction_handler.
    by rewrite create_auction_waifu_cards, finalize_waifu_cards.
  - destruct (bid_handler_state c u a x st) as [-> | ->];
      by rewrite ?finalize_waifu_cards, place_bid_waifu_cards,
           finalize_waifu_cards.
  - apply finalize_waifu_cards.
  - unfold auction_claim_cb, add_to_inventory. by repeat case_match.
  - unfold auction_credit_cb. by repeat case_match.
Qed.

Lemma step_items w st o :
  wf st → valid_op o → card_listed (waifu_cards st) o → storable_op o →
  items_total w (step st o) = items_total w st.
Proof.
  intros Hwf Ho Hc Hp.
  destruct o as [sweep start u wid p | c u a x | now | a | a]; simpl.
  - unfold auction_handler. rewrite create_auction_items.
    rewrite finalize_items by done. rewrite decide_False; [lia |].
    intros [[Hraise | Hraise]%create_auction_raises _]; [| done].
    rewrite finalize_waifu_cards in Hraise. simpl in Hc.
    rewrite Hraise in Hc. by destruct Hc.
  - destruct (bid_handler_state c u a x st) as [-> | ->].
    + rewrite place_bid_items by (by apply finalize_wf).
      by apply finalize_items.
    + rewrite finalize_items
        by (apply place_bid_wf; [by apply finalize_wf | done]).
      rewrite place_bid_items by (by apply finalize_wf).
      by apply finalize_items.
  - by apply finalize_items.
  - by rewrite auction_claim_cb_wf_noop.
  - by rewrite auction_credit_cb_wf_noop.
Qed.

(** Away from the two places where the handler raises after the
    reservation, the copies of every card are conserved: along every run
    that only auctions cards listed in [waifu_cards], at minimum prices that
    fit an [INTEGER] column, the copies that users hold plus the copies that
    active auctions hold stay the same. *)
Lemma items_conserved_listed (w : Z) (ops : list op) (st : db) :
  wf st → Forall valid_op ops → Forall (card_listed (waifu_cards st)) ops →
  Forall storable_op ops →
  items_total w (run ops st) = items_total w st.
Proof.
  revert st.
  induction ops as [|o ops IH]; intros st Hwf Hops Hcards Hprices; [done |].
  apply Forall_cons in Hops as [Ho Hops].
  apply Forall_cons in Hcards as [Hc Hcards].
  apply Forall_cons in Hprices as [Hp Hprices]. simpl.
  rewrite IH; [by apply step_items | by apply step_wf | done | | done].
  by rewrite step_waifu_cards.
Qed.

(** C3. Conservation of items, at the input on which the code breaks it: a
    seller who holds [n > 0] copies of a card that has no row in
    [waifu_cards] starts an auction.  The copy is taken from the inventory,
    the rollback statement is refused by SQLite, no auction is created, and
    the copies of the card held by users or by auctions drop by one. *)
Theorem item_lost_on_unlisted_card (start u wid p : Z) (r : user_waifu)
    (st : db) :
  user_waifus st !! (u, wid) = Some r → 0 < uw_amount r →
  waifu_cards st !! wid = None →
  (create_auction start u wid p st).1 = OperationalError ∧
  auctions (create_auction start u wid p st).2 = auctions st ∧
  items_total wid (create_auction start u wid p st).2 = items_total wid st - 1.
Proof.
  intros Hn Hpos Hw. rewrite create_auction_items. unfold raised.
  destruct (create_auction_creation start u wid p st)
    as [Hno | n' Hn' Hpos' Hw' | n' w' Hn' Hpos' Hw' Hp
        | n' w' Hn' Hpos' Hw' Hp]; simpl.
  - specialize (Hno r Hn). lia.
  - split_and!; [done | by destruct (reserve_one_tables u wid n' st) as (_ & _ & -> & _) |].
    rewrite decide_True; [done | by split; [left |]].
  - congruence.
  - congruence.
Qed.

Lemma item_lost_on_unlisted_card_witness :
  (create_auction 0 1 99 50000 demo_db).1 = OperationalError ∧
  auctions (create_auction 0 1 99 50000 demo_db).2 = auctions demo_db ∧
  items_total 99 (create_auction 0 1 99 50000 demo_db).2 =
    items_total 99 demo_db - 1.
Proof.
  apply (item_lost_on_unlisted_card 0 1 99 50000 (mk_user_waifu 1 None) demo_db);
    [reflexivity | simpl; lia | reflexivity].
Defined.

(** ** Creation is all-or-nothing, but for the rollback *)

(** A caller who does not hold the card changes nothing. *)
Lemma create_auction_not_owned start u wid p st :
  (∀ r, user_waifus st !! (u, wid) = Some r → uw_amount r ≤ 0) →
  create_auction start u wid p st = (NotOwned, st).
Proof.
  intros Hno. unfold create_auction.
  destruct (user_waifus st !! (u, wid)) as [n|]; [| done].
  by rewrite decide_True by eauto.
Qed.

(** Had SQLite accepted line 208, it would have given the copy back, in a
    row without [last_collected]. *)
Lemma restore_one_reserve_one u wid r st :
  user_waifus st !! (u, wid) = Some r → 0 < uw_amount r →
  user_waifus (restore_one u wid (reserve_one u wid r st)) =
    <[(u, wid) := mk_user_waifu (uw_amount r) None]> (user_waifus st).
Proof.
  intros Hn Hpos. unfold restore_one, copies, reserve_one. case_decide; simpl.
  - rewrite lookup_insert_eq. simpl. rewrite insert_insert_eq.
    by replace (uw_amount r + -1 + 1) with (uw_amount r) by lia.
  - rewrite lookup_delete_eq. simpl. rewrite insert_delete_eq.
    by replace (uw_amount r) with 1 by lia.
Qed.

(** C4. Creation is all-or-nothing, at the input on which the code breaks
    it: when the reservation has succeeded and the card has no row in
    [waifu_cards], the handler does not answer [CardNotFound] with the tables
    restored; the rollback statement raises, and the seller's inventory stays
    one copy short of what it was before the call. *)
Theorem rollback_fails (start u wid p : Z) (r : user_waifu) (st : db) :
  user_waifus st !! (u, wid) = Some r → 0 < uw_amount r →
  waifu_cards st !! wid = None →
  create_auction start u wid p st = (OperationalError, reserve_one u wid r st) ∧
  user_waifus (reserve_one u wid r st) !! (u, wid) =
    (if decide (1 < uw_amount r)
     then Some (mk_user_waifu (uw_amount r - 1) (last_collected r))
     else None) ∧
  (create_auction start u wid p st).2 ≠ st.
Proof.
  intros Hn Hpos Hw.
  assert (user_waifus (reserve_one u wid r st) !! (u, wid) =
          (if decide (1 < uw_amount r)
           then Some (mk_user_waifu (uw_amount r - 1) (last_collected r))
           else None))
    as Hafter.
  { unfold reserve_one. case_decide; simpl;
      [by rewrite lookup_insert_eq | by rewrite lookup_delete_eq]. }
  assert (create_auction start u wid p st =
          (OperationalError, reserve_one u wid r st)) as Hrun.
  { destruct (create_auction_creation start u wid p st)
      as [Hno | n' Hn' Hpos' Hw' | n' w' Hn' Hpos' Hw' Hp
          | n' w' Hn' Hpos' Hw' Hp].
    - specialize (Hno r Hn). lia.
    - congruence.
    - congruence.
    - congruence. }
  split_and!; [done | done |].
  rewrite Hrun. simpl. intros Heq. rewrite Heq, Hn in Hafter.
  case_decide; [| done]. injection Hafter as Hrow.
  apply (f_equal uw_amount) in Hrow. simpl in Hrow. lia.
Qed.

Lemma rollback_fails_witness :
  create_auction 0 1 99 50000 demo_db =
    (OperationalError, reserve_one 1 99 (mk_user_waifu 1 None) demo_db) ∧
  user_waifus (reserve_one 1 99 (mk_user_waifu 1 None) demo_db) !! (1, 99) =
    (if decide (1 < uw_amount (mk_user_waifu 1 None))
     then Some (mk_user_waifu (uw_amount (mk_user_waifu 1 None) - 1)
                  (last_collected (mk_user_waifu 1 None)))
     else None) ∧
  (create_auction 0 1 99 50000 demo_db).2 ≠ demo_db.
Proof.
  apply (rollback_fails 0 1 99 50000 (mk_user_waifu 1 None) demo_db);
    [reflexivity | simpl; lia | reflexivity].
Defined.

(** ** What a sweep does to the rows *)

Lemma settled_from_trans a a1 a2 :
  settled_from a a1 → settled_from a1 a2 → settled_from a a2.
Proof.
  intros (Hid & He & H1) (Hid' & He' & H2). split_and!; [congruence.. |].
  destruct H2 as [-> | ?]; [done | by right].
Qed.

Lemma finalize_one_find st aid x a :
  find_auction x (auctions st) = Some a →
  ∃ a', find_auction x (auctions (finalize_one st aid)) = Some a' ∧
        settled_from a a' ∧ (x = aid → closed a').
Proof.
  intros Hx. destruct (finalize_one_tables st aid) as (_ & _ & f & Hf & ->).
  rewrite find_update_auction by (intros ?; apply Hf). rewrite Hx. simpl.
  destruct (Hf a) as (? & _ & _ & ? & _ & ? & ?).
  assert (closed (f a)) by (by split).
  case_decide.
  - exists (f a). split; [done |]. split; [| done].
    split; [done |]. split; [done | by right].
  - exists a. split; [done |]. split; [| done].
    split; [done |]. split; [done | by left].
Qed.

Lemma foldl_finalize_one_find ids st x a :
  find_auction x (auctions st) = Some a →
  ∃ a', find_auction x (auctions (foldl finalize_one st ids)) = Some a' ∧
        settled_from a a' ∧ (x ∈ ids → closed a').
Proof.
  revert st a. induction ids as [|aid ids IH]; intros st a Hx; simpl.
  - exists a. split; [done |]. split; [| by intros ?%elem_of_nil].
    split; [done |]. split; [done | by left].
  - destruct (finalize_one_find st aid x a Hx) as (a1 & H1 & Hs1 & Hc1).
    destruct (IH _ _ H1) as (a2 & H2 & Hs2 & Hc2).
    exists a2. split_and!; [done | by eapply settled_from_trans |].
    intros [-> | Hin]%elem_of_cons; [| by apply Hc2].
    destruct Hs2 as (_ & _ & [-> | ?]); [by apply Hc1 | done].
Qed.

Lemma finalize_find now st x a :
  find_auction x (auctions st) = Some a →
  ∃ a', find_auction x (auctions (finalize_expired_auctions now st)) = Some a' ∧
        settled_from a a' ∧
        (x ∈ expired_ids now (auctions st) → closed a').
Proof. apply foldl_finalize_one_find. Qed.

(** Every row after a sweep is a row from before it, possibly closed; the
    rows of the ids the sweep selected are closed. *)
Lemma foldl_finalize_one_rows ids st a' :
  a' ∈ auctions (foldl finalize_one st ids) →
  ∃ a, a ∈ auctions st ∧ settled_from a a' ∧ (a_id a ∈ ids → closed a').
Proof.
  revert st. induction ids as [|aid ids IH]; intros st; simpl.
  - intros Hin. exists a'. split; [done |].
    split; [| by intros ?%elem_of_nil].
    split; [done |]. split; [done | by left].
  - intros (a1 & H1 & Hs1 & Hc1)%IH.
    destruct (finalize_one_tables st aid) as (_ & _ & f & Hf & Hrows).
    rewrite Hrows in H1. unfold update_auction in H1.
    apply list_elem_of_fmap in H1 as (a & -> & Hin).
    destruct (Hf a) as (? & _ & _ & ? & _ & ? & ?).
    exists a. split; [done |]. case_decide as Hid.
    + assert (closed (f a)) by (by split).
      assert (settled_from a (f a)) as Hs0
        by (split; [done |]; split; [done | by right]).
      split; [by eapply settled_from_trans |].
      intros _. destruct Hs1 as (_ & _ & [-> | ?]); [done | done].
    + split; [done |].
      intros [? | Hin']%elem_of_cons; [done | by apply Hc1].
Qed.

(** After a sweep no active auction has an end time at or before the
    sweep's reading of the clock. *)
Lemma expired_ids_finalize now st :
  expired_ids now (auctions (finalize_expired_auctions now st)) = [].
Proof.
  unfold expired_ids at 1.
  assert (filter (λ a, status a = active ∧ end_iso a ≤ now)
            (auctions (finalize_expired_auctions now st)) = []) as ->; [| done].
  apply elem_of_nil_inv.
  intros a' [[Hact Hend] Hin]%list_elem_of_filter.
  apply foldl_finalize_one_rows in Hin as (a & Hin & (_ & He & Hsame) & Hc).
  destruct Hsame as [-> | [Hfin _]]; [| congruence].
  destruct Hc as [Hfin _]; [| congruence].
  unfold expired_ids. apply list_elem_of_fmap_2, list_elem_of_filter. done.
Qed.

(** ** Idempotent settlement *)

Lemma find_auction_is_Some l a :
  a ∈ l → ∃ a0, find_auction (a_id a) l = Some a0.
Proof.
  intros Hin. destruct (find_auction (a_id a) l) as [a0|] eqn:Hf; [by exists a0 |].
  apply find_auction_None in Hf. destruct Hf. by apply list_elem_of_fmap_2.
Qed.

(** On a flagged row neither manual callback does anything. *)
Lemma manual_noop_flagged x st row :
  find_auction x (auctions st) = Some row → transferred row = true →
  (auction_claim_cb x st).2 = st ∧ (auction_credit_cb x st).2 = st.
Proof.
  intros Hf Hflag. unfold auction_claim_cb, auction_credit_cb.
  rewrite Hf, Hflag. split; by repeat case_match.
Qed.

(** The two manual callbacks are gated by the same flag: once either has
    acted on an auction, both find it flagged. *)
Lemma manual_marker_shared x st :
  ((auction_claim_cb x st).1 = CardAdded →
   auction_credit_cb x (auction_claim_cb x st).2
     = (AlreadyCredited, (auction_claim_cb x st).2) ∧
   auction_claim_cb x (auction_claim_cb x st).2
     = (AlreadyTransferred, (auction_claim_cb x st).2)) ∧
  ((auction_credit_cb x st).1 = SellerCredited →
   (auction_claim_cb x (auction_credit_cb x st).2).2
     = (auction_credit_cb x st).2 ∧
   auction_credit_cb x (auction_credit_cb x st).2
     = (AlreadyCredited, (auction_credit_cb x st).2)).
Proof.
  unfold auction_claim_cb, auction_credit_cb.
  destruct (find_auction x (auctions st)) as [row|] eqn:Hf; [| done].
  destruct (decide (status row ≠ finished)) as [Hs | Hs]; [done |].
  assert (find_auction x (update_auction x mark_transferred (auctions st))
          = Some (mark_transferred row)) as Hfind.
  { rewrite find_update_auction by done. by rewrite Hf, decide_True. }
  split.
  - destruct (truthy (winner_id row)) as [winner|] eqn:Hw; [| done].
    destruct (transferred row) eqn:Hflag; [done |]. intros _. simpl.
    rewrite Hfind. simpl.
    destruct (decide (status row ≠ finished)); [done |]. by rewrite Hw.
  - destruct (transferred row) eqn:Hflag; [done |].
    destruct (truthy (final_price row)) as [price|] eqn:Hp; [| done].
    intros _. simpl. rewrite Hfind. simpl.
    destruct (decide (status row ≠ finished)); [done |].
    destruct (truthy (winner_id row)); done.
Qed.

(** X22. Settlement is idempotent after a complete run.  Once a sweep has
    settled an expired auction, settling again changes nothing: a second
    sweep at the same reading of the clock returns the same database, no
    later sweep selects the auction again, and the manual claim and the
    manual credit on it leave the database as it is.  The two manual
    callbacks share the one [transferred] flag: once the claim has added the
    card, the credit answers that the seller was already credited, and once
    the credit has acted, the claim changes nothing. *)
Theorem settlement_idempotent (now : Z) (st : db) (a : auction) :
  a ∈ auctions st → status a = active → end_iso a ≤ now →
  let st1 := finalize_expired_auctions now st in
  finalize_expired_auctions now st1 = st1 ∧
  (∀ later, a_id a ∉ expired_ids later (auctions st1)) ∧
  (auction_claim_cb (a_id a) st1).2 = st1 ∧
  (auction_credit_cb (a_id a) st1).2 = st1 ∧
  (∀ x s, (auction_claim_cb x s).1 = CardAdded →
          auction_credit_cb x (auction_claim_cb x s).2
            = (AlreadyCredited, (auction_claim_cb x s).2)) ∧
  (∀ x s, (auction_credit_cb x s).1 = SellerCredited →
          (auction_claim_cb x (auction_credit_cb x s).2).2
            = (auction_credit_cb x s).2).
Proof.
  intros Hin Hact Hend st1.
  assert (a_id a ∈ expired_ids now (auctions st)) as Hsel.
  { unfold expired_ids. by apply list_elem_of_fmap_2, list_elem_of_filter. }
  split_and!.
  - unfold finalize_expired_auctions at 1. unfold st1.
    by rewrite expired_ids_finalize.
  - intros later (a' & Hid & [[Hact' _] Hin']%list_elem_of_filter)%list_elem_of_fmap.
    apply foldl_finalize_one_rows in Hin' as (a0 & _ & (Hid0 & _ & _) & Hc).
    destruct Hc as [Hfin _]; [congruence | congruence].
  - destruct (find_auction_is_Some _ _ Hin) as (a0 & Hf).
    destruct (finalize_find now st _ _ Hf) as (a' & Hf' & _ & Hc).
    destruct (Hc Hsel) as [_ Hflag].
    by apply (manual_noop_flagged _ _ a').
  - destruct (find_auction_is_Some _ _ Hin) as (a0 & Hf).
    destruct (finalize_find now st _ _ Hf) as (a' & Hf' & _ & Hc).
    destruct (Hc Hsel) as [_ Hflag].
    by apply (manual_noop_flagged _ _ a').
  - intros x s Hr. by apply manual_marker_shared.
  - intros x s Hr. destruct (manual_marker_shared x s) as [_ Hshared].
    by destruct (Hshared Hr) as [-> _].
Qed.

Lemma settlement_idempotent_witness :
  let st1 := finalize_expired_auctions 20000000 bidding_db in
  finalize_expired_auctions 20000000 st1 = st1 ∧
  (∀ later, a_id bidding_row ∉ expired_ids later (auctions st1)) ∧
  (auction_claim_cb (a_id bidding_row) st1).2 = st1 ∧
  (auction_credit_cb (a_id bidding_row) st1).2 = st1 ∧
  (∀ x s, (auction_claim_cb x s).1 = CardAdded →
          auction_credit_cb x (auction_claim_cb x s).2
            = (AlreadyCredited, (auction_claim_cb x s).2)) ∧
  (∀ x s, (auction_credit_cb x s).1 = SellerCredited →
          (auction_claim_cb x (auction_credit_cb x s).2).2
            = (auction_credit_cb x s).2).
Proof.
  apply (settlement_idempotent 20000000 bidding_db bidding_row).
  - vm_compute. apply list_elem_of_here.
  - reflexivity.
  - simpl. lia.
Defined.

(** ** Retrying an interrupted settlement *)

Lemma copies_settle_grant aid wid w st u c :
  transferred_flag aid st = false →
  copies u c (settle_grant aid wid w st) =
    copies u c st + (if decide ((u, c) = (w, wid)) then 1 else 0).
Proof.
  intros Hflag. unfold copies, settle_grant. rewrite Hflag.
  destruct (user_waifus st !! (w, wid)) as [r|] eqn:Hr; simpl;
    case_decide as Hk.
  - injection Hk as -> ->. rewrite lookup_insert_eq, Hr. simpl. lia.
  - rewrite lookup_insert_ne by congruence. lia.
  - injection Hk as -> ->. rewrite lookup_insert_eq, Hr. simpl. lia.
  - rewrite lookup_insert_ne by congruence. lia.
Qed.

Lemma get_crystals_settle_credit aid s price st u :
  transferred_flag aid st = false →
  get_crystals u (settle_credit aid s price st) =
    get_crystals u st + (if decide (u = s) then price else 0).
Proof.
  intros Hflag. unfold settle_credit. rewrite Hflag.
  apply get_crystals_add_crystals.
Qed.

Lemma copies_settle_credit aid s price st u c :
  copies u c (settle_credit aid s price st) = copies u c st.
Proof. unfold settle_credit. by case_match. Qed.

Lemma get_crystals_settle_grant aid wid w st u :
  get_crystals u (settle_grant aid wid w st) = get_crystals u st.
Proof. unfold settle_grant. by repeat case_match. Qed.

(** The grant and the credit of a settlement leave the rows of [auctions]
    and the bids as they are: after either, the auction is still active,
    still due and still not flagged. *)
Lemma settle_effects_tables aid wid w s price st :
  auctions (settle_grant aid wid w st) = auctions st ∧
  auction_bids (settle_grant aid wid w st) = auction_bids st ∧
  auctions (settle_credit aid s price st) = auctions st ∧
  auction_bids (settle_credit aid s price st) = auction_bids st.
Proof. unfold settle_grant, settle_credit. by repeat case_match. Qed.

(** C1, where the code breaks it.  An auction is due, not flagged, and has
    a highest bid.  One complete settlement gives the winner one copy and
    the seller the price.  But neither effect is recorded before the final
    [UPDATE]: when a first attempt has applied only the grant, or only the
    credit, or both without the final [UPDATE], the auction is still active
    and not flagged, the manual callbacks refuse to act on it, and the next
    sweep applies both effects again, so that the winner ends with two
    copies or the seller with twice the price instead of only the missing
    half being performed. *)
Theorem partial_settlement_repeats (now : Z) (st : db) (a : auction)
    (top : bid) :
  find_auction (a_id a) (auctions st) = Some a →
  status a = active → transferred a = false →
  expired_ids now (auctions st) = [a_id a] →
  highest_bid (a_id a) (auction_bids st) = Some top →
  let winner := bidder_id top in
  let seller := seller_id a in
  let granted := settle_grant (a_id a) (waifu_id a) winner st in
  let credited := settle_credit (a_id a) seller (amount top) st in
  let both := settle_credit (a_id a) seller (amount top) granted in
  let copies_of st' := copies winner (waifu_id a) st' in
  let balance_of st' := get_crystals seller st' in
  (copies_of (finalize_expired_auctions now st) = copies_of st + 1 ∧
   balance_of (finalize_expired_auctions now st) = balance_of st + amount top) ∧
  (copies_of granted = copies_of st + 1 ∧ balance_of granted = balance_of st ∧
   auction_claim_cb (a_id a) granted = (NotFinished, granted) ∧
   auction_credit_cb (a_id a) granted = (NotFinished, granted) ∧
   copies_of (finalize_expired_auctions now granted) = copies_of st + 2 ∧
   balance_of (finalize_expired_auctions now granted)
     = balance_of st + amount top) ∧
  (copies_of credited = copies_of st ∧
   balance_of credited = balance_of st + amount top ∧
   auction_claim_cb (a_id a) credited = (NotFinished, credited) ∧
   auction_credit_cb (a_id a) credited = (NotFinished, credited) ∧
   copies_of (finalize_expired_auctions now credited) = copies_of st + 1 ∧
   balance_of (finalize_expired_auctions now credited)
     = balance_of st + 2 * amount top) ∧
  (copies_of (finalize_expired_auctions now both) = copies_of st + 2 ∧
   balance_of (finalize_expired_auctions now both)
     = balance_of st + 2 * amount top).
Proof.
  intros Hfind Hact Hflag Hdue Htop winner seller granted credited both
    copies_of balance_of.
  set (aid := a_id a) in *. set (wid := waifu_id a) in *.
  set (price := amount top) in *.
  assert (∀ st', auctions st' = auctions st →
                 auction_bids st' = auction_bids st →
            transferred_flag aid st' = false ∧
            auction_claim_cb aid st' = (NotFinished, st') ∧
            auction_credit_cb aid st' = (NotFinished, st') ∧
            copies_of (finalize_expired_auctions now st') = copies_of st' + 1 ∧
            balance_of (finalize_expired_auctions now st')
              = balance_of st' + price) as Hretry.
  { intros st' Ha Hb.
    assert (transferred_flag aid st' = false) as Hflag'
      by (unfold transferred_flag; by rewrite Ha, Hfind).
    split; [done |].
    split; [unfold auction_claim_cb; rewrite Ha, Hfind, Hact;
            by rewrite decide_True |].
    split; [unfold auction_credit_cb; rewrite Ha, Hfind, Hact;
            by rewrite decide_True |].
    unfold finalize_expired_auctions. rewrite Ha, Hdue. simpl.
    unfold finalize_one. rewrite Hb, Htop, Ha, Hfind. fold wid seller price.
    change (bidder_id top) with winner.
    assert (transferred_flag aid (settle_grant aid wid winner st') = false)
      as Hflag''
      by (unfold transferred_flag; by rewrite auctions_settle_grant, Ha, Hfind).
    unfold copies_of, balance_of, settle_mark, copies, get_crystals. simpl.
    fold (copies winner wid
            (settle_credit aid seller price (settle_grant aid wid winner st'))).
    fold (get_crystals seller
            (settle_credit aid seller price (settle_grant aid wid winner st'))).
    fold (copies winner wid st'). fold (get_crystals seller st').
    rewrite copies_settle_credit, copies_settle_grant by done.
    rewrite get_crystals_settle_credit, get_crystals_settle_grant by done.
    by rewrite !decide_True. }
  destruct (settle_effects_tables aid wid winner seller price st)
    as (Hga & Hgb & Hca & Hcb).
  destruct (settle_effects_tables aid wid winner seller price granted)
    as (_ & _ & Hba & Hbb).
  pose proof (Hretry st eq_refl eq_refl) as (Hf0 & _ & _ & Hc0 & Hb0).
  pose proof (Hretry granted Hga Hgb) as (Hf1 & Hcl1 & Hcr1 & Hc1 & Hb1).
  pose proof (Hretry credited Hca Hcb) as (_ & Hcl2 & Hcr2 & Hc2 & Hb2).
  assert (auctions both = auctions st) as Hba'
    by (unfold both; rewrite Hba; exact Hga).
  assert (auction_bids both = auction_bids st) as Hbb'
    by (unfold both; rewrite Hbb; exact Hgb).
  pose proof (Hretry both Hba' Hbb') as (_ & _ & _ & Hc3 & Hb3).
  assert (copies_of granted = copies_of st + 1) as Hcg.
  { unfold copies_of, granted. rewrite copies_settle_grant by done.
    by rewrite decide_True. }
  assert (balance_of granted = balance_of st) as Hbg
    by apply get_crystals_settle_grant.
  assert (copies_of credited = copies_of st) as Hcc
    by apply copies_settle_credit.
  assert (balance_of credited = balance_of st + price) as Hbc.
  { unfold balance_of, credited. rewrite get_crystals_settle_credit by done.
    by rewrite decide_True. }
  assert (copies_of both = copies_of st + 1) as Hcb3.
  { unfold copies_of, both. rewrite copies_settle_credit. apply Hcg. }
  assert (balance_of both = balance_of st + price) as Hbb3.
  { unfold balance_of, both. rewrite get_crystals_settle_credit by done.
    rewrite decide_True by done.
    change (balance_of granted + price = balance_of st + price).
    by rewrite Hbg. }
  split_and!; try done; lia.
Qed.

Lemma partial_settlement_repeats_witness :
  let top := mk_bid 1 2 50000 1000000 in
  let winner := bidder_id top in
  let seller := seller_id bidding_row in
  let granted := settle_grant (a_id bidding_row) (waifu_id bidding_row) winner
                   bidding_db in
  let credited := settle_credit (a_id bidding_row) seller (amount top)
                    bidding_db in
  let both := settle_credit (a_id bidding_row) seller (amount top) granted in
  let copies_of st' := copies winner (waifu_id bidding_row) st' in
  let balance_of st' := get_crystals seller st' in
  (copies_of (finalize_expired_auctions 20000000 bidding_db)
     = copies_of bidding_db + 1 ∧
   balance_of (finalize_expired_auctions 20000000 bidding_db)
     = balance_of bidding_db + amount top) ∧
  (copies_of granted = copies_of bidding_db + 1 ∧
   balance_of granted = balance_of bidding_db ∧
   auction_claim_cb (a_id bidding_row) granted = (NotFinished, granted) ∧
   auction_credit_cb (a_id bidding_row) granted = (NotFinished, granted) ∧
   copies_of (finalize_expired_auctions 20000000 granted)
     = copies_of bidding_db + 2 ∧
   balance_of (finalize_expired_auctions 20000000 granted)
     = balance_of bidding_db + amount top) ∧
  (copies_of credited = copies_of bidding_db ∧
   balance_of credited = balance_of bidding_db + amount top ∧
   auction_claim_cb (a_id bidding_row) credited = (NotFinished, credited) ∧
   auction_credit_cb (a_id bidding_row) credited = (NotFinished, credited) ∧
   copies_of (finalize_expired_auctions 20000000 credited)
     = copies_of bidding_db + 1 ∧
   balance_of (finalize_expired_auctions 20000000 credited)
     = balance_of bidding_db + 2 * amount top) ∧
  (copies_of (finalize_expired_auctions 20000000 both)
     = copies_of bidding_db + 2 ∧
   balance_of (finalize_expired_auctions 20000000 both)
     = balance_of bidding_db + 2 * amount top).
Proof.
  apply (partial_settlement_repeats 20000000 bidding_db bidding_row
           (mk_bid 1 2 50000 1000000)); reflexivity.
Defined.

(** The numbers of the example: the winner, who held no copy of card 12,
    holds two after the retry that follows an interrupted grant, and the
    seller, whose balance was 0, holds 100000 crystals after the retry that
    follows an interrupted credit of 50000. *)
Lemma settlement_retry_repeats :
  copies 2 12 bidding_db = 0 ∧ get_crystals 1 bidding_db = 0 ∧
  copies 2 12 (finalize_expired_auctions 20000000
                 (settle_grant 1 12 2 bidding_db)) = 2 ∧
  get_crystals 1 (finalize_expired_auctions 20000000
                    (settle_credit 1 1 50000 bidding_db)) = 100000 ∧
  copies 2 12 (finalize_expired_auctions 20000000 bidding_db) = 1 ∧
  get_crystals 1 (finalize_expired_auctions 20000000 bidding_db) = 50000.
Proof. vm_compute. done. Qed.

(** ** The row of a new auction *)

(** C9, as the code has it.  A successful creation appends one row under a
    new id, which the caller receives: active, starting at the clock reading
    of the creation, ending [BID_TIMEOUT_SECONDS] later (the handler takes no
    duration: the window is the same fixed one that bids extend by), not
    transferred, without winner or final price; no wallet and no bid
    changes. *)
Theorem create_auction_started (start u wid p aid : Z) (st st' : db) :
  create_auction start u wid p st = (AuctionStarted aid, st') →
  ∃ row,
    auctions st' = auctions st ++ [row] ∧
    find_auction aid (auctions st') = Some row ∧
    (aid ∉ a_id <$> auctions st) ∧
    a_id row = aid ∧ waifu_id row = wid ∧ seller_id row = u ∧
    min_price row = p ∧ status row = active ∧
    start_iso row = start ∧
    end_iso row = start + timedelta BID_TIMEOUT_SECONDS ∧
    transferred row = false ∧ winner_id row = None ∧ final_price row = None ∧
    crystals st' = crystals st ∧ auction_bids st' = auction_bids st.
Proof.
  intros Hrun.
  destruct (create_auction_creation start u wid p st)
    as [Hno | n Hn Hpos Hw | n w Hn Hpos Hw Hp | n w Hn Hpos Hw Hp];
    [done | done | done |].
  injection Hrun as <- <-.
  destruct (reserve_one_tables u wid n st) as (Hc & _ & _ & Hb).
  eexists. split; [reflexivity |]. simpl.
  split; [apply find_auction_snoc_fresh; [apply next_id_fresh | done] |].
  split; [apply next_id_fresh |]. by rewrite Hc, Hb.
Qed.

Lemma create_auction_started_witness :
  ∃ row,
    auctions (create_auction 0 1 12 50000 demo_db).2
      = auctions demo_db ++ [row] ∧
    find_auction 1 (auctions (create_auction 0 1 12 50000 demo_db).2)
      = Some row ∧
    (1 ∉ a_id <$> auctions demo_db) ∧
    a_id row = 1 ∧ waifu_id row = 12 ∧ seller_id row = 1 ∧
    min_price row = 50000 ∧ status row = active ∧
    start_iso row = 0 ∧
    end_iso row = 0 + timedelta BID_TIMEOUT_SECONDS ∧
    transferred row = false ∧ winner_id row = None ∧ final_price row = None ∧
    crystals (create_auction 0 1 12 50000 demo_db).2 = crystals demo_db ∧
    auction_bids (create_auction 0 1 12 50000 demo_db).2
      = auction_bids demo_db.
Proof.
  apply (create_auction_started 0 1 12 50000 1 demo_db). reflexivity.
Defined.

(** C9 as stated fails: the end time of the new row does not follow a
    duration chosen by the caller.  Whatever duration is asked for, the row
    ends [BID_TIMEOUT_SECONDS] after its start. *)
Lemma creation_ignores_duration :
  ¬ (∀ duration start u wid p aid st st' row,
       0 < duration →
       create_auction start u wid p st = (AuctionStarted aid, st') →
       find_auction aid (auctions st') = Some row →
       end_iso row = start + timedelta duration).
Proof.
  intros Hall.
  specialize (Hall 3600 0 1 12 50000 1 demo_db
                (create_auction 0 1 12 50000 demo_db).2
                (new_auction 1 12 1 0 50000 demo_card)).
  assert (0 < 3600) as Hpos by lia.
  specialize (Hall Hpos eq_refl eq_refl). vm_compute in Hall. discriminate.
Qed.

(** ** Late bids *)

(** C8. No late bids: a bid on an active auction whose end time is at or
    before the clock reading of the expiry test is answered [AuctionEnded]
    whatever the bidder and the amount, and [place_bid] leaves every table
    as it is: no crystals move, no bid row is inserted.  For the whole
    handler: a bid on any auction whose end time has passed is refused, as no
    longer active when the opening sweep has settled it and as ended
    otherwise; the tables it leaves are those of the settlement sweeps alone,
    and [auction_bids] is unchanged. *)
Theorem no_late_bids (c : bid_clock) (u aid amt : Z) (st : db) (a : auction) :
  find_auction aid (auctions st) = Some a → end_iso a ≤ at_check c →
  (status a = active → place_bid c u aid amt st = (AuctionEnded, st)) ∧
  (let st1 := finalize_expired_auctions (at_sweep c) st in
   bid_handler c u aid amt st = (NotActive, st1) ∨
   bid_handler c u aid amt st
     = (AuctionEnded, finalize_expired_auctions (at_resweep c) st1)) ∧
  auction_bids (bid_handler c u aid amt st).2 = auction_bids st.
Proof.
  intros Hf Hend.
  assert (∀ s b, find_auction aid (auctions s) = Some b →
            end_iso b ≤ at_check c →
            place_bid c u aid amt s =
              (if decide (status b ≠ active) then NotActive else AuctionEnded, s))
    as Hplace.
  { intros s b Hb He. unfold place_bid. rewrite Hb.
    case_decide; [done |]. by rewrite decide_True. }
  destruct (finalize_find (at_sweep c) st aid a Hf) as (a1 & Hf1 & (_ & He1 & _) & _).
  assert (end_iso a1 ≤ at_check c) as Hend1 by lia.
  assert (let st1 := finalize_expired_auctions (at_sweep c) st in
          bid_handler c u aid amt st = (NotActive, st1) ∨
          bid_handler c u aid amt st
            = (AuctionEnded, finalize_expired_auctions (at_resweep c) st1))
    as Hhandler.
  { intros st1. unfold bid_handler. fold st1.
    rewrite (Hplace st1 a1 Hf1 Hend1). case_decide; simpl; auto. }
  split_and!.
  - intros Hact. rewrite (Hplace st a Hf Hend). by case_decide.
  - done.
  - destruct Hhandler as [-> | ->]; simpl; by rewrite !finalize_auction_bids.
Qed.

Lemma no_late_bids_witness :
  (status bidding_row = active →
   place_bid (at_time 11000000) 3 1 90000 bidding_db
     = (AuctionEnded, bidding_db)) ∧
  (let st1 := finalize_expired_auctions 11000000 bidding_db in
   bid_handler (at_time 11000000) 3 1 90000 bidding_db = (NotActive, st1) ∨
   bid_handler (at_time 11000000) 3 1 90000 bidding_db
     = (AuctionEnded, finalize_expired_auctions 11000000 st1)) ∧
  auction_bids (bid_handler (at_time 11000000) 3 1 90000 bidding_db).2
    = auction_bids bidding_db.
Proof.
  apply (no_late_bids (at_time 11000000) 3 1 90000 bidding_db bidding_row).
  - reflexivity.
  - simpl. lia.
Defined.

(** ** The order of the checks *)

(** C10. Funds are checked before the price: on an active auction that has
    not ended, a bid the bidder cannot afford is answered
    [NotEnoughCrystals], also when it is below the price to beat; the
    answer names neither the highest bid nor the minimum price, and the
    tables stay as they are. *)
Theorem funds_checked_first (c : bid_clock) (u aid amt : Z) (st : db)
    (a : auction) :
  find_auction aid (auctions st) = Some a → status a = active →
  at_check c < end_iso a →
  available_funds u (highest_bid aid (auction_bids st)) st < amt →
  ¬ beats amt (highest_bid aid (auction_bids st)) a →
  place_bid c u aid amt st = (NotEnoughCrystals, st) ∧
  (∀ x, (place_bid c u aid amt st).1 ≠ BidNotHigher x) ∧
  (∀ x, (place_bid c u aid amt st).1 ≠ BidBelowMin x).
Proof.
  intros Hf Hact Hend Hfunds _.
  assert (place_bid c u aid amt st = (NotEnoughCrystals, st)) as ->.
  { unfold place_bid. rewrite Hf, Hact.
    rewrite decide_False by (by intros ?).
    rewrite decide_False by lia. by rewrite decide_True. }
  done.
Qed.

Lemma funds_checked_first_witness :
  place_bid (at_time 2000000) 1 1 40000 bidding_db
    = (NotEnoughCrystals, bidding_db) ∧
  (∀ x, (place_bid (at_time 2000000) 1 1 40000 bidding_db).1 ≠ BidNotHigher x) ∧
  (∀ x, (place_bid (at_time 2000000) 1 1 40000 bidding_db).1 ≠ BidBelowMin x).
Proof.
  apply (funds_checked_first (at_time 2000000) 1 1 40000 bidding_db bidding_row).
  - reflexivity.
  - reflexivity.
  - simpl. lia.
  - vm_compute. reflexivity.
  - vm_compute. intros H. discriminate H.
Defined.

(** ** The price to beat *)

Lemma bid_amounts_accept_bid c u aid amt current st x :
  bid_amounts x (accept_bid c u aid amt current st) =
    bid_amounts x st ++ (if decide (aid = x) then [amt] else []).
Proof.
  unfold bid_amounts, accept_bid. simpl.
  destruct (move_funds_tables u amt current st) as (_ & _ & _ & ->).
  rewrite filter_app, fmap_app. f_equal.
  case_decide.
  - by rewrite filter_cons_True.
  - by rewrite filter_cons_False.
Qed.

(** An accepted bid is above every amount bid on the auction before. *)
Lemma beats_all_amounts amt aid st a y :
  beats amt (highest_bid aid (auction_bids st)) a →
  y ∈ bid_amounts aid st → y < amt.
Proof.
  unfold beats, bid_amounts, highest_bid.
  intros Hbeats (b & -> & Hb)%list_elem_of_fmap.
  destruct (first_ranked _) as [top|] eqn:Htop.
  - apply first_ranked_max in Htop as [_ Hmax]. specialize (Hmax b Hb). lia.
  - apply first_ranked_None in Htop. rewrite Htop in Hb.
    by apply elem_of_nil in Hb.
Qed.

Lemma place_bid_increasing c u aid amt st x :
  StronglySorted Z.lt (bid_amounts x st) →
  StronglySorted Z.lt (bid_amounts x (place_bid c u aid amt st).2).
Proof.
  intros Hsorted.
  destruct (place_bid_bidding c u aid amt st) as [| a Hf Hs He Hfunds Hbeats];
    simpl; [done |].
  rewrite bid_amounts_accept_bid. case_decide as Hx; [| by rewrite app_nil_r].
  subst x. apply StronglySorted_app_2; [| done | repeat constructor].
  intros y z Hy ->%list_elem_of_singleton. by eapply beats_all_amounts.
Qed.

Lemma step_auction_bids st o :
  (∀ c u a x, o ≠ Bid c u a x) → auction_bids (step st o) = auction_bids st.
Proof.
  intros Ho. destruct o as [sweep start u w p | c u a x | now | a | a]; simpl.
  - unfold auction_handler.
    destruct (create_auction_creation start u w p
                (finalize_expired_auctions sweep st)); simpl;
      rewrite ?(proj2 (proj2 (proj2 (reserve_one_tables u w r _))));
      apply finalize_auction_bids.
  - by destruct (Ho c u a x).
  - apply finalize_auction_bids.
  - unfold auction_claim_cb, add_to_inventory. by repeat case_match.
  - unfold auction_credit_cb. by repeat case_match.
Qed.

Lemma step_increasing st o x :
  StronglySorted Z.lt (bid_amounts x st) →
  StronglySorted Z.lt (bid_amounts x (step st o)).
Proof.
  intros Hsorted.
  destruct o as [sweep start u w p | c u a y | now | a | a];
    try (unfold bid_amounts; by rewrite step_auction_bids).
  simpl.
  assert (StronglySorted Z.lt
            (bid_amounts x (finalize_expired_auctions (at_sweep c) st)))
    as Hswept by (unfold bid_amounts; by rewrite finalize_auction_bids).
  apply (place_bid_increasing c u a y) in Hswept.
  destruct (bid_handler_state c u a y st) as [-> | ->]; [done |].
  unfold bid_amounts. by rewrite finalize_auction_bids.
Qed.

(** Along every run the amounts bid on an auction stay strictly increasing
    in insertion order; they are so from the start when no bid has been
    placed yet. *)
Lemma run_increasing ops st x :
  StronglySorted Z.lt (bid_amounts x st) →
  StronglySorted Z.lt (bid_amounts x (run ops st)).
Proof.
  revert st. induction ops as [|o ops IH]; intros st Hsorted; [done |].
  simpl. by apply IH, step_increasing.
Qed.

(** C5, as the code has it.  On an active auction that has not ended, a bid
    is accepted only if it is above the highest bid, or at least the minimum
    price when there is no bid.  A bid below that price is answered with the
    price to beat (the highest amount, or the minimum price) when the bidder
    can afford the bid; when they cannot, the answer is [NotEnoughCrystals]
    and names no price.  In every case the amounts bid on each auction stay
    strictly increasing in insertion order. *)
Theorem bid_threshold (c : bid_clock) (u aid amt : Z) (st : db) (a : auction) :
  find_auction aid (auctions st) = Some a → status a = active →
  at_check c < end_iso a →
  let current := highest_bid aid (auction_bids st) in
  ((place_bid c u aid amt st).1 = BidPlaced → beats amt current a) ∧
  (¬ beats amt current a → amt ≤ available_funds u current st →
   place_bid c u aid amt st =
     (match current with
      | Some top => BidNotHigher (amount top)
      | None => BidBelowMin (min_price a)
      end, st)) ∧
  (¬ beats amt current a → available_funds u current st < amt →
   place_bid c u aid amt st = (NotEnoughCrystals, st)) ∧
  (∀ x, StronglySorted Z.lt (bid_amounts x st) →
        StronglySorted Z.lt (bid_amounts x (place_bid c u aid amt st).2)).
Proof.
  intros Hf Hact Hend current.
  assert (place_bid c u aid amt st =
          if decide (available_funds u current st < amt)
          then (NotEnoughCrystals, st)
          else match current with
               | Some top =>
                   if decide (amt ≤ amount top)
                   then (BidNotHigher (amount top), st)
                   else (BidPlaced, accept_bid c u aid amt current st)
               | None =>
                   if decide (amt < min_price a)
                   then (BidBelowMin (min_price a), st)
                   else (BidPlaced, accept_bid c u aid amt current st)
               end) as Hrun.
  { unfold place_bid. rewrite Hf, Hact.
    rewrite decide_False by (by intros ?).
    by rewrite decide_False by lia. }
  split_and!.
  - rewrite Hrun. unfold beats. case_decide; [done |].
    destruct current as [top|]; case_decide; simpl; try done; lia.
  - intros Hlow Hfunds. rewrite Hrun. rewrite decide_False by lia.
    unfold beats in Hlow.
    destruct current as [top|]; by rewrite decide_True by lia.
  - intros _ Hfunds. rewrite Hrun. by rewrite decide_True.
  - intros x. apply place_bid_increasing.
Qed.

Lemma bid_threshold_witness :
  let current := highest_bid 1 (auction_bids started_db) in
  ((place_bid (at_time 1000000) 2 1 40000 started_db).1 = BidPlaced →
   beats 40000 current started_row) ∧
  (¬ beats 40000 current started_row →
   40000 ≤ available_funds 2 current started_db →
   place_bid (at_time 1000000) 2 1 40000 started_db =
     (match current with
      | Some top => BidNotHigher (amount top)
      | None => BidBelowMin (min_price started_row)
      end, started_db)) ∧
  (¬ beats 40000 current started_row →
   available_funds 2 current started_db < 40000 →
   place_bid (at_time 1000000) 2 1 40000 started_db
     = (NotEnoughCrystals, started_db)) ∧
  (∀ x, StronglySorted Z.lt (bid_amounts x started_db) →
        StronglySorted Z.lt
          (bid_amounts x (place_bid (at_time 1000000) 2 1 40000 started_db).2)).
Proof.
  apply (bid_threshold (at_time 1000000) 2 1 40000 started_db started_row).
  - reflexivity.
  - reflexivity.
  - simpl. lia.
Defined.

(** C5 as stated fails: a bid below the price to beat is not always answered
    with that price.  After the auction of card 12 has started at a minimum
    price of 50000, user 4, who has no crystals, bids 40000: the answer is
    [NotEnoughCrystals], not the minimum price. *)
Lemma low_bid_not_told_price :
  find_auction 1 (auctions started_db) = Some started_row ∧
  status started_row = active ∧
  at_check (at_time 1000000) < end_iso started_row ∧
  highest_bid 1 (auction_bids started_db) = None ∧
  40000 < min_price started_row ∧
  place_bid (at_time 1000000) 4 1 40000 started_db
    = (NotEnoughCrystals, started_db) ∧
  (place_bid (at_time 1000000) 4 1 40000 started_db).1
    ≠ BidBelowMin (min_price started_row).
Proof. vm_compute. split_and!; done. Qed.

(** ** Escrow-aware movement of funds *)

Lemma get_crystals_accept_bid c u aid amt current st v :
  get_crystals v (accept_bid c u aid amt current st) =
    get_crystals v (move_funds u amt current st).
Proof. done. Qed.




(** ** The anti-snipe extension *)

Lemma stamped_mono ts ts' st : ts ⊆ ts' → stamped ts st → stamped ts' st.
Proof. intros Hsub Hst a Ha. destruct (Hst a Ha) as (t & Ht & He). eauto. Qed.

Lemma finalize_stamped ts now st :
  stamped ts st → stamped ts (finalize_expired_auctions now st).
Proof.
  intros Hst a' Ha'.
  apply foldl_finalize_one_rows in Ha' as (a & Ha & (_ & He & _) & _).
  destruct (Hst a Ha) as (t & Ht & Hend). exists t. split; [done | congruence].
Qed.

Lemma create_auction_stamped ts start u wid p st :
  stamped ts st → stamped (ts ++ [start]) (create_auction start u wid p st).2.
Proof.
  intros Hst.
  destruct (create_auction_creation start u wid p st)
    as [Hno | n Hn Hpos Hw | n w Hn Hpos Hw Hp | n w Hn Hpos Hw Hp]; simpl.
  - eapply stamped_mono; [| done]. set_solver.
  - intros a. destruct (reserve_one_tables u wid n st) as (_ & _ & -> & _).
    intros Ha. destruct (Hst a Ha) as (t & Ht & He). exists t. set_solver.
  - intros a. destruct (reserve_one_tables u wid n st) as (_ & _ & -> & _).
    intros Ha. destruct (Hst a Ha) as (t & Ht & He). exists t. set_solver.
  - intros a [Ha | ->%list_elem_of_singleton]%elem_of_app.
    + destruct (Hst a Ha) as (t & Ht & He). exists t. set_solver.
    + exists start. set_solver.
Qed.

Lemma place_bid_stamped ts c u aid amt st :
  stamped ts st → stamped (ts ++ [at_extend c]) (place_bid c u aid amt st).2.
Proof.
  intros Hst.
  destruct (place_bid_bidding c u aid amt st) as [| a Hf Hs He Hfunds Hbeats];
    simpl.
  - eapply stamped_mono; [| done]. set_solver.
  - intros x. unfold accept_bid. simpl.
    destruct (move_funds_tables u amt (highest_bid aid (auction_bids st)) st)
      as (_ & _ & -> & _).
    intros (x0 & -> & Hin)%list_elem_of_fmap. case_decide.
    + exists (at_extend c). set_solver.
    + destruct (Hst x0 Hin) as (t & Ht & Hend). exists t. set_solver.
Qed.

Lemma step_stamped ts st o : stamped ts st → stamped (ts ++ stamps o) (step st o).
Proof.
  intros Hst. destruct o as [sweep start u w p | c u a x | now | a | a]; simpl.
  - by apply create_auction_stamped, finalize_stamped.
  - destruct (bid_handler_state c u a x st) as [-> | ->].
    + by apply place_bid_stamped, finalize_stamped.
    + by apply finalize_stamped, place_bid_stamped, finalize_stamped.
  - rewrite app_nil_r. by apply finalize_stamped.
  - rewrite app_nil_r. intros x. unfold auction_claim_cb.
    repeat case_match; simpl; try apply Hst.
    intros (x0 & -> & Hin)%list_elem_of_fmap.
    destruct (Hst x0 Hin) as (t & Ht & Hend). exists t.
    split; [done |]. by destruct (decide (a_id x0 = a)).
  - rewrite app_nil_r. intros x. unfold auction_credit_cb.
    repeat case_match; simpl; try apply Hst.
    intros (x0 & -> & Hin)%list_elem_of_fmap.
    destruct (Hst x0 Hin) as (t & Ht & Hend). exists t.
    split; [done |]. by destruct (decide (a_id x0 = a)).
Qed.

Lemma run_stamped ts ops st :
  stamped ts st → stamped (ts ++ (ops ≫= stamps)) (run ops st).
Proof.
  revert ts st. induction ops as [|o ops IH]; intros ts st Hst; simpl.
  - by rewrite app_nil_r.
  - rewrite app_assoc. by apply IH, step_stamped.
Qed.

(** C7. Anti-snipe extension.  In every run that starts without auctions,
    an accepted bid sets the end time of its auction to the reading of the
    clock at the extension plus [BID_TIMEOUT_SECONDS].  The previous end
    time was computed with the same window, at creation or at an earlier
    bid, from an earlier reading of the clock; with the clock moving forward
    the new end time is strictly later than the previous one. *)
Theorem anti_snipe_extension (ops : list op) (st0 st' : db) (c : bid_clock)
    (u aid amt : Z) (a : auction) :
  auctions st0 = [] →
  Forall (λ t, t < at_extend c) (ops ≫= stamps) →
  find_auction aid (auctions (run ops st0)) = Some a →
  bid_handler c u aid amt (run ops st0) = (BidPlaced, st') →
  ∃ a' t, find_auction aid (auctions st') = Some a' ∧
          end_iso a' = at_extend c + timedelta BID_TIMEOUT_SECONDS ∧
          t ∈ ops ≫= stamps ∧
          end_iso a = t + timedelta BID_TIMEOUT_SECONDS ∧
          end_iso a < end_iso a'.
Proof.
  intros Hempty Hclock Hf Hrun.
  set (st := run ops st0) in *.
  set (st1 := finalize_expired_auctions (at_sweep c) st).
  assert (place_bid c u aid amt st1 = (BidPlaced, st')) as Hplace.
  { unfold bid_handler in Hrun. fold st1 in Hrun.
    destruct (place_bid c u aid amt st1) as [r s]. simpl in Hrun.
    destruct r; by simplify_eq. }
  destruct (finalize_find (at_sweep c) st aid a Hf)
    as (a1 & Hf1 & (_ & He1 & _) & _). fold st1 in Hf1.
  destruct (place_bid_bidding c u aid amt st1) as [r Hr | a2 Hf2 _ _ _ _];
    [by injection Hplace as -> _ |].
  injection Hplace as <-.
  assert (stamped ([] ++ (ops ≫= stamps)) st) as Hst.
  { apply run_stamped. intros x. rewrite Hempty. by intros ?%elem_of_nil. }
  destruct (find_auction_Some _ _ _ Hf) as [Hin _].
  destruct (Hst a Hin) as (t & Ht & Hprev). simpl in Ht.
  exists (set_end_iso (at_extend c + timedelta BID_TIMEOUT_SECONDS) a1), t.
  split_and!.
  - unfold accept_bid. simpl.
    destruct (move_funds_tables u amt (highest_bid aid (auction_bids st1)) st1)
      as (_ & _ & -> & _).
    rewrite find_update_auction by done. by rewrite Hf1, decide_True.
  - done.
  - done.
  - done.
  - simpl. rewrite Hprev.
    rewrite Forall_forall in Hclock. specialize (Hclock t Ht). simpl in Hclock.
    lia.
Qed.

Lemma anti_snipe_extension_witness :
  ∃ a' t, find_auction 1
            (auctions (bid_handler (at_time 1000000) 2 1 50000
                         (run [Auction 0 0 1 12 50000] demo_db)).2) = Some a' ∧
          end_iso a'
            = at_extend (at_time 1000000) + timedelta BID_TIMEOUT_SECONDS ∧
          t ∈ [Auction 0 0 1 12 50000] ≫= stamps ∧
          end_iso started_row = t + timedelta BID_TIMEOUT_SECONDS ∧
          end_iso started_row < end_iso a'.
Proof.
  apply (anti_snipe_extension [Auction 0 0 1 12 50000] demo_db
           (bid_handler (at_time 1000000) 2 1 50000
              (run [Auction 0 0 1 12 50000] demo_db)).2
           (at_time 1000000) 2 1 50000 started_row).
  - reflexivity.
  - repeat constructor.
  - reflexivity.
  - reflexivity.
Defined.

(** * Further properties of the engine *)

(** ** The leading bid *)

Lemma first_ranked_best l c :
  first_ranked l = Some c → c ∈ l ∧ ∀ x, x ∈ l → outranks x c = false.
Proof.
  revert c. induction l as [|b l IH] using rev_ind; [done |].
  intros c. rewrite first_ranked_snoc.
  destruct (first_ranked l) as [c0|] eqn:Hl.
  - destruct (IH c0 eq_refl) as [Hin Hbest].
    destruct (outranks b c0) eqn:Hout; intros [= <-].
    + split; [apply elem_of_app; right; apply list_elem_of_here |].
      intros x [Hx | ->%list_elem_of_singleton]%elem_of_app.
      * specialize (Hbest x Hx). unfold outranks in *.
        apply orb_true_iff in Hout. apply orb_false_iff in Hbest.
        apply orb_false_iff. rewrite andb_false_iff in *.
        rewrite andb_true_iff in Hout.
        rewrite !Z.ltb_lt, !Z.eqb_eq in Hout.
        rewrite !Z.ltb_ge, !Z.eqb_neq in *. lia.
      * unfold outranks. apply orb_false_iff. rewrite andb_false_iff.
        rewrite !Z.ltb_ge. lia.
    + split; [apply elem_of_app; by left |].
      intros x [Hx | ->%list_elem_of_singleton]%elem_of_app; [by apply Hbest | done].
  - intros [= <-]. apply first_ranked_None in Hl. subst l. simpl.
    split; [apply list_elem_of_here |].
    intros x ->%list_elem_of_singleton.
    unfold outranks. apply orb_false_iff. rewrite andb_false_iff.
    rewrite !Z.ltb_ge. lia.
Qed.

(** X1. The query for the leading bid returns a bid of the auction asked
    for, with the largest amount bid on it and, among the bids of that
    amount, the earliest timestamp; it returns nothing exactly when the
    auction has no bid. *)
Theorem highest_bid_is_maximum (aid : Z) (bids : list bid) :
  match highest_bid aid bids with
  | Some b =>
      b ∈ bids ∧ auction_id b = aid ∧
      ∀ c, c ∈ bids → auction_id c = aid →
           amount c ≤ amount b ∧ (amount c = amount b → bid_iso b ≤ bid_iso c)
  | None => ∀ c, c ∈ bids → auction_id c ≠ aid
  end.
Proof.
  unfold highest_bid.
  destruct (first_ranked _) as [b|] eqn:Htop.
  - apply first_ranked_best in Htop as [[Hb Hin]%list_elem_of_filter Hbest].
    split_and!; [done | done |].
    intros c Hc Hcid.
    assert (outranks c b = false) as Hout
      by (apply Hbest; by apply list_elem_of_filter).
    unfold outranks in Hout. apply orb_false_iff in Hout as [Hlt Htie].
    apply Z.ltb_ge in Hlt. split; [done |]. intros Heq.
    apply andb_false_iff in Htie as [Hne | Hiso].
    + apply Z.eqb_neq in Hne. lia.
    + by apply Z.ltb_ge in Hiso.
  - apply first_ranked_None in Htop. intros c Hc Hcid.
    assert (c ∈ filter (λ b, auction_id b = aid) bids) as Hin
      by (by apply list_elem_of_filter).
    rewrite Htop in Hin. by apply elem_of_nil in Hin.
Qed.

Lemma first_ranked_increasing l :
  StronglySorted Z.lt (amount <$> l) → first_ranked l = last l.
Proof.
  induction l as [|b l IH] using rev_ind; [done |].
  rewrite fmap_app. intros Hsorted. rewrite first_ranked_snoc, last_snoc.
  destruct (first_ranked l) as [c|] eqn:Hl; [| done].
  apply first_ranked_max in Hl as [Hin _].
  assert (amount c < amount b) as Hlt.
  { eapply StronglySorted_app_1_elem_of; [done | by apply list_elem_of_fmap_2 |].
    simpl. apply list_elem_of_here. }
  unfold outranks. by rewrite (proj2 (Z.ltb_lt _ _) Hlt).
Qed.

(** X2. The leading bid is the most recent one: while the amounts bid on an
    auction are strictly increasing in insertion order (as every run keeps
    them), the bid with the highest amount, which bidding and settlement
    use, is the last bid inserted for the auction. *)
Theorem highest_bid_is_latest (aid : Z) (st : db) :
  StronglySorted Z.lt (bid_amounts aid st) →
  highest_bid aid (auction_bids st) =
    last (filter (λ b, auction_id b = aid) (auction_bids st)).
Proof. intros Hsorted. by apply first_ranked_increasing. Qed.

Lemma highest_bid_is_latest_witness :
  highest_bid 1 (auction_bids contested_db) =
    last (filter (λ b, auction_id b = 1) (auction_bids contested_db)).
Proof.
  apply (highest_bid_is_latest 1 contested_db).
  vm_compute. repeat constructor.
Defined.

(** ** What a sweep settles and what it leaves alone *)

Lemma finalize_one_other st aid x :
  x ≠ aid →
  find_auction x (auctions (finalize_one st aid)) = find_auction x (auctions st).
Proof.
  intros Hne. destruct (finalize_one_tables st aid) as (_ & _ & f & Hf & ->).
  rewrite find_update_auction by (intros ?; apply Hf).
  rewrite decide_False by done. by destruct (find_auction x (auctions st)).
Qed.

Lemma foldl_finalize_one_other ids st x :
  x ∉ ids →
  find_auction x (auctions (foldl finalize_one st ids))
    = find_auction x (auctions st).
Proof.
  revert st. induction ids as [|aid ids IH]; intros st Hx; [done |].
  apply not_elem_of_cons in Hx as [Hne Hx]. simpl.
  rewrite IH by done. by apply finalize_one_other.
Qed.

Lemma auction_bids_finalize_one st aid :
  auction_bids (finalize_one st aid) = auction_bids st.
Proof. by destruct (finalize_one_tables st aid) as (-> & _). Qed.

Lemma foldl_finalize_one_settles ids st x a :
  NoDup ids → x ∈ ids →
  find_auction x (auctions st) = Some a → transferred a = false →
  find_auction x (auctions (foldl finalize_one st ids))
    = Some (settled_row (auction_bids st) a).
Proof.
  revert st. induction ids as [|aid ids IH]; intros st Hnd Hx Hf Hflag.
  { by apply elem_of_nil in Hx. }
  apply NoDup_cons in Hnd as [Hfresh Hnd]. simpl.
  destruct (decide (x = aid)) as [-> | Hne].
  - rewrite foldl_finalize_one_other by done.
    rewrite (finalize_one_unflagged _ _ a) by done.
    destruct (find_auction_Some _ _ _ Hf) as [_ Hid].
    unfold settled_row. rewrite Hid.
    destruct (highest_bid aid (auction_bids st)); simpl;
      rewrite find_update_auction by done;
      by rewrite Hf, decide_True.
  - apply elem_of_cons in Hx as [? | Hx]; [done |].
    rewrite <- (auction_bids_finalize_one st aid).
    apply IH; [done | done | | done].
    by rewrite finalize_one_other.
Qed.

(** X3. What a sweep does to an expired auction: on well-formed tables,
    every auction that is active with its end time at or before the sweep's
    reading of the clock comes out finished and transferred, with the
    bidder and the amount of its highest bid as winner and final price, or
    without winner when nobody has bid; its other columns are unchanged. *)
Theorem sweep_settles (now : Z) (st : db) (a : auction) :
  wf st → a ∈ auctions st → status a = active → end_iso a ≤ now →
  find_auction (a_id a) (auctions (finalize_expired_auctions now st))
    = Some (settled_row (auction_bids st) a) ∧
  status (settled_row (auction_bids st) a) = finished ∧
  transferred (settled_row (auction_bids st) a) = true ∧
  auction_key (settled_row (auction_bids st) a) = auction_key a ∧
  end_iso (settled_row (auction_bids st) a) = end_iso a ∧
  match highest_bid (a_id a) (auction_bids st) with
  | Some b =>
      winner_id (settled_row (auction_bids st) a) = Some (bidder_id b) ∧
      final_price (settled_row (auction_bids st) a) = Some (amount b)
  | None =>
      winner_id (settled_row (auction_bids st) a) = winner_id a ∧
      final_price (settled_row (auction_bids st) a) = final_price a
  end.
Proof.
  intros Hwf Hin Hact Hend. split.
  - unfold finalize_expired_auctions.
    destruct (pending_expired_ids now st Hwf) as [Hnd _].
    apply foldl_finalize_one_settles; [done | | |].
    + unfold expired_ids. by apply list_elem_of_fmap_2, list_elem_of_filter.
    + apply find_auction_elem; [apply Hwf | done].
    + by eapply wf_flag_active.
  - unfold settled_row.
    by destruct (highest_bid (a_id a) (auction_bids st)).
Qed.

Lemma contested_db_wf : wf contested_db.
Proof. apply run_wf; [apply demo_db_wf | repeat constructor; simpl; lia]. Defined.

Lemma sweep_settles_witness :
  find_auction (a_id contested_row)
    (auctions (finalize_expired_auctions 20000000 contested_db))
    = Some (settled_row (auction_bids contested_db) contested_row) ∧
  status (settled_row (auction_bids contested_db) contested_row) = finished ∧
  transferred (settled_row (auction_bids contested_db) contested_row) = true ∧
  auction_key (settled_row (auction_bids contested_db) contested_row)
    = auction_key contested_row ∧
  end_iso (settled_row (auction_bids contested_db) contested_row)
    = end_iso contested_row ∧
  match highest_bid (a_id contested_row) (auction_bids contested_db) with
  | Some b =>
      winner_id (settled_row (auction_bids contested_db) contested_row)
        = Some (bidder_id b) ∧
      final_price (settled_row (auction_bids contested_db) contested_row)
        = Some (amount b)
  | None =>
      winner_id (settled_row (auction_bids contested_db) contested_row)
        = winner_id contested_row ∧
      final_price (settled_row (auction_bids contested_db) contested_row)
        = final_price contested_row
  end.
Proof.
  apply (sweep_settles 20000000 contested_db contested_row contested_db_wf).
  - vm_compute. apply list_elem_of_here.
  - reflexivity.
  - simpl. lia.
Defined.

Lemma not_expired_not_selected now l x a :
  NoDup (a_id <$> l) → find_auction x l = Some a →
  status a = finished ∨ now < end_iso a →
  x ∉ expired_ids now l.
Proof.
  intros Hnd Hf Hrow. unfold expired_ids.
  intros (a0 & -> & [[Hact Hend] Hin]%list_elem_of_filter)%list_elem_of_fmap.
  rewrite (find_auction_elem l a0 Hnd Hin) in Hf. injection Hf as ->.
  destruct Hrow; [congruence | lia].
Qed.

(** X4. What a sweep leaves alone: with unique auction ids, the row of an
    auction that is already finished, or whose end time is after the
    sweep's reading of the clock, is the same after the sweep; the sweep
    reads [auction_bids] and [waifu_cards] and writes neither. *)
Theorem sweep_spares (now x : Z) (st : db) (a : auction) :
  NoDup (a_id <$> auctions st) →
  find_auction x (auctions st) = Some a →
  status a = finished ∨ now < end_iso a →
  find_auction x (auctions (finalize_expired_auctions now st)) = Some a ∧
  auction_bids (finalize_expired_auctions now st) = auction_bids st ∧
  waifu_cards (finalize_expired_auctions now st) = waifu_cards st.
Proof.
  intros Hnd Hf Hrow. split_and!.
  - unfold finalize_expired_auctions.
    rewrite foldl_finalize_one_other; [done |].
    by eapply not_expired_not_selected.
  - apply finalize_auction_bids.
  - apply finalize_waifu_cards.
Qed.

Lemma sweep_spares_witness :
  find_auction 1 (auctions (finalize_expired_auctions 12000000 contested_db))
    = Some contested_row ∧
  auction_bids (finalize_expired_auctions 12000000 contested_db)
    = auction_bids contested_db ∧
  waifu_cards (finalize_expired_auctions 12000000 contested_db)
    = waifu_cards contested_db.
Proof.
  apply (sweep_spares 12000000 1 contested_db contested_row).
  - apply contested_db_wf.
  - reflexivity.
  - right. simpl. lia.
Defined.

(** ** Round trips *)

Lemma add_amount_back r : add_amount 1 (add_amount (-1) r) = r.
Proof. destruct r as [n lc]. unfold add_amount. simpl. f_equal. lia. Qed.

(** Giving back a reserved copy: the row as it was when more than one copy
    was held, a new row without [last_collected] when the last copy had been
    taken. *)
Lemma add_to_inventory_reserve_one u wid r st :
  user_waifus (add_to_inventory u wid (reserve_one u wid r st)) =
    <[(u, wid) := if decide (1 < uw_amount r) then r else first_copy]>
      (user_waifus st).
Proof.
  unfold add_to_inventory, reserve_one. case_decide; simpl.
  - rewrite lookup_insert_eq. simpl. rewrite insert_insert_eq.
    by rewrite add_amount_back.
  - rewrite lookup_delete_eq. simpl. by rewrite insert_delete_eq.
Qed.

Lemma find_auction_app_l x l l' a :
  find_auction x l = Some a → find_auction x (l ++ l') = Some a.
Proof.
  induction l as [|y l IH]; simpl; [done |]. by case_decide.
Qed.

(** X5. An auction nobody bids on gives the card back.  When a seller
    starts an auction on well-formed tables in which nothing else is due,
    and a sweep runs once the auction has ended, every inventory row counts
    the copies it counted before the auction was started, the wallets and
    the bids are exactly as before, and the auction is finished without a
    winner.  The seller's row is the row it was when they held more than one
    copy; when they auctioned their last copy the row was deleted and comes
    back with [last_collected] NULL, so that [user_waifus] is exactly as
    before only when the seller held more than one copy or the column was
    already NULL. *)
Theorem unsold_round_trip (start now u wid p aid : Z) (st st1 : db) :
  wf st → expired_ids now (auctions st) = [] →
  create_auction start u wid p st = (AuctionStarted aid, st1) →
  start + timedelta BID_TIMEOUT_SECONDS ≤ now →
  let st2 := finalize_expired_auctions now st1 in
  (∃ r, user_waifus st !! (u, wid) = Some r ∧ 0 < uw_amount r ∧
        user_waifus st2 =
          <[(u, wid) := if decide (1 < uw_amount r) then r
                        else mk_user_waifu 1 None]> (user_waifus st) ∧
        (user_waifus st2 = user_waifus st ↔
         1 < uw_amount r ∨ last_collected r = None)) ∧
  (∀ k, uw_amount <$> user_waifus st2 !! k = uw_amount <$> user_waifus st !! k) ∧
  crystals st2 = crystals st ∧
  auction_bids st2 = auction_bids st ∧
  ∃ a', find_auction aid (auctions st2) = Some a' ∧ status a' = finished ∧
        transferred a' = true ∧ winner_id a' = None ∧ final_price a' = None.
Proof.
  intros Hwf Hdue Hrun Hend st2.
  destruct (create_auction_creation start u wid p st)
    as [Hno | r Hr Hpos Hw | r w Hr Hpos Hw Hp | r w Hr Hpos Hw Hp];
    [done | done | done |].
  injection Hrun as <- <-.
  destruct (reserve_one_tables u wid r st) as (Hc & _ & Ha & Hb).
  set (row := new_auction (next_id (auctions st)) wid u start p w).
  set (st1 := set_auctions (auctions st ++ [row]) (reserve_one u wid r st)) in *.
  assert (find_auction (next_id (auctions st)) (auctions st1) = Some row) as Hf
    by (by apply find_auction_snoc_fresh; [apply next_id_fresh |]).
  assert (highest_bid (next_id (auctions st)) (auction_bids st1) = None) as Htop.
  { apply highest_bid_no_bids. simpl. rewrite Hb. intros b Hin Heq.
    apply (next_id_fresh (auctions st)). rewrite <- Heq. by apply Hwf. }
  assert (st2 = finalize_one st1 (next_id (auctions st))) as ->.
  { unfold st2, finalize_expired_auctions, expired_ids. simpl.
    rewrite filter_app. fold (expired_ids now (auctions st)).
    unfold expired_ids in Hdue. apply fmap_nil_inv in Hdue. rewrite Hdue.
    rewrite filter_cons_True by (split; [done | simpl; lia]). done. }
  rewrite (finalize_one_unflagged _ _ row) by done. rewrite Htop. simpl.
  assert (user_waifus (add_to_inventory u wid st1) =
          <[(u, wid) := if decide (1 < uw_amount r) then r
                        else mk_user_waifu 1 None]> (user_waifus st)) as Hinv.
  { change (mk_user_waifu 1 None) with first_copy.
    rewrite <- (add_to_inventory_reserve_one u wid r st).
    unfold add_to_inventory, st1. simpl. by case_match. }
  split_and!.
  - exists r. split_and!; [done | done | done |]. rewrite Hinv. split.
    + intros Heq. destruct (decide (1 < uw_amount r)) as [Hgt | Hle];
        [by left | right].
      assert (<[(u, wid) := mk_user_waifu 1 None]> (user_waifus st) !! (u, wid)
              = Some r) as Hlook by (by rewrite Heq).
      rewrite lookup_insert_eq in Hlook. by injection Hlook as <-.
    + intros [Hgt | Hnull].
      * rewrite decide_True by done. by apply insert_id.
      * case_decide; apply insert_id; [done |].
        rewrite Hr. f_equal. destruct r as [n lc]. simpl in *. subst lc.
        f_equal. lia.
  - intros k. rewrite Hinv. destruct (decide ((u, wid) = k)) as [<- | Hne].
    + rewrite lookup_insert_eq, Hr. simpl. case_decide; [done |].
      simpl. f_equal. lia.
    + by rewrite lookup_insert_ne.
  - unfold add_to_inventory.
    destruct (user_waifus st1 !! (u, wid)); simpl; exact Hc.
  - unfold add_to_inventory.
    destruct (user_waifus st1 !! (u, wid)); simpl; exact Hb.
  - exists (mark_unsold row). split; [| done].
    rewrite find_update_auction by done. rewrite decide_True by done.
    fold st1 in Hf. simpl in Hf. by rewrite Hf.
Qed.

Lemma unsold_round_trip_witness :
  let st2 := finalize_expired_auctions 10000000
               (create_auction 0 1 12 50000 demo_db).2 in
  (∃ r, user_waifus demo_db !! (1, 12) = Some r ∧ 0 < uw_amount r ∧
        user_waifus st2 =
          <[(1, 12) := if decide (1 < uw_amount r) then r
                       else mk_user_waifu 1 None]> (user_waifus demo_db) ∧
        (user_waifus st2 = user_waifus demo_db ↔
         1 < uw_amount r ∨ last_collected r = None)) ∧
  (∀ k, uw_amount <$> user_waifus st2 !! k
        = uw_amount <$> user_waifus demo_db !! k) ∧
  crystals st2 = crystals demo_db ∧
  auction_bids st2 = auction_bids demo_db ∧
  ∃ a', find_auction 1 (auctions st2) = Some a' ∧ status a' = finished ∧
        transferred a' = true ∧ winner_id a' = None ∧ final_price a' = None.
Proof.
  apply (unsold_round_trip 0 10000000 1 12 50000 1 demo_db
           (create_auction 0 1 12 50000 demo_db).2 demo_db_wf).
  - reflexivity.
  - reflexivity.
  - unfold timedelta, BID_TIMEOUT_SECONDS. lia.
Defined.

(** In the example the seller's only copy of card 12 had been collected at
    1700000000: after the round trip the row counts one copy again and its
    [last_collected] is NULL. *)
Lemma unsold_round_trip_loses_stamp :
  user_waifus demo_db !! (1, 12) = Some (mk_user_waifu 1 (Some 1700000000)) ∧
  user_waifus (finalize_expired_auctions 10000000
                 (create_auction 0 1 12 50000 demo_db).2) !! (1, 12)
    = Some (mk_user_waifu 1 None).
Proof. vm_compute. done. Qed.

Lemma accept_bid_leads c u aid amt st a :
  beats amt (highest_bid aid (auction_bids st)) a →
  highest_bid aid
    (auction_bids (accept_bid c u aid amt (highest_bid aid (auction_bids st)) st))
  = Some (mk_bid aid u amt (at_bid c)).
Proof.
  intros Hbeats. unfold accept_bid. simpl.
  destruct (move_funds_tables u amt (highest_bid aid (auction_bids st)) st)
    as (_ & _ & _ & ->).
  apply highest_bid_raise; [done |].
  intros top Htop. by rewrite Htop in Hbeats.
Qed.

(** X6. An accepted bid becomes the leading bid.  After [place_bid] has
    accepted a bid, the query for the highest bid of the auction returns
    that bid: the bidder, the amount and the timestamp of the call.  If the
    tables are well-formed and the next thing to happen to the auction is a
    sweep after its new end time, the bidder is the winner and the amount is
    the final price. *)
Theorem accepted_bid_leads_and_wins (c : bid_clock) (u aid amt now : Z)
    (st st' : db) :
  wf st → u ≠ 0 →
  place_bid c u aid amt st = (BidPlaced, st') →
  at_extend c + timedelta BID_TIMEOUT_SECONDS ≤ now →
  highest_bid aid (auction_bids st') = Some (mk_bid aid u amt (at_bid c)) ∧
  ∃ a', find_auction aid (auctions (finalize_expired_auctions now st'))
          = Some a' ∧
        status a' = finished ∧ winner_id a' = Some u ∧
        final_price a' = Some amt.
Proof.
  intros Hwf Hu Hrun Hend.
  destruct (place_bid_bidding c u aid amt st) as [r Hr | a Hf Hs He Hfunds Hbeats];
    [by injection Hrun as -> _ |].
  injection Hrun as <-.
  assert (highest_bid aid
            (auction_bids
               (accept_bid c u aid amt (highest_bid aid (auction_bids st)) st))
          = Some (mk_bid aid u amt (at_bid c))) as Hlead
    by (by eapply accept_bid_leads).
  split; [done |].
  set (st' := accept_bid c u aid amt (highest_bid aid (auction_bids st)) st) in *.
  assert (wf st') as Hwf' by (by eapply accept_bid_wf).
  set (row := set_end_iso (at_extend c + timedelta BID_TIMEOUT_SECONDS) a).
  assert (find_auction aid (auctions st') = Some row) as Hrow.
  { unfold st', accept_bid. simpl.
    destruct (move_funds_tables u amt (highest_bid aid (auction_bids st)) st)
      as (_ & _ & -> & _).
    rewrite find_update_auction by done. by rewrite Hf, decide_True. }
  destruct (find_auction_Some _ _ _ Hrow) as [Hin Hid].
  exists (settled_row (auction_bids st') row).
  split.
  - unfold finalize_expired_auctions.
    destruct (pending_expired_ids now st' Hwf') as [Hnd _].
    apply foldl_finalize_one_settles; [done | | done |].
    + unfold expired_ids. rewrite <- Hid.
      apply list_elem_of_fmap_2, list_elem_of_filter. done.
    + by eapply wf_flag_active.
  - unfold settled_row. rewrite Hid, Hlead. done.
Qed.

Lemma accepted_bid_leads_and_wins_witness :
  highest_bid 1
    (auction_bids (place_bid (at_time 2000000) 3 1 60000 bidding_db).2)
    = Some (mk_bid 1 3 60000 (at_bid (at_time 2000000))) ∧
  ∃ a', find_auction 1
          (auctions (finalize_expired_auctions 30000000
                       (place_bid (at_time 2000000) 3 1 60000 bidding_db).2))
          = Some a' ∧
        status a' = finished ∧ winner_id a' = Some 3 ∧
        final_price a' = Some 60000.
Proof.
  apply (accepted_bid_leads_and_wins (at_time 2000000) 3 1 60000 30000000
           bidding_db).
  - apply run_wf; [apply demo_db_wf | repeat constructor; simpl; lia].
  - lia.
  - reflexivity.
  - unfold timedelta, BID_TIMEOUT_SECONDS. simpl. lia.
Defined.

(** X7. Being outbid gives the money back.  When a bid by [u] is accepted
    and the next accepted bid on the auction comes from someone else, the
    balance of [u] after the second bid is the balance after their own bid
    plus the whole amount they had bid; if [u] was not leading before their
    bid, that is exactly the balance they had before bidding. *)
Theorem outbid_restores_balance (c1 c2 : bid_clock) (u v aid x y : Z)
    (st st1 st2 : db) :
  u ≠ 0 → u ≠ v →
  place_bid c1 u aid x st = (BidPlaced, st1) →
  place_bid c2 v aid y st1 = (BidPlaced, st2) →
  get_crystals u st2 = get_crystals u st1 + x ∧
  ((∀ top, highest_bid aid (auction_bids st) = Some top → bidder_id top ≠ u) →
   get_crystals u st2 = get_crystals u st).
Proof.
  intros Hu Huv Hrun1 Hrun2.
  destruct (place_bid_bidding c1 u aid x st) as [r Hr | a Hf Hs He Hfunds Hbeats];
    [by injection Hrun1 as -> _ |].
  injection Hrun1 as <-.
  assert (highest_bid aid
            (auction_bids
               (accept_bid c1 u aid x (highest_bid aid (auction_bids st)) st))
          = Some (mk_bid aid u x (at_bid c1))) as Hlead
    by (by eapply accept_bid_leads).
  set (st1 := accept_bid c1 u aid x (highest_bid aid (auction_bids st)) st) in *.
  destruct (place_bid_bidding c2 v aid y st1) as [r Hr | a1 _ _ _ _ _];
    [by injection Hrun2 as -> _ |].
  rewrite Hlead in Hrun2. injection Hrun2 as <-.
  assert (get_crystals u
            (accept_bid c2 v aid y (Some (mk_bid aid u x (at_bid c1))) st1)
          = get_crystals u st1 + x) as Hback.
  { rewrite get_crystals_accept_bid. unfold move_funds. simpl.
    rewrite decide_False by done. rewrite decide_True by done.
    rewrite !get_crystals_add_crystals. repeat case_decide; lia. }
  split; [done |]. intros Hother. rewrite Hback.
  unfold st1. rewrite get_crystals_accept_bid. unfold move_funds.
  destruct (highest_bid aid (auction_bids st)) as [top|] eqn:Htop.
  - rewrite decide_False by (by apply Hother).
    case_decide; rewrite !get_crystals_add_crystals;
      repeat case_decide; try lia; by destruct (Hother top eq_refl).
  - rewrite get_crystals_add_crystals. rewrite decide_True by done. lia.
Qed.

Lemma outbid_restores_balance_witness :
  get_crystals 2 (place_bid (at_time 2000000) 3 1 60000 bidding_db).2
    = get_crystals 2 bidding_db + 50000 ∧
  ((∀ top, highest_bid 1 (auction_bids started_db) = Some top →
           bidder_id top ≠ 2) →
   get_crystals 2 (place_bid (at_time 2000000) 3 1 60000 bidding_db).2
     = get_crystals 2 started_db).
Proof.
  apply (outbid_restores_balance (at_time 1000000) (at_time 2000000)
           2 3 1 50000 60000 started_db bidding_db
           (place_bid (at_time 2000000) 3 1 60000 bidding_db).2).
  - lia.
  - lia.
  - reflexivity.
  - reflexivity.
Defined.

(** ** Solvency *)

Lemma solvent_same st st' :
  crystals st' = crystals st → auctions st' = auctions st →
  auction_bids st' = auction_bids st → solvent st → solvent st'.
Proof.
  intros Hc Ha Hb [Hw Hp Hbids]. split.
  - intros u. specialize (Hw u). unfold get_crystals in *. by rewrite Hc.
  - by rewrite Ha.
  - by rewrite Hb.
Qed.

Lemma solvent_add_crystals u x st :
  solvent st → 0 ≤ x → solvent (add_crystals u x st).
Proof.
  intros [Hw Hp Hbids] Hx. split; [| done | done].
  intros v. rewrite get_crystals_add_crystals. specialize (Hw v).
  case_decide; lia.
Qed.

Lemma solvent_update aid f st :
  solvent st →
  (∀ a, a ∈ auctions st →
        0 ≤ min_price (f a) ∧ ∀ p, final_price (f a) = Some p → 0 ≤ p) →
  solvent (set_auctions (update_auction aid f (auctions st)) st).
Proof.
  intros [Hw Hp Hbids] Hf. split; [done | | done].
  intros a' (a & -> & Hin)%list_elem_of_fmap.
  case_decide; [by apply Hf | by apply Hp].
Qed.

Lemma highest_bid_elem aid bids b :
  highest_bid aid bids = Some b → b ∈ bids.
Proof.
  unfold highest_bid. intros [Hin _]%first_ranked_max.
  by apply list_elem_of_filter in Hin as [_ ?].
Qed.

Lemma finalize_one_solvent st aid : solvent st → solvent (finalize_one st aid).
Proof.
  intros Hsol. unfold finalize_one.
  destruct (find_auction aid (auctions st)) as [a|] eqn:Hf.
  - destruct (highest_bid aid (auction_bids st)) as [b|] eqn:Htop.
    + assert (0 ≤ amount b) as Hb
        by (eapply solvent_bids; [done | by eapply highest_bid_elem]).
      set (st1 := settle_grant aid (waifu_id a) (bidder_id b) st).
      assert (solvent st1) as Hsol1.
      { apply (solvent_same st); [| | | done];
          unfold st1, settle_grant; by repeat case_match. }
      set (st2 := settle_credit aid (seller_id a) (amount b) st1).
      assert (solvent st2) as Hsol2.
      { unfold st2, settle_credit. case_match; [done |].
        by apply solvent_add_crystals. }
      unfold settle_mark. apply solvent_update; [done |].
      intros x Hx. simpl. split; [by apply Hsol2 |]. by intros p [= <-].
    + assert (solvent (add_to_inventory (seller_id a) (waifu_id a) st)) as Hsol1.
      { apply (solvent_same st); [| | | done];
          unfold add_to_inventory; by case_match. }
      rewrite <- (auctions_add_to_inventory (seller_id a) (waifu_id a) st).
      apply solvent_update; [done |].
      intros x Hx. simpl. by apply Hsol1.
  - apply solvent_update; [done |]. intros x Hx. simpl. by apply Hsol.
Qed.

Lemma finalize_solvent now st :
  solvent st → solvent (finalize_expired_auctions now st).
Proof.
  unfold finalize_expired_auctions.
  generalize (expired_ids now (auctions st)). intros ids. revert st.
  induction ids as [|aid ids IH]; intros st Hsol; [done |].
  simpl. by apply IH, finalize_one_solvent.
Qed.

Lemma create_auction_solvent start u wid p st :
  solvent st → 0 ≤ p → solvent (create_auction start u wid p st).2.
Proof.
  intros Hsol Hp0.
  destruct (create_auction_creation start u wid p st)
    as [Hno | n Hn Hpos Hw | n w Hn Hpos Hw Hp | n w Hn Hpos Hw Hp]; simpl; [done | | |];
    destruct (reserve_one_tables u wid n st) as (Hc & _ & Ha & Hb).
  - by apply (solvent_same st).
  - by apply (solvent_same st).
  - assert (solvent (reserve_one u wid n st)) as [Hw1 Hp1 Hb1]
      by (by apply (solvent_same st)).
    split; [done | | done]. simpl.
    intros a [Hin | ->%list_elem_of_singleton]%elem_of_app; [by apply Hsol |].
    simpl. split; [done | by intros ?].
Qed.

Lemma place_bid_solvent c u aid amt st :
  solvent st → solvent (place_bid c u aid amt st).2.
Proof.
  intros Hsol.
  destruct (place_bid_bidding c u aid amt st) as [| a Hf Hs He Hfunds Hbeats];
    simpl; [done |].
  destruct (find_auction_Some _ _ _ Hf) as [Hin _].
  assert (0 ≤ min_price a) as Hmin by (by apply Hsol).
  unfold accept_bid.
  destruct (move_funds_tables u amt (highest_bid aid (auction_bids st)) st)
    as (_ & _ & Ha & Hb).
  set (st1 := move_funds u amt (highest_bid aid (auction_bids st)) st) in *.
  assert (0 ≤ amt ∧ ∀ v, 0 ≤ get_crystals v st1) as [Hamt Hw1].
  { unfold st1, move_funds, available_funds, beats in *.
    destruct (highest_bid aid (auction_bids st)) as [top|] eqn:Htop.
    - assert (0 ≤ amount top) as Htopamt
        by (eapply solvent_bids; [done | by eapply highest_bid_elem]).
      split; [lia |]. intros v. pose proof (solvent_wallets _ Hsol v).
      pose proof (solvent_wallets _ Hsol u).
      repeat case_decide; rewrite ?get_crystals_add_crystals;
        repeat case_decide; subst; lia.
    - split; [lia |]. intros v. pose proof (solvent_wallets _ Hsol v).
      rewrite get_crystals_add_crystals. case_decide; subst; lia. }
  split; simpl.
  - done.
  - rewrite Ha. intros a' (a0 & -> & Hin0)%list_elem_of_fmap.
    case_decide; simpl; by apply Hsol.
  - rewrite Hb. intros b [Hinb | ->%list_elem_of_singleton]%elem_of_app;
      [by apply Hsol | done].
Qed.

Lemma truthy_Some x v : truthy x = Some v → x = Some v.
Proof. unfold truthy. destruct x; [by case_decide | done]. Qed.

Lemma manual_solvent aid st :
  solvent st → solvent (auction_claim_cb aid st).2 ∧
               solvent (auction_credit_cb aid st).2.
Proof.
  intros Hsol. split.
  - unfold auction_claim_cb. repeat case_match; simpl; try done.
    rewrite <- (auctions_add_to_inventory z (waifu_id a) st).
    apply solvent_update.
    + apply (solvent_same st); [| | | done];
        unfold add_to_inventory; by case_match.
    + rewrite auctions_add_to_inventory. intros x Hx. simpl. by apply Hsol.
  - unfold auction_credit_cb. repeat case_match; simpl; try done.
    match goal with H : find_auction _ _ = Some ?r |- _ =>
      destruct (find_auction_Some _ _ _ H) as [Hin _] end.
    match goal with H : truthy _ = Some _ |- _ =>
      apply truthy_Some in H; rename H into Hprice end.
    change (auctions st) with (auctions (add_crystals (seller_id a) z st)).
    apply solvent_update.
    + apply solvent_add_crystals; [done |].
      eapply (proj2 (solvent_prices _ Hsol a Hin)). done.
    + intros x Hx. simpl. by apply Hsol.
Qed.

Lemma step_solvent st o : solvent st → priced_op o → solvent (step st o).
Proof.
  intros Hsol Ho. destruct o as [sweep start u w p | c u a x | now | a | a]; simpl.
  - apply create_auction_solvent; [by apply finalize_solvent | done].
  - destruct (bid_handler_state c u a x st) as [-> | ->].
    + by apply place_bid_solvent, finalize_solvent.
    + by apply finalize_solvent, place_bid_solvent, finalize_solvent.
  - by apply finalize_solvent.
  - by apply manual_solvent.
  - by apply manual_solvent.
Qed.

(** X8. No overdraft.  From tables in which no balance, no minimum or final
    price and no bid is negative, every run of the engine that starts
    auctions at non-negative minimum prices leaves them so: no wallet is
    ever overdrawn by a bid, a refund or a settlement, and no negative bid is
    ever recorded. *)
Theorem no_overdraft (ops : list op) (st : db) :
  solvent st → Forall priced_op ops → solvent (run ops st).
Proof.
  revert st. induction ops as [|o ops IH]; intros st Hsol Hops; [done |].
  apply Forall_cons in Hops as [Ho Hops]. simpl.
  apply IH; [by apply step_solvent | done].
Qed.

Lemma demo_db_solvent : solvent demo_db.
Proof.
  split.
  - intros u. unfold get_crystals, demo_db. simpl.
    destruct (decide (u = 1)) as [-> | ?]; [done |].
    destruct (decide (u = 2)) as [-> | ?]; [done |].
    destruct (decide (u = 3)) as [-> | ?]; [done |].
    rewrite !lookup_insert_ne by done. by rewrite lookup_singleton_ne.
  - intros a Ha. by apply elem_of_nil in Ha.
  - intros b Hb. by apply elem_of_nil in Hb.
Defined.

Lemma no_overdraft_witness : solvent (run demo_ops demo_db).
Proof.
  apply (no_overdraft demo_ops demo_db demo_db_solvent).
  repeat constructor; simpl; lia.
Defined.

(** X9. Prices are not validated.  Neither [auction_handler] nor
    [bid_handler] requires a positive price: on an active auction without
    bids whose minimum price is negative, a negative bid at or above that
    minimum by a user who is not in debt is accepted, and it raises the
    bidder's balance by the absolute value of the bid. *)
Theorem negative_bid_pays_bidder (c : bid_clock) (u aid amt : Z) (st : db)
    (a : auction) :
  find_auction aid (auctions st) = Some a → status a = active →
  at_check c < end_iso a →
  highest_bid aid (auction_bids st) = None →
  min_price a ≤ amt → amt < 0 → 0 ≤ get_crystals u st →
  (place_bid c u aid amt st).1 = BidPlaced ∧
  get_crystals u (place_bid c u aid amt st).2 = get_crystals u st - amt ∧
  get_crystals u st < get_crystals u (place_bid c u aid amt st).2.
Proof.
  intros Hf Hact Hend Htop Hmin Hneg Hbal.
  assert (place_bid c u aid amt st =
          (BidPlaced, accept_bid c u aid amt None st)) as ->.
  { unfold place_bid. rewrite Hf, Hact, Htop.
    rewrite decide_False by (by intros ?).
    rewrite decide_False by lia.
    rewrite decide_False by (unfold available_funds; lia).
    by rewrite decide_False by lia. }
  simpl. rewrite get_crystals_accept_bid. unfold move_funds.
  rewrite get_crystals_add_crystals. rewrite decide_True by done.
  split_and!; [done | lia | lia].
Qed.

Lemma negative_bid_pays_bidder_witness :
  (place_bid (at_time 1000000) 2 1 (-30000) underpriced_db).1 = BidPlaced ∧
  get_crystals 2 (place_bid (at_time 1000000) 2 1 (-30000) underpriced_db).2
    = get_crystals 2 underpriced_db - -30000 ∧
  get_crystals 2 underpriced_db
    < get_crystals 2 (place_bid (at_time 1000000) 2 1 (-30000) underpriced_db).2.
Proof.
  apply (negative_bid_pays_bidder (at_time 1000000) 2 1 (-30000)
           underpriced_db underpriced_row).
  - reflexivity.
  - reflexivity.
  - simpl. lia.
  - reflexivity.
  - simpl. lia.
  - lia.
  - vm_compute. discriminate.
Defined.

(** ** What never changes *)

Lemma place_bid_find c u aid amt st x a :
  find_auction x (auctions st) = Some a → status a = finished ∨ x ≠ aid →
  find_auction x (auctions (place_bid c u aid amt st).2) = Some a.
Proof.
  intros Hx Hrow.
  destruct (place_bid_bidding c u aid amt st) as [| a0 Hf Hs He Hfunds Hbeats];
    simpl; [done |].
  unfold accept_bid. simpl.
  destruct (move_funds_tables u amt (highest_bid aid (auction_bids st)) st)
    as (_ & _ & -> & _).
  rewrite find_update_auction by done. rewrite Hx. simpl.
  case_decide; [| done]. subst x. destruct Hrow; [| done]. congruence.
Qed.

Lemma create_auction_find start u wid p st x a :
  find_auction x (auctions st) = Some a →
  find_auction x (auctions (create_auction start u wid p st).2) = Some a.
Proof.
  intros Hx.
  destruct (create_auction_creation start u wid p st)
    as [Hno | n Hn Hpos Hw | n w Hn Hpos Hw Hp | n w Hn Hpos Hw Hp]; simpl; [done | | |].
  - by destruct (reserve_one_tables u wid n st) as (_ & _ & -> & _).
  - by destruct (reserve_one_tables u wid n st) as (_ & _ & -> & _).
  - by apply find_auction_app_l.
Qed.

Lemma step_finished st o x a :
  wf st → valid_op o →
  find_auction x (auctions st) = Some a → status a = finished →
  find_auction x (auctions (step st o)) = Some a.
Proof.
  intros Hwf Ho Hx Hfin.
  assert (∀ now s, wf s → find_auction x (auctions s) = Some a →
            find_auction x (auctions (finalize_expired_auctions now s)) = Some a)
    as Hsweep.
  { intros now s Hs Hxs. unfold finalize_expired_auctions.
    rewrite foldl_finalize_one_other; [done |].
    eapply not_expired_not_selected; [apply Hs | done | by left]. }
  destruct o as [sweep start u w p | c u aid y | now | aid | aid]; simpl.
  - by apply create_auction_find, Hsweep.
  - assert (wf (finalize_expired_auctions (at_sweep c) st)) as Hwf1
      by (by apply finalize_wf).
    destruct (bid_handler_state c u aid y st) as [-> | ->].
    + apply place_bid_find; [by apply Hsweep | by left].
    + apply Hsweep; [by apply place_bid_wf |].
      apply place_bid_find; [by apply Hsweep | by left].
  - by apply Hsweep.
  - by rewrite auction_claim_cb_wf_noop.
  - by rewrite auction_credit_cb_wf_noop.
Qed.

(** X10. Finished is final: on well-formed tables, the row of a finished
    auction, with its winner, its final price, its end time and its flag, is
    the same after every run of the engine; no bid, sweep or manual callback
    reopens or rewrites it. *)
Theorem finished_is_final (ops : list op) (st : db) (x : Z) (a : auction) :
  wf st → Forall valid_op ops →
  find_auction x (auctions st) = Some a → status a = finished →
  find_auction x (auctions (run ops st)) = Some a.
Proof.
  revert st. induction ops as [|o ops IH]; intros st Hwf Hops Hx Hfin; [done |].
  apply Forall_cons in Hops as [Ho Hops]. simpl.
  apply IH; [by apply step_wf | done | by apply step_finished | done].
Qed.

Lemma finished_is_final_witness :
  find_auction 1
    (auctions (run [Bid (at_time 40000000) 3 1 90000; Claim 1; Credit 1;
                    Finalize 50000000] sold_db))
    = Some sold_row.
Proof.
  apply (finished_is_final
           [Bid (at_time 40000000) 3 1 90000; Claim 1; Credit 1;
            Finalize 50000000] sold_db 1 sold_row).
  - apply run_wf; [apply demo_db_wf | repeat constructor; simpl; lia].
  - repeat constructor; simpl; lia.
  - reflexivity.
  - reflexivity.
Defined.

Lemma step_bids_prefix st o : auction_bids st `prefix_of` auction_bids (step st o).
Proof.
  destruct o as [sweep start u w p | c u a y | now | a | a];
    try (rewrite step_auction_bids by done; done).
  simpl.
  assert (auction_bids st `prefix_of`
            auction_bids (place_bid c u a y
                            (finalize_expired_auctions (at_sweep c) st)).2)
    as Hplace.
  { rewrite <- (finalize_auction_bids (at_sweep c) st) at 1.
    destruct (place_bid_bidding c u a y
                (finalize_expired_auctions (at_sweep c) st)); simpl; [done |].
    unfold accept_bid. simpl.
    destruct (move_funds_tables u y
                (highest_bid a (auction_bids
                                  (finalize_expired_auctions (at_sweep c) st)))
                (finalize_expired_auctions (at_sweep c) st))
      as (_ & _ & _ & ->).
    by apply prefix_app_r. }
  destruct (bid_handler_state c u a y st) as [-> | ->]; [done |].
  by rewrite finalize_auction_bids.
Qed.

(** X11. The bids are an append-only ledger: after every run of the engine
    the bids recorded before it are still there, unchanged and in the same
    order, at the head of [auction_bids]; the engine only ever adds rows at
    the end. *)
Theorem bids_append_only (ops : list op) (st : db) :
  auction_bids st `prefix_of` auction_bids (run ops st).
Proof.
  revert st. induction ops as [|o ops IH]; intros st; [done |].
  simpl. etrans; [apply step_bids_prefix | apply IH].
Qed.

Lemma auction_key_update aid f l :
  (∀ a, auction_key (f a) = auction_key a) →
  auction_key <$> update_auction aid f l = auction_key <$> l.
Proof.
  intros Hf. unfold update_auction. rewrite <- list_fmap_compose.
  apply list_fmap_ext. intros _ a _. simpl. by case_decide.
Qed.

Lemma finalize_one_keys st aid :
  auction_key <$> auctions (finalize_one st aid) = auction_key <$> auctions st.
Proof.
  unfold finalize_one. repeat case_match; simpl;
    rewrite ?auctions_settle_credit, ?auctions_settle_grant;
    by apply auction_key_update.
Qed.

Lemma finalize_keys now st :
  auction_key <$> auctions (finalize_expired_auctions now st)
    = auction_key <$> auctions st.
Proof.
  unfold finalize_expired_auctions.
  generalize (expired_ids now (auctions st)). intros ids. revert st.
  induction ids as [|aid ids IH]; intros st; [done |].
  simpl. by rewrite IH, finalize_one_keys.
Qed.

Lemma step_keys_prefix st o :
  (auction_key <$> auctions st) `prefix_of` (auction_key <$> auctions (step st o)).
Proof.
  destruct o as [sweep start u w p | c u a y | now | a | a]; simpl.
  - unfold auction_handler. rewrite <- (finalize_keys sweep st).
    destruct (create_auction_creation start u w p
                (finalize_expired_auctions sweep st))
      as [Hno | n Hn Hpos Hw | n w' Hn Hpos Hw Hp | n w' Hn Hpos Hw Hp];
      simpl; [done | | |].
    + by destruct (reserve_one_tables u w n
                     (finalize_expired_auctions sweep st)) as (_ & _ & -> & _).
    + by destruct (reserve_one_tables u w n
                     (finalize_expired_auctions sweep st)) as (_ & _ & -> & _).
    + rewrite fmap_app. by apply prefix_app_r.
  - assert (auction_key <$>
              auctions (place_bid c u a y
                          (finalize_expired_auctions (at_sweep c) st)).2
            = auction_key <$> auctions st) as Hplace.
    { rewrite <- (finalize_keys (at_sweep c) st).
      destruct (place_bid_bidding c u a y
                  (finalize_expired_auctions (at_sweep c) st)); simpl; [done |].
      unfold accept_bid. simpl.
      destruct (move_funds_tables u y
                  (highest_bid a (auction_bids
                                    (finalize_expired_auctions (at_sweep c) st)))
                  (finalize_expired_auctions (at_sweep c) st))
        as (_ & _ & -> & _).
      by apply auction_key_update. }
    destruct (bid_handler_state c u a y st) as [-> | ->];
      by rewrite ?finalize_keys, Hplace.
  - by rewrite finalize_keys.
  - unfold auction_claim_cb. repeat case_match; simpl; try done.
    by rewrite auction_key_update.
  - unfold auction_credit_cb. repeat case_match; simpl; try done.
    by rewrite auction_key_update.
Qed.

(** X12. Auctions are never deleted and never change hands: after every run
    of the engine, the auctions that existed before it are still the first
    rows of [auctions], in the same order, each with the same id, card,
    seller, start time, minimum price and card snapshot. *)
Theorem auctions_keep_identity (ops : list op) (st : db) :
  (auction_key <$> auctions st) `prefix_of`
    (auction_key <$> auctions (run ops st)).
Proof.
  revert st. induction ops as [|o ops IH]; intros st; [done |].
  simpl. etrans; [apply step_keys_prefix | apply IH].
Qed.

(** ** Inventories *)

Lemma stocked_insert st st' k v :
  stocked st → 0 < uw_amount v →
  user_waifus st' = <[k := v]> (user_waifus st) →
  stocked st'.
Proof.
  intros Hst Hv Heq j n. rewrite Heq.
  destruct (decide (k = j)) as [-> | Hne].
  - rewrite lookup_insert_eq. by intros [= <-].
  - rewrite lookup_insert_ne by done. apply Hst.
Qed.

Lemma stocked_same st st' : user_waifus st' = user_waifus st → stocked st → stocked st'.
Proof. intros Heq Hst j n. rewrite Heq. apply Hst. Qed.

Lemma add_to_inventory_stocked u w st :
  stocked st → stocked (add_to_inventory u w st).
Proof.
  intros Hst. unfold add_to_inventory.
  destruct (user_waifus st !! (u, w)) as [n|] eqn:Hn.
  - eapply (stocked_insert st); [done | | done]. specialize (Hst _ _ Hn).
    simpl. lia.
  - eapply (stocked_insert st); [done | | done]. simpl. lia.
Qed.

Lemma finalize_one_stocked st aid : stocked st → stocked (finalize_one st aid).
Proof.
  intros Hst. unfold finalize_one.
  destruct (find_auction aid (auctions st)) as [a|]; [| done].
  destruct (highest_bid aid (auction_bids st)) as [b|].
  - apply (stocked_same (settle_grant aid (waifu_id a) (bidder_id b) st)).
    { unfold settle_mark, settle_credit. simpl. by case_match. }
    unfold settle_grant.
    destruct (user_waifus st !! (bidder_id b, waifu_id a)) as [n|] eqn:Hn.
    + case_match; [done |].
      eapply (stocked_insert st); [done | | done]. specialize (Hst _ _ Hn).
      simpl. lia.
    + eapply (stocked_insert st); [done | | done]. simpl. lia.
  - apply (stocked_same (add_to_inventory (seller_id a) (waifu_id a) st));
      [done | by apply add_to_inventory_stocked].
Qed.

Lemma finalize_stocked now st :
  stocked st → stocked (finalize_expired_auctions now st).
Proof.
  unfold finalize_expired_auctions.
  generalize (expired_ids now (auctions st)). intros ids. revert st.
  induction ids as [|aid ids IH]; intros st Hst; [done |].
  simpl. by apply IH, finalize_one_stocked.
Qed.

Lemma create_auction_stocked start u wid p st :
  stocked st → stocked (create_auction start u wid p st).2.
Proof.
  intros Hst.
  assert (∀ n, user_waifus st !! (u, wid) = Some n →
            stocked (reserve_one u wid n st)) as Hres.
  { intros n Hn. unfold reserve_one. case_decide.
    - eapply (stocked_insert st); [done | | done]. simpl. lia.
    - intros j m. simpl. intros Hj.
      destruct (decide ((u, wid) = j)) as [<- | Hne].
      + by rewrite lookup_delete_eq in Hj.
      + rewrite lookup_delete_ne in Hj by done. by eapply Hst. }
  destruct (create_auction_creation start u wid p st)
    as [Hno | n Hn Hpos Hw | n w Hn Hpos Hw Hp | n w Hn Hpos Hw Hp]; simpl;
    [done | by apply Hres | by apply Hres |].
  apply (stocked_same (reserve_one u wid n st)); [done | by apply Hres].
Qed.

Lemma place_bid_user_waifus c u aid amt st :
  user_waifus (place_bid c u aid amt st).2 = user_waifus st.
Proof.
  destruct (place_bid_bidding c u aid amt st); simpl; [done |].
  unfold accept_bid. simpl.
  by destruct (move_funds_tables u amt (highest_bid aid (auction_bids st)) st)
    as (-> & _).
Qed.

Lemma step_stocked st o : stocked st → stocked (step st o).
Proof.
  intros Hst. destruct o as [sweep start u w p | c u a x | now | a | a]; simpl.
  - by apply create_auction_stocked, finalize_stocked.
  - destruct (bid_handler_state c u a x st) as [-> | ->].
    + eapply stocked_same; [apply place_bid_user_waifus |].
      by apply finalize_stocked.
    + apply finalize_stocked.
      eapply stocked_same; [apply place_bid_user_waifus |].
      by apply finalize_stocked.
  - by apply finalize_stocked.
  - unfold auction_claim_cb. repeat case_match; simpl; try done.
    apply (stocked_same (add_to_inventory z (waifu_id a0) st));
      [done | by apply add_to_inventory_stocked].
  - unfold auction_credit_cb. by repeat case_match.
Qed.

(** X13. No empty inventory rows: if every row of [user_waifus] counts at
    least one copy, it does so after every run of the engine.  Reserving the
    last copy deletes the row instead of leaving a count of zero, and every
    grant or return adds to a positive count or inserts a count of one. *)
Theorem inventory_rows_stay_positive (ops : list op) (st : db) :
  stocked st → stocked (run ops st).
Proof.
  revert st. induction ops as [|o ops IH]; intros st Hst; [done |].
  simpl. by apply IH, step_stocked.
Qed.

Lemma demo_db_stocked : stocked demo_db.
Proof.
  intros k n. unfold demo_db. simpl.
  destruct (decide (k = (1, 12))) as [-> | ?]; [by intros [= <-] |].
  destruct (decide (k = (1, 99))) as [-> | ?]; [by intros [= <-] |].
  rewrite lookup_insert_ne by done. by rewrite lookup_singleton_ne.
Defined.

Lemma inventory_rows_stay_positive_witness : stocked (run demo_ops demo_db).
Proof. apply (inventory_rows_stay_positive demo_ops demo_db demo_db_stocked). Defined.

(** ** The manual callbacks in normal operation *)

(** X14. On tables the engine has produced the manual callbacks never act:
    on well-formed tables, where every finished auction is already flagged,
    [auction_claim_cb] and [auction_credit_cb] leave the database as it is
    and never answer that a card was added or a seller credited.  For a
    finished auction the credit callback answers that the seller was already
    credited, also when the auction ended without a bid, and the claim
    callback answers that the card was already transferred, or that there is
    no winner. *)
Theorem manual_callbacks_inert (aid : Z) (st : db) :
  wf st →
  (auction_claim_cb aid st).2 = st ∧ (auction_credit_cb aid st).2 = st ∧
  (auction_claim_cb aid st).1 ≠ CardAdded ∧
  (auction_credit_cb aid st).1 ≠ SellerCredited ∧
  ∀ row, find_auction aid (auctions st) = Some row → status row = finished →
         (auction_credit_cb aid st).1 = AlreadyCredited ∧
         (auction_claim_cb aid st).1 =
           (if decide (winner_id row = None ∨ winner_id row = Some 0)
            then NoWinner else AlreadyTransferred).
Proof.
  intros Hwf. unfold auction_claim_cb, auction_credit_cb.
  destruct (find_auction aid (auctions st)) as [row|] eqn:Hf; [| done].
  destruct (find_auction_Some _ _ _ Hf) as [Hin _].
  pose proof (wf_flag _ Hwf row Hin) as Hflag.
  destruct (status row) eqn:Hs.
  - rewrite !decide_True by done. split_and!; try done.
    intros ? [= <-] ?. congruence.
  - rewrite !decide_False by (by intros ?).
    rewrite Hflag, bool_decide_true by done.
    split_and!; try done.
    + by destruct (truthy (winner_id row)).
    + by destruct (truthy (winner_id row)).
    + intros ? [= <-] _. split; [done |].
      unfold truthy. destruct (winner_id row) as [w|]; simpl.
      * destruct (decide (w = 0)) as [-> | Hw].
        -- by rewrite decide_True by (by right).
        -- rewrite decide_False; [done |]. intros [? | [= ?]]; done.
      * done.
Qed.

Lemma manual_callbacks_inert_witness :
  (auction_claim_cb 1 sold_db).2 = sold_db ∧
  (auction_credit_cb 1 sold_db).2 = sold_db ∧
  (auction_claim_cb 1 sold_db).1 ≠ CardAdded ∧
  (auction_credit_cb 1 sold_db).1 ≠ SellerCredited ∧
  ∀ row, find_auction 1 (auctions sold_db) = Some row → status row = finished →
         (auction_credit_cb 1 sold_db).1 = AlreadyCredited ∧
         (auction_claim_cb 1 sold_db).1 =
           (if decide (winner_id row = None ∨ winner_id row = Some 0)
            then NoWinner else AlreadyTransferred).
Proof.
  apply (manual_callbacks_inert 1 sold_db).
  apply run_wf; [apply demo_db_wf | repeat constructor; simpl; lia].
Defined.

(** ** Sweeps compose *)

Lemma bump_comm {K} `{Countable K} (k j : K) (x y : Z) (m : gmap K Z) :
  bump k x (bump j y m) = bump j y (bump k x m).
Proof.
  unfold bump. destruct (decide (k = j)) as [-> | Hne].
  - rewrite !lookup_insert_eq, !insert_insert_eq. simpl. f_equal. lia.
  - rewrite !lookup_insert_ne by done. by apply insert_insert_ne.
Qed.

Lemma one_more_comm k j m : one_more k (one_more j m) = one_more j (one_more k m).
Proof.
  unfold one_more. destruct (decide (k = j)) as [-> | Hne]; [done |].
  rewrite !lookup_insert_ne by done. by apply insert_insert_ne.
Qed.

Lemma settled_row_id bids a : a_id (settled_row bids a) = a_id a.
Proof. unfold settled_row. by case_match. Qed.

Lemma update_auction_comm x y f g l :
  x ≠ y → (∀ a, a_id (f a) = a_id a) → (∀ a, a_id (g a) = a_id a) →
  update_auction y g (update_auction x f l)
    = update_auction x f (update_auction y g l).
Proof.
  intros Hne Hf Hg. unfold update_auction. rewrite <- !list_fmap_compose.
  apply list_fmap_ext. intros _ a _. simpl.
  destruct (decide (a_id a = x)) as [Hx | Hx];
    destruct (decide (a_id a = y)) as [Hy | Hy];
    rewrite ?Hf, ?Hg; repeat case_decide; congruence.
Qed.

(** The settlement of an unflagged auction, table by table. *)
Lemma finalize_one_fields st x a :
  find_auction x (auctions st) = Some a → transferred a = false →
  finalize_one st x =
    mk_db (paid (auction_bids st) a (crystals st))
          (one_more (recipient (auction_bids st) a, waifu_id a) (user_waifus st))
          (waifu_cards st)
          (update_auction x (settled_row (auction_bids st)) (auctions st))
          (auction_bids st).
Proof.
  intros Hf Hflag. rewrite (finalize_one_unflagged _ _ a) by done.
  destruct (find_auction_Some _ _ _ Hf) as [_ Hid].
  assert (∀ u w, user_waifus (add_to_inventory u w st)
                 = one_more (u, w) (user_waifus st)) as Hinv.
  { intros u w. unfold add_to_inventory, one_more.
    by destruct (user_waifus st !! (u, w)). }
  assert (∀ f, (∀ r, a_id r = x → settled_row (auction_bids st) r = f r) →
            update_auction x f (auctions st)
            = update_auction x (settled_row (auction_bids st)) (auctions st))
    as Hupd.
  { intros f Hfr. unfold update_auction. apply list_fmap_ext.
    intros _ r _. case_decide; [by rewrite Hfr | done]. }
  unfold paid, recipient. rewrite Hid.
  destruct (highest_bid x (auction_bids st)) as [b|] eqn:Htop.
  - rewrite Hupd by (intros r Hr; unfold settled_row; by rewrite Hr, Htop).
    unfold set_auctions. simpl. rewrite Hinv.
    unfold add_to_inventory. by case_match.
  - rewrite Hupd by (intros r Hr; unfold settled_row; by rewrite Hr, Htop).
    unfold set_auctions. rewrite Hinv.
    unfold add_to_inventory. by case_match.
Qed.

Lemma paid_comm bids a b m :
  paid bids a (paid bids b m) = paid bids b (paid bids a m).
Proof. unfold paid. repeat case_match; try done. apply bump_comm. Qed.

(** Settlements of two different unflagged auctions commute. *)
Lemma finalize_one_comm st x y ax ay :
  x ≠ y →
  find_auction x (auctions st) = Some ax → transferred ax = false →
  find_auction y (auctions st) = Some ay → transferred ay = false →
  finalize_one (finalize_one st x) y = finalize_one (finalize_one st y) x.
Proof.
  intros Hne Hx Hfx Hy Hfy.
  rewrite (finalize_one_fields st x ax), (finalize_one_fields st y ay) by done.
  rewrite (finalize_one_fields _ y ay); [| | done].
  2:{ simpl. rewrite find_update_auction by apply settled_row_id.
      rewrite decide_False by done. by rewrite Hy. }
  rewrite (finalize_one_fields _ x ax); [| | done].
  2:{ simpl. rewrite find_update_auction by apply settled_row_id.
      rewrite decide_False by done. by rewrite Hx. }
  simpl. f_equal.
  - apply paid_comm.
  - apply one_more_comm.
  - apply update_auction_comm; [done | apply settled_row_id..].
Qed.

Lemma unflagged_step st x ids :
  unflagged st (x :: ids) → unflagged (finalize_one st x) ids.
Proof.
  intros [[Hnew Hnd]%NoDup_cons Hrows]. split; [done |].
  intros y Hy. destruct (Hrows y) as (a & Ha & Hflag);
    [by apply list_elem_of_further |].
  exists a. split; [| done]. rewrite finalize_one_other; [done |].
  by intros ->.
Qed.

Lemma unflagged_perm st ids ids' :
  ids ≡ₚ ids' → unflagged st ids → unflagged st ids'.
Proof.
  intros Hperm [Hnd Hrows]. split; [by rewrite <- Hperm |].
  intros x Hx. apply Hrows. by rewrite Hperm.
Qed.

(** The order in which a sweep settles its auctions does not matter. *)
Lemma foldl_finalize_one_perm ids ids' :
  ids ≡ₚ ids' →
  ∀ st, unflagged st ids → foldl finalize_one st ids = foldl finalize_one st ids'.
Proof.
  induction 1 as [| x l l' Hperm IH | x y l | l l' l'' Hperm1 IH1 Hperm2 IH2];
    intros st Hun.
  - done.
  - simpl. by apply IH, unflagged_step.
  - simpl. f_equal. destruct Hun as [Hnd Hrows].
    destruct (Hrows x) as (ax & Hx & Hfx);
      [apply list_elem_of_further, list_elem_of_here |].
    destruct (Hrows y) as (ay & Hy & Hfy); [apply list_elem_of_here |].
    apply (finalize_one_comm st y x ay ax); try done.
    apply NoDup_cons in Hnd as [Hnew _]. intros ->. apply Hnew.
    apply list_elem_of_here.
  - rewrite IH1 by done. apply IH2. by eapply unflagged_perm.
Qed.

Lemma foldl_finalize_one_rewrites ids st :
  unflagged st ids →
  auctions (foldl finalize_one st ids) =
    (λ a, if decide (a_id a ∈ ids) then settled_row (auction_bids st) a else a)
      <$> auctions st.
Proof.
  revert st. induction ids as [|x ids IH]; intros st Hun.
  - simpl. rewrite <- (list_fmap_id (auctions st)) at 1.
    apply list_fmap_ext. intros _ a _.
    by destruct (decide (a_id a ∈ [])) as [?%elem_of_nil | ?].
  - simpl. rewrite IH by (by apply unflagged_step).
    rewrite auction_bids_finalize_one.
    destruct Hun as [[Hnew Hnd]%NoDup_cons Hrows].
    destruct (Hrows x) as (ax & Hx & Hfx); [apply list_elem_of_here |].
    rewrite (finalize_one_fields st x ax) by done. simpl.
    unfold update_auction. rewrite <- list_fmap_compose.
    apply list_fmap_ext. intros _ a _. simpl.
    destruct (decide (a_id a = x)) as [Hax | Hax].
    + rewrite settled_row_id, Hax. rewrite decide_False by done.
      rewrite decide_True; [done | apply list_elem_of_here].
    + destruct (decide (a_id a ∈ ids)) as [Hin | Hin].
      * rewrite decide_True; [done | by apply list_elem_of_further].
      * rewrite decide_False; [done |].
        intros [? | ?]%elem_of_cons; done.
Qed.

Lemma expired_ids_split (P1 P2 : auction → Prop)
    `{∀ a, Decision (P1 a)} `{∀ a, Decision (P2 a)} (l : list auction) :
  (∀ a, P1 a → P2 a) →
  (a_id <$> filter P1 l) ++ (a_id <$> filter (λ a, P2 a ∧ ¬ P1 a) l)
    ≡ₚ a_id <$> filter P2 l.
Proof.
  intros Himp. induction l as [|a l IH]; [done |].
  destruct (decide (P1 a)) as [H1 | H1].
  - rewrite (filter_cons_True P1) by done.
    rewrite (filter_cons_True P2) by auto.
    rewrite (filter_cons_False (λ a, P2 a ∧ ¬ P1 a)) by (intros [_ ?]; done).
    simpl. by rewrite IH.
  - rewrite (filter_cons_False P1) by done.
    destruct (decide (P2 a)) as [H2 | H2].
    + rewrite (filter_cons_True P2) by done.
      rewrite (filter_cons_True (λ a, P2 a ∧ ¬ P1 a)) by done.
      simpl. rewrite <- Permutation_middle. by rewrite IH.
    + rewrite (filter_cons_False P2) by done.
      rewrite (filter_cons_False (λ a, P2 a ∧ ¬ P1 a)) by (intros [? _]; done).
      done.
Qed.

Lemma expired_ids_after (l : list auction) (ids : list Z) bids t1 t2 :
  (∀ a, a ∈ l → a_id a ∈ ids ↔ status a = active ∧ end_iso a ≤ t1) →
  expired_ids t2
    ((λ a, if decide (a_id a ∈ ids) then settled_row bids a else a) <$> l)
  = a_id <$> filter (λ a, (status a = active ∧ end_iso a ≤ t2)
                          ∧ ¬ (status a = active ∧ end_iso a ≤ t1)) l.
Proof.
  intros Hids. unfold expired_ids. induction l as [|a l IH]; [done |].
  assert (∀ a0, a0 ∈ l → a_id a0 ∈ ids ↔ status a0 = active ∧ end_iso a0 ≤ t1)
    as Hl by (intros a0 Ha0; apply Hids; by apply list_elem_of_further).
  specialize (IH Hl). rewrite fmap_cons.
  pose proof (Hids a (list_elem_of_here _ _)) as Ha.
  destruct (decide (a_id a ∈ ids)) as [Hin | Hin].
  - rewrite filter_cons_False.
    2:{ intros [Hs _]. unfold settled_row in Hs. by case_match. }
    rewrite filter_cons_False by (intros [_ Hn]; apply Hn; by apply Ha).
    done.
  - destruct (decide (status a = active ∧ end_iso a ≤ t2)) as [H2 | H2].
    + rewrite filter_cons_True by done.
      rewrite filter_cons_True by (split; [done | by rewrite <- Ha]).
      rewrite !fmap_cons. by rewrite IH.
    + rewrite filter_cons_False by done.
      rewrite filter_cons_False by (by intros [? _]).
      done.
Qed.

(** X15. Sweeps compose: on well-formed tables, a sweep after an earlier
    sweep leaves the same database as the later sweep alone.  How often and
    when the opening sweeps of the handlers have run before does not change
    what a sweep produces, and the order in which a sweep settles its
    auctions does not matter. *)
Theorem sweeps_compose (t1 t2 : Z) (st : db) :
  wf st → t1 ≤ t2 →
  finalize_expired_auctions t2 (finalize_expired_auctions t1 st)
    = finalize_expired_auctions t2 st.
Proof.
  intros Hwf Hle.
  assert (∀ t, unflagged st (expired_ids t (auctions st))) as Hun.
  { intros t. destruct (pending_expired_ids t st Hwf) as [Hnd Hrows].
    split; [done |]. intros x Hx. destruct (Hrows x Hx) as (a & Ha & Hact).
    exists a. split; [done |]. eapply wf_flag_active; [done | | done].
    by destruct (find_auction_Some _ _ _ Ha). }
  unfold finalize_expired_auctions at 1.
  unfold finalize_expired_auctions at 2.
  rewrite foldl_finalize_one_rewrites by done.
  rewrite (expired_ids_after _ _ _ t1 t2).
  2:{ intros a Ha. unfold expired_ids. split.
      - intros (a0 & Hid & [Hp Hin]%list_elem_of_filter)%list_elem_of_fmap.
        assert (a0 = a) as ->; [| done].
        pose proof (find_auction_elem _ _ (wf_ids _ Hwf) Ha) as Hfa.
        pose proof (find_auction_elem _ _ (wf_ids _ Hwf) Hin) as Hfa0.
        rewrite <- Hid in Hfa0. congruence.
      - intros Hp. by apply list_elem_of_fmap_2, list_elem_of_filter. }
  unfold finalize_expired_auctions. rewrite <- foldl_app.
  apply foldl_finalize_one_perm.
  - unfold expired_ids.
    apply (expired_ids_split
             (λ a, status a = active ∧ end_iso a ≤ t1)
             (λ a, status a = active ∧ end_iso a ≤ t2)).
    intros a [? ?]. split; [done | lia].
  - eapply unflagged_perm; [| apply (Hun t2)].
    symmetry. unfold expired_ids.
    apply (expired_ids_split
             (λ a, status a = active ∧ end_iso a ≤ t1)
             (λ a, status a = active ∧ end_iso a ≤ t2)).
    intros a [? ?]. split; [done | lia].
Qed.

Lemma busy_db_wf : wf busy_db.
Proof.
  apply run_wf; [| repeat constructor; simpl; lia].
  by apply wf_fresh.
Defined.

Lemma sweeps_compose_witness :
  finalize_expired_auctions 12500000
    (finalize_expired_auctions 11500000 busy_db)
  = finalize_expired_auctions 12500000 busy_db.
Proof. apply (sweeps_compose 11500000 12500000 busy_db busy_db_wf). lia. Defined.

(** ** The list of active auctions *)

(** Merging is one ordering that SQLite may use. *)
Lemma merge_sort_orders {A} (R : relation A) `{∀ x y, Decision (R x y)} :
  Transitive R → Total R → orders R (merge_sort R).
Proof.
  intros Htrans Htotal l.
  split; [apply merge_sort_Permutation | by apply StronglySorted_merge_sort].
Defined.

Lemma newest_first_orders : orders newest_first (merge_sort newest_first).
Proof.
  apply merge_sort_orders.
  - intros a b c. unfold newest_first. lia.
  - intros a b. unfold newest_first. lia.
Defined.

Lemma highest_first_orders : orders highest_first (merge_sort highest_first).
Proof.
  apply merge_sort_orders.
  - intros a b c. unfold highest_first. lia.
  - intros a b. unfold highest_first. lia.
Defined.

Lemma take_sorted {A} (R : relation A) n (l : list A) :
  StronglySorted R l → StronglySorted R (take n l).
Proof.
  intros Hs. rewrite <- (take_drop n l) in Hs.
  by apply StronglySorted_app_1_l in Hs.
Qed.

Lemma elem_of_take_elem {A} n (l : list A) x : x ∈ take n l → x ∈ l.
Proof.
  intros (i & Hi & _)%elem_of_take. apply list_elem_of_lookup. eauto.
Qed.

Lemma active_rows_sorted order_by l :
  orders newest_first order_by →
  StronglySorted newest_first (active_rows order_by l).
Proof. intros Ho. apply take_sorted, Ho. Qed.

Lemma active_rows_elem order_by l a :
  orders newest_first order_by →
  a ∈ active_rows order_by l → a ∈ l ∧ status a = active.
Proof.
  intros Ho Hin%elem_of_take_elem.
  rewrite (proj1 (Ho _)) in Hin.
  by apply list_elem_of_filter in Hin as [? ?].
Qed.

Lemma active_rows_complete order_by l a :
  orders newest_first order_by →
  (length (filter (λ a, status a = active) l) ≤ 20)%nat →
  a ∈ l → status a = active → a ∈ active_rows order_by l.
Proof.
  intros Ho Hlen Hin Hact. unfold active_rows.
  rewrite take_ge.
  - rewrite (proj1 (Ho _)). by apply list_elem_of_filter.
  - by rewrite (proj1 (Ho _)).
Qed.

(** An active row after a sweep is a row from before it that the sweep did
    not find expired. *)
Lemma finalize_active_row now st a :
  a ∈ auctions (finalize_expired_auctions now st) → status a = active →
  a ∈ auctions st ∧ now < end_iso a.
Proof.
  intros Hin Hact.
  apply foldl_finalize_one_rows in Hin as (a0 & Hin0 & (_ & He & Hsame) & Hc).
  destruct Hsame as [-> | [Hfin _]]; [| congruence].
  split; [done |]. destruct (decide (end_iso a0 ≤ now)) as [Hdue | ?]; [| lia].
  destruct Hc as [Hfin _]; [| congruence].
  unfold expired_ids. by apply list_elem_of_fmap_2, list_elem_of_filter.
Qed.

(** X16. The list of active auctions.  [auctions_list_handler] sweeps first
    and changes nothing else.  Whatever order SQLite gives to rows that tie
    on their start, it writes one line for each of at most twenty auctions,
    newest start first; every line is that of an auction that is active and
    that the sweep did not find expired, with its id, name, minimum price
    and the time left at the reading of the clock for that line; and when no
    more than twenty auctions are active, every one of them is listed. *)
Theorem auctions_list_shows_open_auctions
    (order_by : list auction → list auction) (sweep : Z) (now : nat → Z)
    (st : db) :
  orders newest_first order_by →
  let st1 := finalize_expired_auctions sweep st in
  let rows := active_rows order_by (auctions st1) in
  (auctions_list_handler order_by sweep now st).2 = st1 ∧
  length (auctions_list_handler order_by sweep now st).1 = length rows ∧
  (length rows ≤ 20)%nat ∧
  StronglySorted newest_first rows ∧
  (∀ i ln, (auctions_list_handler order_by sweep now st).1 !! i = Some ln →
     ∃ a, rows !! i = Some a ∧ a ∈ auctions st ∧ status a = active ∧
          sweep < end_iso a ∧
          line_id ln = a_id a ∧ line_name ln = name (waifu a) ∧
          line_min_price ln = min_price a ∧
          line_left ln = time_left_at (end_iso a) (now i)) ∧
  ((length (filter (λ a, status a = active) (auctions st1)) ≤ 20)%nat →
   ∀ a, a ∈ auctions st1 → status a = active → a ∈ rows).
Proof.
  intros Ho st1 rows. unfold auctions_list_handler. fold st1. fold rows. simpl.
  split_and!.
  - done.
  - apply length_imap.
  - unfold rows, active_rows. rewrite length_take. lia.
  - by apply active_rows_sorted.
  - intros i ln. rewrite list_lookup_imap.
    destruct (rows !! i) as [a|] eqn:Hi; [| done]. simpl. intros [= <-].
    exists a. simpl.
    assert (a ∈ rows) as Hin by (apply list_elem_of_lookup; eauto).
    apply active_rows_elem in Hin as [Hin Hact]; [| done].
    destruct (finalize_active_row sweep st a Hin Hact) as [Hin0 Hopen].
    done.
  - intros Hlen a Hin Hact. by apply active_rows_complete.
Qed.

Lemma auctions_list_shows_open_auctions_witness :
  let order_by := merge_sort newest_first in
  let now := λ _ : nat, 11600000 in
  let st1 := finalize_expired_auctions 11500000 busy_db in
  let rows := active_rows order_by (auctions st1) in
  (auctions_list_handler order_by 11500000 now busy_db).2 = st1 ∧
  length (auctions_list_handler order_by 11500000 now busy_db).1
    = length rows ∧
  (length rows ≤ 20)%nat ∧
  StronglySorted newest_first rows ∧
  (∀ i ln,
     (auctions_list_handler order_by 11500000 now busy_db).1 !! i = Some ln →
     ∃ a, rows !! i = Some a ∧ a ∈ auctions busy_db ∧ status a = active ∧
          11500000 < end_iso a ∧
          line_id ln = a_id a ∧ line_name ln = name (waifu a) ∧
          line_min_price ln = min_price a ∧
          line_left ln = time_left_at (end_iso a) (now i)) ∧
  ((length (filter (λ a, status a = active) (auctions st1)) ≤ 20)%nat →
   ∀ a, a ∈ auctions st1 → status a = active → a ∈ rows).
Proof.
  apply (auctions_list_shows_open_auctions (merge_sort newest_first) 11500000
           (λ _, 11600000) busy_db newest_first_orders).
Defined.

(** ** The time left *)

Lemma round_half_even_bounds n d :
  0 < d → n / d ≤ round_half_even n d ≤ n / d + 1.
Proof. intros Hd. unfold round_half_even. repeat case_match; lia. Qed.

Lemma round_half_even_up n d :
  0 < d → round_half_even n d = n / d + 1 → d ≤ 2 * (n mod d).
Proof. intros Hd. unfold round_half_even. repeat case_match; lia. Qed.

(** Rounding [a / 10 ** 6] to a multiple of [1 / s] does not reach the next
    whole number as long as half a step is less than a microsecond. *)
Lemma round_trunc a s :
  0 ≤ a → 500000 < s →
  round_half_even (a * s) 1000000 / s = a / 1000000.
Proof.
  intros Ha Hs.
  pose proof (round_half_even_bounds (a * s) 1000000 ltac:(lia)) as [Hlo Hhi].
  pose proof (round_half_even_up (a * s) 1000000 ltac:(lia)) as Hup.
  set (m := round_half_even (a * s) 1000000) in *.
  pose proof (Z.div_mod a 1000000 ltac:(lia)) as Ha_dm.
  pose proof (Z.mod_pos_bound a 1000000 ltac:(lia)) as Ha_mod.
  pose proof (Z.div_mod (a * s) 1000000 ltac:(lia)) as Hn_dm.
  pose proof (Z.mod_pos_bound (a * s) 1000000 ltac:(lia)) as Hn_mod.
  set (q := a / 1000000) in *. set (r := a mod 1000000) in *.
  set (Q := (a * s) / 1000000) in *. set (R := (a * s) mod 1000000) in *.
  symmetry. apply Z.div_unique_pos with (r := m - q * s); [| lia].
  assert (q * s ≤ Q) by nia.
  split; [lia |].
  destruct (decide (m = Q + 1)) as [Hm | Hm].
  - specialize (Hup Hm). nia.
  - assert (m = Q) by lia. nia.
Qed.

Lemma int_of_float_nonneg a b :
  0 ≤ a → 0 < b → 0 ≤ int_of_float (true_divide a b).
Proof.
  intros Ha Hb. unfold true_divide.
  set (e0 := Z.log2 a - Z.log2 b - 52).
  destruct (scaled a b e0) as [n0 d0].
  set (e := if decide (n0 < 2 ^ 52 * d0) then e0 - 1 else e0).
  assert (0 ≤ (scaled a b e).1 ∧ 0 < (scaled a b e).2) as [Hn Hd].
  { unfold scaled. case_decide; simpl.
    - split; [| done]. apply Z.mul_nonneg_nonneg; [done |].
      apply Z.pow_nonneg. lia.
    - split; [done |]. apply Z.mul_pos_pos; [done |].
      apply Z.pow_pos_nonneg; lia. }
  destruct (scaled a b e) as [n d]. simpl in *.
  assert (0 ≤ round_half_even n d) as Hm.
  { pose proof (round_half_even_bounds n d Hd).
    pose proof (Z.div_pos n d Hn Hd). lia. }
  unfold int_of_float. simpl. case_decide.
  - apply Z.div_pos; [done |]. apply Z.pow_pos_nonneg; lia.
  - apply Z.mul_nonneg_nonneg; [done |]. apply Z.pow_nonneg. lia.
Qed.

(** Below [2 ^ 34] seconds (some 544 years) the float keeps enough of the
    fraction: [int] of it is the number of whole seconds. *)
Lemma int_of_true_divide a :
  0 < a → a < 2 ^ 34 * 1000000 →
  int_of_float (true_divide a 1000000) = a / 1000000.
Proof.
  intros Hpos Hlt. unfold true_divide.
  change (Z.log2 1000000) with 19.
  assert (Z.log2 a < 54) as Hlog by (apply Z.log2_lt_pow2; lia).
  pose proof (Z.log2_nonneg a) as Hlog0.
  set (e0 := Z.log2 a - 19 - 52) in *.
  assert (e0 ≤ -18) as He0 by (unfold e0; lia).
  unfold scaled at 1. rewrite decide_True by lia.
  set (e := if decide (a * 2 ^ (- e0) < 2 ^ 52 * 1000000) then e0 - 1 else e0).
  assert (e ≤ -19) as He.
  { unfold e. case_decide as Hn; [lia |].
    destruct (decide (e0 = -18)) as [Heq | ?]; [| lia].
    rewrite Heq in Hn. simpl in Hn. lia. }
  unfold scaled. rewrite decide_True by lia.
  unfold int_of_float. simpl. rewrite decide_True by lia.
  apply round_trunc; [lia |].
  assert (2 ^ 19 ≤ 2 ^ (- e)) by (apply Z.pow_le_mono_r; lia). lia.
Qed.

Lemma whole_seconds_floor d :
  0 ≤ d → d < 2 ^ 34 * 1000000 → whole_seconds d = d / 1000000.
Proof.
  intros Hpos Hlt. unfold whole_seconds. case_decide as Hz; [by subst |].
  rewrite Z.abs_eq, Z.sgn_pos by lia.
  rewrite int_of_true_divide by lia. lia.
Qed.

Lemma whole_seconds_past d : d ≤ 0 → whole_seconds d ≤ 0.
Proof.
  intros Hneg. unfold whole_seconds. case_decide; [done |].
  rewrite Z.sgn_neg by lia.
  pose proof (int_of_float_nonneg (Z.abs d) 1000000 ltac:(lia) ltac:(lia)).
  lia.
Qed.

(** X17. The time left on a line.  For an end time less than [2 ^ 34]
    seconds (some 544 years) after the reading of the clock, the line shows
    the number of whole seconds between the two, rounded down, when at
    least one whole second is left; with less than a second left, and also
    when the end time has already passed, however long ago, the line says
    that the auction is ending soon. *)
Theorem time_left_rounds_down (end_time now : Z) :
  end_time - now < 2 ^ 34 * 1000000 →
  (time_left_at end_time now = EndingSoon ↔ end_time - now < 1000000) ∧
  (∀ secs, time_left_at end_time now = SecondsRemaining secs →
           1 ≤ secs ∧
           1000000 * secs ≤ end_time - now < 1000000 * (secs + 1)).
Proof.
  intros Hbound. unfold time_left_at.
  set (d := end_time - now) in *.
  destruct (decide (0 ≤ d)) as [Hpos | Hneg].
  - rewrite whole_seconds_floor by done.
    pose proof (Z.div_mod d 1000000 ltac:(lia)) as Hdm.
    pose proof (Z.mod_pos_bound d 1000000 ltac:(lia)) as Hmod.
    split.
    + case_decide; split; try done; nia.
    + intros secs. case_decide; [| done]. intros [= <-]. nia.
  - pose proof (whole_seconds_past d ltac:(lia)) as Hq.
    rewrite decide_False by lia. split; [split; [lia | done] | done].
Qed.

Lemma time_left_rounds_down_witness :
  (time_left_at 13000000 11600000 = EndingSoon
   ↔ 13000000 - 11600000 < 1000000) ∧
  (∀ secs, time_left_at 13000000 11600000 = SecondsRemaining secs →
           1 ≤ secs ∧
           1000000 * secs ≤ 13000000 - 11600000 < 1000000 * (secs + 1)).
Proof. apply (time_left_rounds_down 13000000 11600000). lia. Defined.

(** The bound is where the float runs out of bits: one microsecond before
    [2 ^ 34 + 1] whole seconds are left, the quotient rounds up to the next
    float, and the line shows [2 ^ 34 + 1] seconds. *)
Lemma time_left_beyond_bound :
  time_left_at ((2 ^ 34 + 1) * 1000000 - 1) 0 = SecondsRemaining (2 ^ 34 + 1) ∧
  ((2 ^ 34 + 1) * 1000000 - 1) / 1000000 = 2 ^ 34 ∧
  time_left_at 1400000 0 = SecondsRemaining 1 ∧
  time_left_at 999999 0 = EndingSoon ∧
  time_left_at 0 5000000 = EndingSoon.
Proof. vm_compute. done. Qed.

(** ** The bid history of an auction *)

Lemma increasing_amounts_inj (l : list bid) x y :
  StronglySorted Z.lt (amount <$> l) → x ∈ l → y ∈ l →
  amount x = amount y → x = y.
Proof.
  induction l as [|b l IH]; [by intros _ ?%elem_of_nil |].
  rewrite fmap_cons. intros [Hall Hsorted]%StronglySorted_cons Hx Hy Heq.
  rewrite Forall_forall in Hall.
  apply elem_of_cons in Hx as [-> | Hx]; apply elem_of_cons in Hy as [-> | Hy].
  - done.
  - specialize (Hall (amount y) (list_elem_of_fmap_2 amount l y Hy)). lia.
  - specialize (Hall (amount x) (list_elem_of_fmap_2 amount l x Hx)). lia.
  - by apply IH.
Qed.

Lemma increasing_reverse_sorted (l : list bid) :
  StronglySorted Z.lt (amount <$> l) → StronglySorted highest_first (reverse l).
Proof.
  induction l as [|b l IH]; [intros _; constructor |].
  rewrite fmap_cons. intros [Hall Hsorted]%StronglySorted_cons.
  rewrite reverse_cons. apply StronglySorted_app_2; [| by apply IH | repeat constructor].
  intros x y Hx ->%list_elem_of_singleton. rewrite elem_of_reverse in Hx.
  rewrite Forall_forall in Hall.
  specialize (Hall (amount x) (list_elem_of_fmap_2 amount l x Hx)).
  unfold highest_first. lia.
Qed.

(** With strictly increasing amounts no two bids tie, and [ORDER BY amount
    DESC] can only return the bids in reverse. *)
Lemma orders_increasing order_by (l : list bid) :
  orders highest_first order_by →
  StronglySorted Z.lt (amount <$> l) → order_by l = reverse l.
Proof.
  intros Ho Hsorted. destruct (Ho l) as [Hperm Hs].
  assert (Transitive highest_first) as Htrans
    by (intros a b c; unfold highest_first; lia).
  apply (StronglySorted_unique_strong highest_first).
  - intros x y Hx Hy Hxy Hyx.
    rewrite Hperm in Hx. rewrite elem_of_reverse in Hy.
    apply (increasing_amounts_inj l); [done.. |].
    unfold highest_first in *. lia.
  - done.
  - by apply increasing_reverse_sorted.
  - by rewrite Hperm, reverse_Permutation.
Qed.

(** X18. The bid history.  [auction_status_handler] sweeps first and changes
    nothing else.  Whatever order SQLite gives to bids that tie on their
    amount, the history it shows has at most five lines, each a bid on that
    auction, highest amount first, and the amount of its first line is the
    amount of the leading bid that bidding and settlement use; it is empty
    exactly when the auction has no bid.  While the amounts bid on the
    auction are strictly increasing in insertion order (as every run keeps
    them), the history is the last five bids on the auction, newest first,
    and its first line is the leading bid. *)
Theorem bid_history_is_latest_first (order_by : list bid → list bid)
    (sweep aid : Z) (st : db) :
  orders highest_first order_by →
  let history := top_bids order_by aid (auction_bids st) in
  (length history ≤ 5)%nat ∧
  (∀ b, b ∈ history → b ∈ auction_bids st ∧ auction_id b = aid) ∧
  StronglySorted highest_first history ∧
  (history = [] ↔ highest_bid aid (auction_bids st) = None) ∧
  (∀ top, highest_bid aid (auction_bids st) = Some top →
          ∃ b, head history = Some b ∧ amount b = amount top) ∧
  (auction_status_handler order_by sweep aid st).2
    = finalize_expired_auctions sweep st ∧
  (auction_status_handler order_by sweep aid st).1 =
    (λ a, (a, (λ b, (bidder_id b, amount b)) <$> history))
      <$> find_auction aid (auctions (finalize_expired_auctions sweep st)) ∧
  (StronglySorted Z.lt (bid_amounts aid st) →
   history =
     take 5 (reverse (filter (λ b, auction_id b = aid) (auction_bids st))) ∧
   head history = highest_bid aid (auction_bids st)).
Proof.
  intros Ho history.
  set (l := filter (λ b, auction_id b = aid) (auction_bids st)).
  destruct (Ho l) as [Hperm Hs].
  assert (∀ b, b ∈ order_by l → b ∈ auction_bids st ∧ auction_id b = aid)
    as Helem.
  { intros b Hb. rewrite Hperm in Hb.
    by apply list_elem_of_filter in Hb as [? ?]. }
  split_and!.
  - unfold history, top_bids. rewrite length_take. lia.
  - intros b Hb%elem_of_take_elem. by apply Helem.
  - by apply take_sorted.
  - unfold history, top_bids, highest_bid. fold l. split.
    + intros Hnil. destruct (order_by l) as [|b rest] eqn:Hol; [| done].
      apply Permutation_nil_l in Hperm. by rewrite <- Hperm.
    + intros Hnone%first_ranked_None. rewrite Hnone in Hperm |- *.
      apply Permutation_nil_r in Hperm. by rewrite Hperm.
  - intros top Htop. unfold highest_bid in Htop. fold l in Htop.
    apply first_ranked_max in Htop as [Hin Hmax].
    unfold history, top_bids. fold l.
    destruct (order_by l) as [|b rest] eqn:Hol.
    { apply Permutation_nil_l in Hperm. rewrite <- Hperm in Hin.
      by apply elem_of_nil in Hin. }
    exists b. split; [done |].
    assert (b ∈ l) as Hb by (rewrite <- Hperm; apply list_elem_of_here).
    specialize (Hmax b Hb).
    apply StronglySorted_cons in Hs as [Hall _].
    rewrite Forall_forall in Hall. rewrite <- Hperm in Hin.
    apply elem_of_cons in Hin as [-> | Hin]; [done |].
    specialize (Hall top Hin). unfold highest_first in Hall. lia.
  - done.
  - unfold auction_status_handler. simpl. rewrite finalize_auction_bids.
    by destruct (find_auction aid _).
  - intros Hsorted.
    assert (history = take 5 (reverse l)) as Hhist
      by (unfold history, top_bids; fold l;
          by rewrite (orders_increasing order_by l Ho Hsorted)).
    split; [done |]. rewrite Hhist. unfold highest_bid.
    rewrite (first_ranked_increasing _ Hsorted), <- head_reverse. fold l.
    by destruct (reverse l).
Qed.

Lemma bid_history_is_latest_first_witness :
  let order_by := merge_sort highest_first in
  let history := top_bids order_by 1 (auction_bids contested_db) in
  (length history ≤ 5)%nat ∧
  (∀ b, b ∈ history → b ∈ auction_bids contested_db ∧ auction_id b = 1) ∧
  StronglySorted highest_first history ∧
  (history = [] ↔ highest_bid 1 (auction_bids contested_db) = None) ∧
  (∀ top, highest_bid 1 (auction_bids contested_db) = Some top →
          ∃ b, head history = Some b ∧ amount b = amount top) ∧
  (auction_status_handler order_by 4000000 1 contested_db).2
    = finalize_expired_auctions 4000000 contested_db ∧
  (auction_status_handler order_by 4000000 1 contested_db).1 =
    (λ a, (a, (λ b, (bidder_id b, amount b)) <$> history))
      <$> find_auction 1
            (auctions (finalize_expired_auctions 4000000 contested_db)) ∧
  (StronglySorted Z.lt (bid_amounts 1 contested_db) →
   history =
     take 5 (reverse (filter (λ b, auction_id b = 1)
                        (auction_bids contested_db))) ∧
   head history = highest_bid 1 (auction_bids contested_db)).
Proof.
  apply (bid_history_is_latest_first (merge_sort highest_first) 4000000 1
           contested_db highest_first_orders).
Defined.

(** In the example the amounts are 50000, 60000 and 70000 in insertion
    order, and the history shows them newest first. *)
Lemma bid_history_example :
  StronglySorted Z.lt (bid_amounts 1 contested_db) ∧
  (λ b, (bidder_id b, amount b))
    <$> top_bids (merge_sort highest_first) 1 (auction_bids contested_db)
  = [(2, 70000); (3, 60000); (2, 50000)].
Proof. split; [vm_compute; repeat constructor | reflexivity]. Qed.

(** ** The information card of an auction *)

(** X19. [auction_info_cb] shows an auction as the sweep leaves it.  On
    well-formed tables, for an auction that is active without a winner: when
    its end time is after the sweep's reading of the clock the card shows
    the row as it is, without winner and without the recovery buttons; when
    its end time has passed, the card shows the settled row, the bidder and
    amount of the highest bid as winner and final price (nobody when there
    was no bid), and the two recovery buttons.  The callback changes the
    tables only by its sweep. *)
Theorem info_shows_settlement (sweep : Z) (st : db) (a : auction) :
  wf st → a ∈ auctions st → status a = active → winner_id a = None →
  (auction_info_cb sweep (a_id a) st).2 = finalize_expired_auctions sweep st ∧
  (sweep < end_iso a →
   (auction_info_cb sweep (a_id a) st).1 = InfoShown a None false) ∧
  (end_iso a ≤ sweep →
   (auction_info_cb sweep (a_id a) st).1 =
     InfoShown (settled_row (auction_bids st) a)
       ((λ b, (bidder_id b, amount b))
          <$> highest_bid (a_id a) (auction_bids st))
       true).
Proof.
  intros Hwf Hin Hact Hnone.
  pose proof (find_auction_elem _ _ (wf_ids _ Hwf) Hin) as Hf.
  unfold auction_info_cb. simpl. split_and!.
  - done.
  - intros Hopen.
    assert (find_auction (a_id a)
              (auctions (finalize_expired_auctions sweep st)) = Some a) as ->.
    { unfold finalize_expired_auctions.
      rewrite foldl_finalize_one_other; [done |].
      eapply not_expired_not_selected; [apply Hwf | done | by right]. }
    by rewrite Hact.
  - intros Hdue.
    assert (find_auction (a_id a)
              (auctions (finalize_expired_auctions sweep st))
            = Some (settled_row (auction_bids st) a)) as ->.
    { unfold finalize_expired_auctions.
      destruct (pending_expired_ids sweep st Hwf) as [Hnd _].
      apply foldl_finalize_one_settles; [done | | done |].
      - unfold expired_ids. by apply list_elem_of_fmap_2, list_elem_of_filter.
      - by eapply wf_flag_active. }
    unfold settled_row.
    destruct (highest_bid (a_id a) (auction_bids st)) as [b|] eqn:Htop; simpl.
    + assert (bidder_id b ≠ 0) as Hnz
        by (eapply wf_bidder; [done | by eapply highest_bid_elem]).
      by rewrite decide_False.
    + by rewrite Hnone.
Qed.

Lemma info_shows_settlement_witness :
  (auction_info_cb 20000000 (a_id contested_row) contested_db).2
    = finalize_expired_auctions 20000000 contested_db ∧
  (20000000 < end_iso contested_row →
   (auction_info_cb 20000000 (a_id contested_row) contested_db).1
     = InfoShown contested_row None false) ∧
  (end_iso contested_row ≤ 20000000 →
   (auction_info_cb 20000000 (a_id contested_row) contested_db).1 =
     InfoShown (settled_row (auction_bids contested_db) contested_row)
       ((λ b, (bidder_id b, amount b))
          <$> highest_bid (a_id contested_row) (auction_bids contested_db))
       true).
Proof.
  apply (info_shows_settlement 20000000 contested_db contested_row
           contested_db_wf).
  - vm_compute. apply list_elem_of_here.
  - reflexivity.
  - reflexivity.
Defined.

(** ** Integrity of the tables *)

Lemma highest_bid_is_maximum_aux aid bids b :
  highest_bid aid bids = Some b → b ∈ bids ∧ auction_id b = aid.
Proof.
  unfold highest_bid. intros [Hin _]%first_ranked_max.
  by apply list_elem_of_filter in Hin as [? ?].
Qed.

(** X20. The engine keeps its tables consistent: in every run from tables
    without auctions and bids, with bidders that have Telegram ids, auction
    ids stay unique, an auction is flagged as transferred exactly when it is
    finished, and every bid is a bid on an auction that exists. *)
Theorem tables_stay_consistent (ops : list op) (st : db) :
  auctions st = [] → auction_bids st = [] → Forall valid_op ops →
  NoDup (a_id <$> auctions (run ops st)) ∧
  (∀ a, a ∈ auctions (run ops st) →
        transferred a = true ↔ status a = finished) ∧
  (∀ b, b ∈ auction_bids (run ops st) →
        ∃ a, a ∈ auctions (run ops st) ∧ a_id a = auction_id b) ∧
  (∀ b, b ∈ auction_bids (run ops st) → bidder_id b ≠ 0).
Proof.
  intros Ha Hb Hops.
  destruct (run_wf ops st (wf_fresh st Ha Hb) Hops) as [Hids Hflag Hba Hbidder].
  split_and!; [done | | | done].
  - intros a Hin. rewrite (Hflag a Hin).
    destruct (status a); simpl; [split; done | done].
  - intros b Hin. apply Hba, list_elem_of_fmap in Hin as (a & Heq & Hina).
    by exists a.
Qed.

Lemma tables_stay_consistent_witness :
  NoDup (a_id <$> auctions (run demo_ops demo_db)) ∧
  (∀ a, a ∈ auctions (run demo_ops demo_db) →
        transferred a = true ↔ status a = finished) ∧
  (∀ b, b ∈ auction_bids (run demo_ops demo_db) →
        ∃ a, a ∈ auctions (run demo_ops demo_db) ∧ a_id a = auction_id b) ∧
  (∀ b, b ∈ auction_bids (run demo_ops demo_db) → bidder_id b ≠ 0).
Proof.
  apply (tables_stay_consistent demo_ops demo_db).
  - reflexivity.
  - reflexivity.
  - repeat constructor; simpl; lia.
Defined.

Lemma winners_bid_update st st' aid f :
  winners_bid st →
  auctions st' = update_auction aid f (auctions st) →
  (∀ b, b ∈ auction_bids st → b ∈ auction_bids st') →
  (∀ a, a_id (f a) = a_id a ∧ winner_id (f a) = winner_id a ∧
        final_price (f a) = final_price a) →
  winners_bid st'.
Proof.
  intros Hwin Ha Hb Hf a' w. rewrite Ha.
  intros (a & -> & Hin)%list_elem_of_fmap.
  assert (∀ r, r = a ∨ r = f a → winner_id r = Some w →
            ∃ b, b ∈ auction_bids st' ∧ auction_id b = a_id r ∧
                 bidder_id b = w ∧ final_price r = Some (amount b)) as Hrow.
  { intros r Hr Hw. destruct (Hf a) as (Hid & Hwf & Hpf).
    destruct (Hwin a w Hin) as (b & Hinb & Hbid & Hbw & Hprice).
    { destruct Hr as [-> | ->]; congruence. }
    exists b. split; [by apply Hb |].
    destruct Hr as [-> | ->]; split_and!; congruence. }
  case_decide; apply Hrow; auto.
Qed.

Lemma finalize_one_winners_bid st aid :
  winners_bid st → winners_bid (finalize_one st aid).
Proof.
  intros Hwin. unfold finalize_one.
  destruct (find_auction aid (auctions st)) as [a|] eqn:Hf.
  - destruct (highest_bid aid (auction_bids st)) as [b|] eqn:Htop.
    + intros a' w. unfold settle_mark. simpl.
      rewrite auctions_settle_credit, auctions_settle_grant.
      assert (auction_bids (settle_credit aid (seller_id a) (amount b)
                (settle_grant aid (waifu_id a) (bidder_id b) st))
              = auction_bids st) as ->
        by (unfold settle_credit, settle_grant; by repeat case_match).
      intros (a0 & -> & Hin)%list_elem_of_fmap. case_decide as Hid.
      * simpl. intros [= <-]. exists b.
        destruct (highest_bid_is_maximum_aux aid (auction_bids st) b Htop)
          as [Hinb Hbid].
        split_and!; [done | congruence | done | done].
      * by apply Hwin.
    + eapply (winners_bid_update st); [done | done | |].
      * intros b. simpl. by rewrite auction_bids_add_to_inventory.
      * done.
  - eapply (winners_bid_update st); [done | done | done |]. done.
Qed.

Lemma finalize_winners_bid now st :
  winners_bid st → winners_bid (finalize_expired_auctions now st).
Proof.
  unfold finalize_expired_auctions.
  generalize (expired_ids now (auctions st)). intros ids. revert st.
  induction ids as [|aid ids IH]; intros st Hwin; [done |].
  simpl. by apply IH, finalize_one_winners_bid.
Qed.

Lemma create_auction_winners_bid start u wid p st :
  winners_bid st → winners_bid (create_auction start u wid p st).2.
Proof.
  intros Hwin.
  destruct (create_auction_creation start u wid p st)
    as [Hno | n Hn Hpos Hw | n w Hn Hpos Hw Hp | n w Hn Hpos Hw Hp]; simpl; [done | | |];
    destruct (reserve_one_tables u wid n st) as (_ & _ & Ha & Hb).
  - intros a x. rewrite Ha, Hb. apply Hwin.
  - intros a x. rewrite Ha, Hb. apply Hwin.
  - intros a x. simpl. rewrite Hb.
    intros [Hin | ->%list_elem_of_singleton]%elem_of_app; [by apply Hwin | done].
Qed.

Lemma place_bid_winners_bid c u aid amt st :
  winners_bid st → winners_bid (place_bid c u aid amt st).2.
Proof.
  intros Hwin.
  destruct (place_bid_bidding c u aid amt st); simpl; [done |].
  unfold accept_bid.
  destruct (move_funds_tables u amt (highest_bid aid (auction_bids st)) st)
    as (_ & _ & Ha & Hb).
  eapply (winners_bid_update st); [done | by simpl; rewrite Ha | | done].
  intros b Hin. simpl. rewrite Hb. apply elem_of_app. by left.
Qed.

Lemma manual_winners_bid aid st :
  winners_bid st → winners_bid (auction_claim_cb aid st).2 ∧
                   winners_bid (auction_credit_cb aid st).2.
Proof.
  intros Hwin. split.
  - unfold auction_claim_cb. repeat case_match; simpl; try done.
    eapply (winners_bid_update st); [done | done | | done].
    intros b. simpl. by rewrite auction_bids_add_to_inventory.
  - unfold auction_credit_cb. repeat case_match; simpl; try done.
    by eapply (winners_bid_update st).
Qed.

Lemma step_winners_bid st o : winners_bid st → winners_bid (step st o).
Proof.
  intros Hwin. destruct o as [sweep start u w p | c u a x | now | a | a]; simpl.
  - by apply create_auction_winners_bid, finalize_winners_bid.
  - destruct (bid_handler_state c u a x st) as [-> | ->].
    + by apply place_bid_winners_bid, finalize_winners_bid.
    + by apply finalize_winners_bid, place_bid_winners_bid, finalize_winners_bid.
  - by apply finalize_winners_bid.
  - by apply manual_winners_bid.
  - by apply manual_winners_bid.
Qed.

(** X21. Nobody wins without having bid.  If every auction with a winner
    has, in [auction_bids], a bid on it by that winner whose amount is its
    final price (as on tables without auctions), this holds after every run
    of the engine; and on such tables [auction_info_cb] always finds a final
    price to print beside a winner, so it never raises the TypeError of
    formatting a NULL price. *)
Theorem winners_have_bid (ops : list op) (st : db) (sweep aid : Z) :
  winners_bid st →
  winners_bid (run ops st) ∧
  (auction_info_cb sweep aid (run ops st)).1 ≠ InfoTypeError.
Proof.
  intros Hwin.
  assert (winners_bid (run ops st)) as Hrun.
  { revert st Hwin. induction ops as [|o ops IH]; intros st Hwin; [done |].
    simpl. by apply IH, step_winners_bid. }
  split; [done |].
  unfold auction_info_cb. simpl.
  pose proof (finalize_winners_bid sweep _ Hrun) as Hswept.
  destruct (find_auction aid _) as [a|] eqn:Hf; [| done].
  destruct (status a); [done |].
  destruct (truthy (winner_id a)) as [w|] eqn:Hw; [| done].
  apply truthy_Some in Hw.
  destruct (find_auction_Some _ _ _ Hf) as [Hin _].
  destruct (Hswept a w Hin Hw) as (b & _ & _ & _ & ->). done.
Qed.

Lemma demo_db_winners_bid : winners_bid demo_db.
Proof. intros a w Hin. by apply elem_of_nil in Hin. Defined.

Lemma winners_have_bid_witness :
  winners_bid (run demo_ops demo_db) ∧
  (auction_info_cb 30000000 1 (run demo_ops demo_db)).1 ≠ InfoTypeError.
Proof. apply (winners_have_bid demo_ops demo_db 30000000 1 demo_db_winners_bid). Defined.

(** ** A minimum price that SQLite cannot store *)

(** X23. A minimum price outside SQLite's 64-bit range costs the seller the
    card.  When the seller holds the card and the card is listed in
    [waifu_cards], [/auction] with such a price takes one copy from the
    seller's inventory, which is committed before the [INSERT] binds the
    price; the [INSERT] raises [OverflowError], no auction is created, no
    later sweep gives the copy back, and the copies of the card held by
    users or by auctions drop by one. *)
Theorem item_lost_on_price_overflow (start u wid p now : Z) (r : user_waifu)
    (w : card) (st : db) :
  user_waifus st !! (u, wid) = Some r → 0 < uw_amount r →
  waifu_cards st !! wid = Some w → ¬ sqlite_integer p →
  let st1 := (create_auction start u wid p st).2 in
  (create_auction start u wid p st).1 = OverflowError ∧
  auctions st1 = auctions st ∧
  copies u wid st1 = copies u wid st - 1 ∧
  items_total wid st1 = items_total wid st - 1 ∧
  (expired_ids now (auctions st) = [] →
   finalize_expired_auctions now st1 = st1).
Proof.
  intros Hr Hpos Hw Hp st1. unfold st1. rewrite create_auction_items.
  unfold raised.
  destruct (create_auction_creation start u wid p st)
    as [Hno | r' Hr' Hpos' Hw' | r' w' Hr' Hpos' Hw' Hp'
        | r' w' Hr' Hpos' Hw' Hp']; simpl.
  - specialize (Hno r Hr). lia.
  - congruence.
  - assert (r' = r) as -> by congruence.
    destruct (reserve_one_tables u wid r st) as (_ & _ & Ha & _).
    split_and!; [done | done | | |].
    + unfold copies, reserve_one. rewrite Hr. simpl. case_decide; simpl.
      * rewrite lookup_insert_eq. simpl. lia.
      * rewrite lookup_delete_eq. simpl. lia.
    + rewrite decide_True; [done | by split; [right |]].
    + intros Hdue. unfold finalize_expired_auctions. by rewrite Ha, Hdue.
  - done.
Qed.

Lemma item_lost_on_price_overflow_witness :
  let st1 := (create_auction 0 1 12 (2 ^ 63) demo_db).2 in
  (create_auction 0 1 12 (2 ^ 63) demo_db).1 = OverflowError ∧
  auctions st1 = auctions demo_db ∧
  copies 1 12 st1 = copies 1 12 demo_db - 1 ∧
  items_total 12 st1 = items_total 12 demo_db - 1 ∧
  (expired_ids 20000000 (auctions demo_db) = [] →
   finalize_expired_auctions 20000000 st1 = st1).
Proof.
  apply (item_lost_on_price_overflow 0 1 12 (2 ^ 63) 20000000
           (mk_user_waifu 1 (Some 1700000000)) demo_card demo_db).
  - reflexivity.
  - simpl. lia.
  - reflexivity.
  - unfold sqlite_integer. lia.
Defined.
